(** * logistic_reg_two_features: a shallow embedding of app.js

    The page script generates a seeded two-class point cloud, exports it as
    CSV text, parses a pasted sequence of weight triples and steps a decision
    line through them.  This file embeds those parts of [src/app.js] (and of
    the companion revision [src/unnamed/part_000], which differs in the
    generator and in the regenerate handler) and proves the properties the
    specification states about them.

    Conventions of the embedding.
    - A JavaScript Number that holds a fraction is a binary64 [float]
      (Rocq's primitive floats, the same IEEE 754 format).
    - A Number that only ever holds an integer (loop counters, the generator
      state, the cursor) is a [Z]; where the script can leave the exactly
      representable range the rounding is written out ([roundNumber]).
    - A String is a [string]: each [ascii] is one code unit in 0..255.
    - Mutable globals and the chart object are fields of one record that the
      handlers pass along. *)

From Stdlib Require Import ZArith QArith List String Ascii Bool Floats Uint63 Lia.
From Stdlib Require Import DecimalString DecimalPos DecimalN.
Import ListNotations.

Set Warnings "-inexact-float".
#[local] Open Scope string_scope.
#[local] Open Scope list_scope.
#[local] Open Scope Z_scope.

(** ** Numbers *)

Module JSNumber.

(** [Number.isFinite]: neither NaN nor an infinity. *)
Definition Number_isFinite (v : float) : bool :=
  negb (PrimFloat.is_nan v || PrimFloat.is_infinity v).

Definition is_neg_zero (v : float) : bool :=
  PrimFloat.is_zero v && PrimFloat.get_sign v.

Definition is_pos_zero (v : float) : bool :=
  PrimFloat.is_zero v && negb (PrimFloat.get_sign v).

(** One round of [Math.min]'s loop over its arguments: NaN is contagious,
    -0 counts as smaller than +0. *)
Definition min_step (lowest number : float) : float :=
  if PrimFloat.is_nan lowest || PrimFloat.is_nan number then PrimFloat.nan
  else if is_neg_zero number && is_pos_zero lowest then number
  else if (number <? lowest)%float then number
  else lowest.

Definition max_step (highest number : float) : float :=
  if PrimFloat.is_nan highest || PrimFloat.is_nan number then PrimFloat.nan
  else if is_pos_zero number && is_neg_zero highest then number
  else if (highest <? number)%float then number
  else highest.

(** [Math.min(...xs)] and [Math.max(...xs)]. *)
Definition Math_min_of (xs : list float) : float :=
  fold_left min_step xs PrimFloat.infinity.

Definition Math_max_of (xs : list float) : float :=
  fold_left max_step xs PrimFloat.neg_infinity.

Definition Math_min (a b : float) : float := Math_min_of [a; b].
Definition Math_max (a b : float) : float := Math_max_of [a; b].

Definition Math_abs (v : float) : float := PrimFloat.abs v.

Definition Math_PI : float := 3.141592653589793%float.

(** [a || b] on Numbers: [a] is falsy when it is 0, -0 or NaN. *)
Definition or_else (a b : float) : float :=
  if PrimFloat.is_zero a || PrimFloat.is_nan a then b else a.

(** *** Integer-valued Numbers *)

Definition two32 : Z := 4294967296.

Definition ToUint32 (z : Z) : Z := z mod two32.

Definition ToInt32 (z : Z) : Z := (z + 2147483648) mod two32 - 2147483648.

(** [a ^ b], [a | b], [a >>> k] and [Math.imul(a, b)]. *)
Definition bxor (a b : Z) : Z := Z.lxor (ToInt32 a) (ToInt32 b).
Definition bor (a b : Z) : Z := Z.lor (ToInt32 a) (ToInt32 b).
Definition ushr (a k : Z) : Z := Z.shiftr (ToUint32 a) k.
Definition Math_imul (a b : Z) : Z := ToInt32 (ToInt32 a * ToInt32 b).

(** The nearest binary64 to the integer [z], ties to even: the identity up
    to 2^53 in magnitude, a multiple of the last place beyond. *)
Definition roundNumber (z : Z) : Z :=
  let a := Z.abs z in
  let digits := Z.log2 a + 1 in
  if digits <=? 53 then z
  else
    let ulp := 2 ^ (digits - 53) in
    let q := a / ulp in
    let r := a mod ulp in
    let q' := match 2 * r ?= ulp with
              | Lt => q
              | Gt => q + 1
              | Eq => if Z.even q then q else q + 1
              end in
    Z.sgn z * (q' * ulp).

(** [a + b] on integer-valued Numbers. *)
Definition add_int (a b : Z) : Z := roundNumber (a + b).

(** The Number holding the unsigned 32-bit integer [k]. *)
Definition of_uint32 (k : Z) : float := PrimFloat.of_uint63 (Uint63.of_Z k).

(** *** Decimal literals to Numbers *)

(** [floor_log2_ratio n d] is the [l] with [2^l <= n/d < 2^(l+1)], for
    positive [n] and [d]. *)
Definition floor_log2_ratio (n d : Z) : Z :=
  let est := Z.log2 n - Z.log2 d in
  let below := if 0 <=? est then n <? d * 2 ^ est else n * 2 ^ (- est) <? d in
  if below then est - 1 else est.

(** The binary64 nearest to the positive rational [n/d], ties to even, as a
    significand and an exponent; overflow gives the infinity, underflow
    the zero. *)
Definition round_ratio (neg : bool) (n d : Z) : spec_float :=
  let l := floor_log2_ratio n d in
  let q := Z.max (l - 52) (-1074) in
  let num := if 0 <=? q then n else n * 2 ^ (- q) in
  let den := if 0 <=? q then d * 2 ^ q else d in
  let m := num / den in
  let r := num mod den in
  let m1 := match 2 * r ?= den with
            | Lt => m
            | Gt => m + 1
            | Eq => if Z.even m then m else m + 1
            end in
  let m2 := if m1 =? 2 ^ 53 then 2 ^ 52 else m1 in
  let q2 := if m1 =? 2 ^ 53 then q + 1 else q in
  match m2 with
  | Zpos p => if q2 <=? 971 then S754_finite neg p q2 else S754_infinity neg
  | _ => S754_zero neg
  end.

(** The Number value of the decimal [digits * 10^exp10] with sign [neg]. *)
Definition decimal_to_spec (neg : bool) (digits exp10 : Z) : spec_float :=
  if digits <=? 0 then S754_zero neg
  else if 0 <=? exp10 then round_ratio neg (digits * 10 ^ exp10) 1
  else round_ratio neg digits (10 ^ (- exp10)).

Definition decimal_to_Number (neg : bool) (digits exp10 : Z) : float :=
  SF2Prim (decimal_to_spec neg digits exp10).

End JSNumber.

(** ** Strings *)

Module JSString.

Definition code (c : ascii) : N := N_of_ascii c.

(** WhiteSpace and LineTerminator code units below 256: TAB, LF, VT, FF,
    CR, SP and NBSP.  [String.prototype.trim], [parseFloat] and the regular
    expression class [\s] all use this set. *)
Definition isWhiteSpace (c : ascii) : bool :=
  let n := code c in
  ((9 <=? n) && (n <=? 13) || (n =? 32) || (n =? 160))%N.

Definition LF : ascii := ascii_of_N 10.
Definition CR : ascii := ascii_of_N 13.
Definition newline : string := String LF "".

Definition is_empty (s : string) : bool :=
  match s with EmptyString => true | String _ _ => false end.

Fixpoint trimStart (s : string) : string :=
  match s with
  | String c rest => if isWhiteSpace c then trimStart rest else s
  | EmptyString => EmptyString
  end.

Fixpoint trimEnd (s : string) : string :=
  match s with
  | String c rest =>
      let rest' := trimEnd rest in
      if is_empty rest' && isWhiteSpace c then EmptyString else String c rest'
  | EmptyString => EmptyString
  end.

(** [s.trim()] *)
Definition trim (s : string) : string := trimEnd (trimStart s).

Fixpoint rev_append (acc s : string) : string :=
  match s with
  | String c rest => rev_append (String c acc) rest
  | EmptyString => acc
  end.

(** The piece collected so far is kept reversed in [cur]. *)
Definition piece (cur : string) : string := rev_append "" cur.

(** [s.split(/\r?\n/)]: a separator is LF, or CR immediately followed by
    LF; a lone CR stays in its piece. *)
Fixpoint split_newlines_from (cur s : string) : list string :=
  match s with
  | EmptyString => [piece cur]
  | String c rest =>
      if Ascii.eqb c LF then piece cur :: split_newlines_from "" rest
      else if Ascii.eqb c CR then
        match rest with
        | String c' rest' =>
            if Ascii.eqb c' LF then piece cur :: split_newlines_from "" rest'
            else split_newlines_from (String c cur) rest
        | EmptyString => split_newlines_from (String c cur) rest
        end
      else split_newlines_from (String c cur) rest
  end.

Definition split_newlines (s : string) : list string :=
  split_newlines_from "" s.

(** [s.split(/\s*,\s*/)].  The scan keeps the current piece in [cur] and the
    white space read since its last other character in [pend]: a comma
    ends the piece before that white space (the match [\s*,] starts
    there), anything else makes the white space part of the piece.
    [after] tells that a comma was just matched, whose [\s*] swallows the
    white space that follows. *)
Fixpoint split_commas_from (after : bool) (cur pend s : string) : list string :=
  match s with
  | EmptyString => [piece (pend ++ cur)]
  | String c rest =>
      if Ascii.eqb c "," then piece cur :: split_commas_from true "" "" rest
      else if isWhiteSpace c then
        if after then split_commas_from true cur pend rest
        else split_commas_from false cur (String c pend) rest
      else split_commas_from false (String c (pend ++ cur)) "" rest
  end.

Definition split_commas (s : string) : list string :=
  split_commas_from false "" "" s.

(** [s.toLowerCase()] on code units below 256: A-Z, and the Latin-1
    capitals U+00C0-U+00DE except the multiplication sign U+00D7. *)
Definition lower (c : ascii) : ascii :=
  let n := code c in
  if ((65 <=? n) && (n <=? 90)
      || (192 <=? n) && (n <=? 222) && negb (n =? 215))%N
  then ascii_of_N (n + 32) else c.

Fixpoint toLowerCase (s : string) : string :=
  match s with
  | String c rest => String (lower c) (toLowerCase rest)
  | EmptyString => EmptyString
  end.

(** [s.includes(needle)] *)
Fixpoint includes (needle s : string) : bool :=
  String.prefix needle s ||
  match s with
  | String _ rest => includes needle rest
  | EmptyString => false
  end.

(** [parts.join(sep)] *)
Definition join (sep : string) (parts : list string) : string :=
  String.concat sep parts.

(** *** parseFloat *)

Definition is_digit (c : ascii) : bool :=
  ((48 <=? code c) && (code c <=? 57))%N.

Definition digit_value (c : ascii) : Z := Z.of_N (code c) - 48.

(** The longest prefix of decimal digits, and what follows it. *)
Fixpoint span_digits (s : string) : string * string :=
  match s with
  | String c rest =>
      if is_digit c then
        let '(ds, tail) := span_digits rest in (String c ds, tail)
      else (EmptyString, s)
  | EmptyString => (EmptyString, EmptyString)
  end.

Fixpoint digits_value (acc : Z) (ds : string) : Z :=
  match ds with
  | String c rest => digits_value (10 * acc + digit_value c) rest
  | EmptyString => acc
  end.

(** An optional sign: whether it is a minus, and the rest. *)
Definition split_sign (s : string) : bool * string :=
  match s with
  | String c rest =>
      if Ascii.eqb c "-" then (true, rest)
      else if Ascii.eqb c "+" then (false, rest)
      else (false, s)
  | EmptyString => (false, s)
  end.

(** The value of an ExponentPart at the head of [s], 0 when there is none
    (an [e] that no digit follows is not part of the literal). *)
Definition exponent_part (s : string) : Z :=
  match s with
  | String c rest =>
      if Ascii.eqb c "e" || Ascii.eqb c "E" then
        let '(neg, rest') := split_sign rest in
        let '(ds, _) := span_digits rest' in
        if is_empty ds then 0
        else if neg then - digits_value 0 ds else digits_value 0 ds
      else 0
  | EmptyString => 0
  end.

(** The Number value of the longest prefix of [body] that is a
    StrUnsignedDecimalLiteral, with the sign [neg]; NaN when there is
    none. *)
Definition parse_unsigned (neg : bool) (body : string) : float :=
  if String.prefix "Infinity" body then
    if neg then PrimFloat.neg_infinity else PrimFloat.infinity
  else
    let '(ip, r1) := span_digits body in
    let '(fp, r2) :=
      match r1 with
      | String c r => if Ascii.eqb c "." then span_digits r else (EmptyString, r1)
      | EmptyString => (EmptyString, r1)
      end in
    if is_empty ip && is_empty fp then PrimFloat.nan
    else
      JSNumber.decimal_to_Number neg
        (digits_value 0 (ip ++ fp))
        (exponent_part r2 - Z.of_nat (String.length fp)).

(** [parseFloat(s)]: the Number value of the longest prefix of the
    left-trimmed [s] that is a StrDecimalLiteral, NaN when there is none. *)
Definition parseFloat (s : string) : float :=
  let '(neg, body) := split_sign (trimStart s) in
  parse_unsigned neg body.

(** *** Number to String *)

(** The decimal digits of a non-negative integer. *)
Definition decimal_string (z : Z) : string :=
  NilEmpty.string_of_uint (N.to_uint (Z.to_N z)).

Definition digits10 (z : Z) : Z := Z.of_nat (String.length (decimal_string z)).

Fixpoint zeros (n : nat) : string :=
  match n with
  | O => EmptyString
  | S n' => String "0" (zeros n')
  end.

Fixpoint take (n : nat) (s : string) : string :=
  match n, s with
  | S n', String c rest => String c (take n' rest)
  | _, _ => EmptyString
  end.

Fixpoint drop (n : nat) (s : string) : string :=
  match n, s with
  | S n', String _ rest => drop n' rest
  | _, _ => s
  end.

(** Steps 6-10 of Number::toString: the text of [s * 10^(n-k)], where
    the integer [s] has the [k] decimal digits [digits]. *)
Definition format_digits (s n : Z) : string :=
  let digits := decimal_string s in
  let k := Z.of_nat (String.length digits) in
  if (k <=? n) && (n <=? 21) then (digits ++ zeros (Z.to_nat (n - k)))%string
  else if (0 <? n) && (n <=? 21) then
    (take (Z.to_nat n) digits ++ "." ++ drop (Z.to_nat n) digits)%string
  else if (-6 <? n) && (n <=? 0) then
    ("0." ++ zeros (Z.to_nat (- n)) ++ digits)%string
  else
    let e := n - 1 in
    let sign := if e <? 0 then "-" else "+" in
    let mantissa :=
      if k =? 1 then digits
      else (take 1 digits ++ "." ++ drop 1 digits)%string in
    (mantissa ++ "e" ++ sign ++ decimal_string (Z.abs e))%string.

(** Does the decimal [s * 10^e10] read back as the binary64 [m * 2^e]? *)
Definition reads_back (m : positive) (e s e10 : Z) : bool :=
  match JSNumber.decimal_to_spec false s e10 with
  | S754_finite _ m' e' => Pos.eqb m' m && (e' =? e)
  | _ => false
  end.

(** The decimal exponent [n0] of the positive rational [vn/vd]:
    [10^(n0-1) <= vn/vd < 10^n0]. *)
Definition decimal_exponent (vn vd : Z) : Z :=
  if vd <=? vn then digits10 (vn / vd)
  else 1 - digits10 ((vd + vn - 1) / vn - 1).

(** The [k]-digit candidates next to [vn/vd]: the decimals just below and
    just above it, each with its [n]; the nearer one first (the even one
    on a tie). *)
Definition candidates (vn vd n0 k : Z) : list (Z * Z) :=
  let e10 := k - n0 in
  let num := if 0 <=? e10 then vn * 10 ^ e10 else vn in
  let den := if 0 <=? e10 then vd else vd * 10 ^ (- e10) in
  let lo := num / den in
  let r := num mod den in
  let hi := lo + 1 in
  let c_lo := (lo, n0) in
  let c_hi := if hi =? 10 ^ k then (10 ^ (k - 1), n0 + 1) else (hi, n0) in
  match 2 * r ?= den with
  | Lt => [c_lo; c_hi]
  | Gt => [c_hi; c_lo]
  | Eq => if Z.even lo then [c_lo; c_hi] else [c_hi; c_lo]
  end.

Definition acceptable (m : positive) (e k : Z) (c : Z * Z) : bool :=
  let '(s, n) := c in
  (digits10 s =? k) && reads_back m e s (n - k).

(** The first [k], counting up from [k] for [fuel] rounds, that has an
    acceptable candidate: one of [k] digits that reads back. *)
Fixpoint shortest_from (fuel : nat) (m : positive) (e vn vd n0 k : Z)
  : option (Z * Z) :=
  match fuel with
  | O => None
  | S fuel' =>
      match filter (acceptable m e k) (candidates vn vd n0 k) with
      | c :: _ => Some c
      | [] => shortest_from fuel' m e vn vd n0 (k + 1)
      end
  end.

(** The exact decimal expansion of [m * 2^e], as digits and [n]. *)
Definition exact_decimal (m : positive) (e : Z) : Z * Z :=
  let s := if 0 <=? e then Zpos m * 2 ^ e else Zpos m * 5 ^ (- e) in
  let e10 := if 0 <=? e then 0 else e in
  (s, digits10 s + e10).

(** Step 5 of Number::toString for the finite positive [m * 2^e]: [s] and
    [n] with as few digits as read back as this Number.  Seventeen
    digits always do; the exact expansion stands behind the search, so
    that the function is total without appeal to that fact. *)
Definition shortest_decimal (m : positive) (e : Z) : Z * Z :=
  let vn := if 0 <=? e then Zpos m * 2 ^ e else Zpos m in
  let vd := if 0 <=? e then 1 else 2 ^ (- e) in
  match shortest_from 17 m e vn vd (decimal_exponent vn vd) 1 with
  | Some c => c
  | None => exact_decimal m e
  end.

(** [String(v)] for a Number [v]. *)
Definition NumberToString (v : float) : string :=
  match Prim2SF v with
  | S754_nan => "NaN"
  | S754_zero _ => "0"
  | S754_infinity neg => if neg then "-Infinity" else "Infinity"
  | S754_finite neg m e =>
      let '(s, n) := shortest_decimal m e in
      ((if neg then "-" else "") ++ format_digits s n)%string
  end.

End JSString.

(** ** The seeded generator: mulberry32 *)

Module Mulberry32.
Import JSNumber.

(** [mulberry32(seed)] returns a closure over the counter [t]; the
    embedding passes [t] along.  [let t = seed >>> 0]. *)
Definition mulberry32 (seed : Z) : Z := ushr seed 0.

Definition increment : Z := 0x6D2B79F5.

(** The unsigned 32-bit integer [(r ^ (r >>> 14)) >>> 0] that a call
    computes from the advanced counter [t]. *)
Definition mix (t : Z) : Z :=
  let r := Math_imul (bxor t (ushr t 15)) (bor 1 t) in
  let r := bxor r (add_int r (Math_imul (bxor r (ushr r 7)) (bor 61 r))) in
  ushr (bxor r (ushr r 14)) 0.

(** The Number [k / 4294967296] for an unsigned 32-bit integer [k]. *)
Definition unit_interval (k : Z) : float :=
  (of_uint32 k / 4294967296)%float.

(** One call of the closure: the Number drawn, and the new counter.  The
    counter is a Number that is never reduced modulo 2^32: it grows by
    0x6D2B79F5 with every call. *)
Definition next (t : Z) : float * Z :=
  let t := add_int t increment in
  (unit_interval (mix t), t).

End Mulberry32.

(** ** Computations that draw from the generator *)

(** How a call ends: it returns, it throws, or (when a loop of the
    embedding runs out of fuel) it is still running. *)
Inductive outcome (A : Type) : Type :=
| Returns (a : A)
| Throws (error : string)
| Diverges.

Arguments Returns {A} a.
Arguments Throws {A} error.
Arguments Diverges {A}.

(** A computation takes the generator's counter and ends with a value and
    the new counter. *)
Definition Draw (A : Type) : Type := Z -> outcome (A * Z).

Definition ret {A : Type} (a : A) : Draw A := fun t => Returns (a, t).

Definition bind {A B : Type} (c : Draw A) (k : A -> Draw B) : Draw B :=
  fun t => match c t with
           | Returns (a, t') => k a t'
           | Throws error => Throws error
           | Diverges => Diverges
           end.

Notation "x <- c ;; k" := (bind c (fun x => k))
  (at level 61, c at next level, right associativity).

Definition rng : Draw float := fun t => Returns (Mulberry32.next t).

(** ** The data set *)

Record Point : Type := { x1 : float; x2 : float; y : float }.

Inductive Revision : Type :=
| AppJs     (**r src/app.js *)
| Part000.  (**r src/unnamed/part_000 *)

(** An array holds at most 2^32 - 1 elements: [push] on a full array throws
    a RangeError. *)
Definition max_array_length : Z := 4294967295.

Definition push {A : Type} (data : list A) (a : A) : Draw (list A) :=
  fun t =>
    if Z.of_nat (List.length data) <? max_array_length
    then Returns (data ++ [a], t)
    else Throws "RangeError: Invalid array length".

Section Generator.

(** [Math.log] and [Math.cos] are implementation-approximated in
    ECMAScript; the embedding takes them as they are given.  [fuel]
    bounds the rounds of each redraw loop. *)
Variables Math_log Math_cos : float -> float.
Variable fuel : nat.

(** [while (u === 0) u = rng();] *)
Fixpoint redraw (rounds : nat) (u : float) : Draw float :=
  if (u =? 0)%float then
    match rounds with
    | O => fun _ => Diverges
    | S rounds' => u' <- rng ;; redraw rounds' u'
    end
  else ret u.

(** [mag * Math.cos(2.0 * Math.PI * v)] with
    [mag = Math.sqrt(-2.0 * Math.log(u))] *)
Definition box_muller (u v : float) : float :=
  let mag := PrimFloat.sqrt (-2.0 * Math_log u)%float in
  (mag * Math_cos (2.0 * JSNumber.Math_PI * v))%float.

(** [randn(rng)] *)
Definition randn : Draw float :=
  u <- redraw fuel 0%float ;;
  v <- redraw fuel 0%float ;;
  ret (box_muller u v).

(** [means[y]] and [std] of each revision. *)
Definition means (rev : Revision) (label : float) : float * float :=
  match rev with
  | AppJs => if (label =? 0)%float then (3.0, 3.5)%float else (7.0, 6.5)%float
  | Part000 => if (label =? 0)%float then (-1.0, -0.5)%float else (1.1, 0.7)%float
  end.

Definition std (rev : Revision) : float :=
  match rev with
  | AppJs => 1.1%float
  | Part000 => 0.8%float
  end.

(** [Math.min(10, Math.max(0, v))], in app.js only. *)
Definition clamp (rev : Revision) (v : float) : float :=
  match rev with
  | AppJs => JSNumber.Math_min 10 (JSNumber.Math_max 0 v)
  | Part000 => v
  end.

(** [i < n / 2 ? 0 : 1] *)
Definition label_of (i n : Z) : float :=
  if negb (Qle_bool (inject_Z n / 2) (inject_Z i)) then 0%float else 1%float.

(** The body of the [for] loop up to the [push], for index [i]. *)
Definition generate_point (rev : Revision) (i n : Z) : Draw Point :=
  let y := label_of i n in
  let m := means rev y in
  z1 <- randn ;;
  let x1 := (fst m + std rev * z1)%float in
  z2 <- randn ;;
  let x2 := (snd m + std rev * z2)%float in
  ret {| x1 := clamp rev x1; x2 := clamp rev x2; y := y |}.

(** [for (let i = 0; i < n; i++) { ...; data.push({ x1, x2, y }); }] with
    [count] rounds to go: the loop runs for i = 0, ..., n-1. *)
Fixpoint generate_loop (rev : Revision) (count : nat) (i n : Z)
    (data : list Point) : Draw (list Point) :=
  match count with
  | O => ret data
  | S count' =>
      p <- generate_point rev i n ;;
      data' <- push data p ;;
      generate_loop rev count' (i + 1) n data'
  end.

(** [generateData({ n, seed })].  The function has no [throw] of its own. *)
Definition generateData (rev : Revision) (n seed : Z) : outcome (list Point) :=
  match generate_loop rev (Z.to_nat n) 0 n [] (Mulberry32.mulberry32 seed) with
  | Returns (data, _) => Returns data
  | Throws error => Throws error
  | Diverges => Diverges
  end.

End Generator.

(** ** CSV export and the weight parser *)

(** Rows are JavaScript objects: [toCsv] reads the properties [x1], [x2]
    and [y] of whatever it is given, and a property an object lacks reads
    as [undefined]. *)
Inductive JSValue : Type :=
| Undefined
| Num (v : float).

Definition JSObject : Type := list (string * JSValue).

Fixpoint Get (o : JSObject) (key : string) : JSValue :=
  match o with
  | (k, v) :: o' => if String.eqb k key then v else Get o' key
  | [] => Undefined
  end.

(** The string a template literal puts for a value. *)
Definition ToString (v : JSValue) : string :=
  match v with
  | Undefined => "undefined"
  | Num f => JSString.NumberToString f
  end.

Record Weights : Type := { w0 : float; w1 : float; w2 : float }.

Definition Point_object (p : Point) : JSObject :=
  [("x1", Num (x1 p)); ("x2", Num (x2 p)); ("y", Num (y p))].

Definition Weights_object (w : Weights) : JSObject :=
  [("w0", Num (w0 w)); ("w1", Num (w1 w)); ("w2", Num (w2 w))].

(** [`${r.x1},${r.x2},${r.y}`] *)
Definition row_text (r : JSObject) : string :=
  (ToString (Get r "x1") ++ "," ++ ToString (Get r "x2") ++ ","
     ++ ToString (Get r "y"))%string.

Definition toCsv (rows : list JSObject) : string :=
  let header := ["x1"; "x2"; "y"] in
  let lines := [JSString.join "," header] in
  let lines := fold_left (fun lines r => lines ++ [row_text r]) rows lines in
  JSString.join JSString.newline lines.

(** [[w0, w1, w2].every(Number.isFinite)] *)
Definition all_finite (a b c : float) : bool :=
  forallb JSNumber.Number_isFinite [a; b; c].

(** The [for] loop of [parseWeightsCsv], at index [i] with [count] rounds to
    go; [continue] and a failed test leave [out] as it is. *)
Fixpoint parse_rows (lines : list string) (count : nat) (i : nat)
    (out : list Weights) : list Weights :=
  match count with
  | O => out
  | S count' =>
      let parts := JSString.split_commas (nth i lines "") in
      if (List.length parts <? 3)%nat then parse_rows lines count' (S i) out
      else
        let w0 := JSString.parseFloat (nth 0 parts "") in
        let w1 := JSString.parseFloat (nth 1 parts "") in
        let w2 := JSString.parseFloat (nth 2 parts "") in
        if all_finite w0 w1 w2
        then parse_rows lines count' (S i)
               (out ++ [{| w0 := w0; w1 := w1; w2 := w2 |}])
        else parse_rows lines count' (S i) out
  end.

Definition is_header (first : string) : bool :=
  JSString.includes "w0" first && JSString.includes "w1" first
  && JSString.includes "w2" first.

Definition parseWeightsCsv (text : string) : list Weights :=
  let lines :=
    filter (fun l => (0 <? String.length l)%nat)
      (map JSString.trim (JSString.split_newlines text)) in
  if (List.length lines =? 0)%nat then []
  else
    let first := JSString.toLowerCase (nth 0 lines "") in
    let startIdx := if is_header first then 1%nat else 0%nat in
    parse_rows lines (List.length lines - startIdx) startIdx [].

(** ** The chart *)

Module Chart.

Record XY : Type := { x : float; y : float }.

(** The fields of the Chart.js object the script reads or writes:
    [data.datasets[0..2].data], [data.datasets[2].label], the four axis
    bounds of [options.scales], and the number of [chart.update()] calls. *)
Record t : Type := {
  blue : list XY;
  red : list XY;
  line : list XY;
  line_label : string;
  x_min : float;
  x_max : float;
  y_min : float;
  y_max : float;
  updates : nat
}.

Definition update (c : t) : t :=
  {| blue := blue c; red := red c; line := line c; line_label := line_label c;
     x_min := x_min c; x_max := x_max c; y_min := y_min c; y_max := y_max c;
     updates := S (updates c) |}.

Definition set_line (data : list XY) (label : string) (c : t) : t :=
  {| blue := blue c; red := red c; line := data; line_label := label;
     x_min := x_min c; x_max := x_max c; y_min := y_min c; y_max := y_max c;
     updates := updates c |}.

End Chart.

(** [points.filter((p) => p.y === label).map((p) => ({ x: p.x1, y: p.x2 }))] *)
Definition series (label : float) (points : list Point) : list Chart.XY :=
  map (fun p => {| Chart.x := x1 p; Chart.y := x2 p |})
    (filter (fun p => (y p =? label)%float) points).

(** The padded bounds of a data set: [(lo - pad, hi + pad)] with
    [pad = 0.15 * (hi - lo || 1)]. *)
Definition padded (vs : list float) : float * float :=
  let lo := JSNumber.Math_min_of vs in
  let hi := JSNumber.Math_max_of vs in
  let pad := (0.15 * JSNumber.or_else (hi - lo) 1)%float in
  ((lo - pad)%float, (hi + pad)%float).

Definition createScatterChart (points : list Point) : Chart.t :=
  let bx := padded (map x1 points) in
  let by_ := padded (map x2 points) in
  {| Chart.blue := series 0%float points;
     Chart.red := series 1%float points;
     Chart.line := [ {| Chart.x := fst bx; Chart.y := 0%float |};
                     {| Chart.x := snd bx; Chart.y := 0%float |} ];
     Chart.line_label := "x2 = 0";
     Chart.x_min := fst bx; Chart.x_max := snd bx;
     Chart.y_min := fst by_; Chart.y_max := snd by_;
     Chart.updates := 0 |}.

Definition setBaselineLine (c : Chart.t) : Chart.t :=
  Chart.set_line
    [ {| Chart.x := Chart.x_min c; Chart.y := 0%float |};
      {| Chart.x := Chart.x_max c; Chart.y := 0%float |} ]
    "x2 = 0" c.

(** The end points [setDecisionLineFromWeights] computes for [w] within the
    given axis bounds. *)
Definition decision_line (w : Weights) (xMin xMax yMin yMax : float)
  : list Chart.XY :=
  let '{| w0 := w0; w1 := w1; w2 := w2 |} := w in
  if all_finite w0 w1 w2 then
    if (1e-12 <? JSNumber.Math_abs w2)%float then
      [ {| Chart.x := xMin; Chart.y := (- (w0 + w1 * xMin) / w2)%float |};
        {| Chart.x := xMax; Chart.y := (- (w0 + w1 * xMax) / w2)%float |} ]
    else if (1e-12 <? JSNumber.Math_abs w1)%float then
      let xConst := (- w0 / w1)%float in
      [ {| Chart.x := xConst; Chart.y := yMin |};
        {| Chart.x := xConst; Chart.y := yMax |} ]
    else []
  else [].

Definition setDecisionLineFromWeights (w : Weights) (c : Chart.t) : Chart.t :=
  Chart.set_line
    (decision_line w (Chart.x_min c) (Chart.x_max c) (Chart.y_min c) (Chart.y_max c))
    "Decision boundary" c.

(** ** The page state and its handlers *)

(** The script's globals.  [animTimer] holds the interval of the running
    timer, [None] for [null].  What the handlers write to the page (status
    text, button labels and disabled flags) is never read back and is left
    out. *)
Record App : Type := {
  DATA : list Point;
  chart : Chart.t;
  currentSeed : Z;
  WEIGHT_STEPS : list Weights;
  stepIndex : Z;
  animTimer : option Z
}.

Definition with_chart (f : Chart.t -> Chart.t) (s : App) : App :=
  {| DATA := DATA s; chart := f (chart s); currentSeed := currentSeed s;
     WEIGHT_STEPS := WEIGHT_STEPS s; stepIndex := stepIndex s;
     animTimer := animTimer s |}.

Definition with_stepIndex (i : Z) (s : App) : App :=
  {| DATA := DATA s; chart := chart s; currentSeed := currentSeed s;
     WEIGHT_STEPS := WEIGHT_STEPS s; stepIndex := i;
     animTimer := animTimer s |}.

Definition with_WEIGHT_STEPS (ws : list Weights) (s : App) : App :=
  {| DATA := DATA s; chart := chart s; currentSeed := currentSeed s;
     WEIGHT_STEPS := ws; stepIndex := stepIndex s;
     animTimer := animTimer s |}.

Definition with_animTimer (h : option Z) (s : App) : App :=
  {| DATA := DATA s; chart := chart s; currentSeed := currentSeed s;
     WEIGHT_STEPS := WEIGHT_STEPS s; stepIndex := stepIndex s;
     animTimer := h |}.

(** [WEIGHT_STEPS[i]]: [None] stands for [undefined]. *)
Definition weights_at (s : App) (i : Z) : option Weights :=
  if i <? 0 then None else nth_error (WEIGHT_STEPS s) (Z.to_nat i).

Definition loaded (s : App) : Z := Z.of_nat (List.length (WEIGHT_STEPS s)).

Definition stopAnimation (s : App) : App := with_animTimer None s.

(** The branch shared by the step handler and the timer callback:
    [stepIndex += 1; setDecisionLineFromWeights(WEIGHT_STEPS[stepIndex]);
    chart.update();].  Destructuring [undefined] throws, which ends the
    handler after the increment. *)
Definition advance (s : App) : App :=
  let s := with_stepIndex (stepIndex s + 1) s in
  match weights_at s (stepIndex s) with
  | Some w =>
      with_chart Chart.update (with_chart (setDecisionLineFromWeights w) s)
  | None => s
  end.

(** [stepBtn] click *)
Definition step (s : App) : App :=
  if loaded s =? 0 then s
  else if stepIndex s <? loaded s - 1 then advance s
  else s.

(** The callback given to [setInterval]. *)
Definition tick (s : App) : App :=
  if stepIndex s <? loaded s - 1 then advance s
  else stopAnimation s.

(** [animateBtn] click; [slider] is what [parseInt] reads from the speed
    control, [None] for NaN. *)
Definition animate (slider : option Z) (s : App) : App :=
  if loaded s =? 0 then s
  else
    let speed := match slider with
                 | Some v => if v =? 0 then 300 else v
                 | None => 300
                 end in
    match animTimer s with
    | Some _ => stopAnimation s
    | None => with_animTimer (Some speed) s
    end.

(** [resetAnimBtn] click *)
Definition resetAnim (s : App) : App :=
  let s := stopAnimation s in
  let s := with_stepIndex (-1) s in
  with_chart Chart.update (with_chart setBaselineLine s).

(** [loadWeightsBtn] click, with the text area's value. *)
Definition loadWeights (value : string) (s : App) : App :=
  let s := stopAnimation s in
  let txt := JSString.trim value in
  let steps := parseWeightsCsv txt in
  let s := with_WEIGHT_STEPS steps s in
  let s := with_stepIndex (-1) s in
  with_chart Chart.update (with_chart setBaselineLine s).

(** The new series, baseline and bounds that the regenerate handler gives
    the chart for the new data; the label of the line is not touched. *)
Definition rescale (points : list Point) (c : Chart.t) : Chart.t :=
  let bx := padded (map x1 points) in
  let by_ := padded (map x2 points) in
  {| Chart.blue := series 0%float points;
     Chart.red := series 1%float points;
     Chart.line := [ {| Chart.x := fst bx; Chart.y := 0%float |};
                     {| Chart.x := snd bx; Chart.y := 0%float |} ];
     Chart.line_label := Chart.line_label c;
     Chart.x_min := fst bx; Chart.x_max := snd bx;
     Chart.y_min := fst by_; Chart.y_max := snd by_;
     Chart.updates := Chart.updates c |}.

(** The line the regenerate handler leaves, and whether the handler goes
    on: always the baseline in app.js; in part_000 the current step's line
    when weights are loaded and the cursor is on a step (destructuring
    [undefined] throws and ends the handler). *)
Definition redraw_line (rev : Revision) (s : App) : App * bool :=
  match rev with
  | AppJs => (with_chart setBaselineLine s, true)
  | Part000 =>
      if 0 <? loaded s then
        if 0 <=? stepIndex s then
          match weights_at s (stepIndex s) with
          | Some w => (with_chart (setDecisionLineFromWeights w) s, true)
          | None => (s, false)
          end
        else (with_chart setBaselineLine s, true)
      else (s, true)
  end.

Section Controller.

Variables Math_log Math_cos : float -> float.
Variable fuel : nat.
Variable rev : Revision.

(** [regenBtn] click *)
Definition regenerate (s : App) : outcome App :=
  let s := match rev with
           | AppJs => with_stepIndex (-1) (stopAnimation s)
           | Part000 => s
           end in
  let seed := Z.rem (currentSeed s * 9301 + 49297) 233280 in
  match generateData Math_log Math_cos fuel rev 200
          (if seed =? 0 then 1 else seed) with
  | Returns data =>
      let s := {| DATA := data; chart := rescale data (chart s);
                  currentSeed := seed; WEIGHT_STEPS := WEIGHT_STEPS s;
                  stepIndex := stepIndex s; animTimer := animTimer s |} in
      let '(s, goes_on) := redraw_line rev s in
      Returns (if goes_on then with_chart Chart.update s else s)
  | Throws error => Throws error
  | Diverges => Diverges
  end.

(** The state when [DOMContentLoaded] has been handled. *)
Definition start : outcome App :=
  match generateData Math_log Math_cos fuel rev 200 123 with
  | Returns data =>
      Returns {| DATA := data; chart := createScatterChart data;
                 currentSeed := 123; WEIGHT_STEPS := []; stepIndex := -1;
                 animTimer := None |}
  | Throws error => Throws error
  | Diverges => Diverges
  end.

(** What can happen to the page. *)
Inductive Event : Type :=
| Regenerate
| LoadWeights (value : string)
| Step
| Animate (slider : option Z)
| Tick
| ResetAnim.

(** The timer callback runs only while a timer is set. *)
Definition handle (ev : Event) (s : App) : outcome App :=
  match ev with
  | Regenerate => regenerate s
  | LoadWeights value => Returns (loadWeights value s)
  | Step => Returns (step s)
  | Animate slider => Returns (animate slider s)
  | Tick => match animTimer s with
            | Some _ => Returns (tick s)
            | None => Returns s
            end
  | ResetAnim => Returns (resetAnim s)
  end.

Fixpoint run (evs : list Event) (s : App) : outcome App :=
  match evs with
  | [] => Returns s
  | ev :: evs' =>
      match handle ev s with
      | Returns s' => run evs' s'
      | Throws error => Throws error
      | Diverges => Diverges
      end
  end.

End Controller.

(** ** Vocabulary of the specification *)

(** Two segments with the same end points as JavaScript's [===] compares
    Numbers (which does not tell -0 from 0). *)
Fixpoint same_segment (a b : list Chart.XY) : bool :=
  match a, b with
  | [], [] => true
  | p :: a', q :: b' =>
      (Chart.x p =? Chart.x q)%float && (Chart.y p =? Chart.y q)%float
      && same_segment a' b'
  | _, _ => false
  end.

Definition finite_weights (w : Weights) : Prop :=
  all_finite (w0 w) (w1 w) (w2 w) = true.

(** The sloped segment [x2 = -(w0 + w1*x1)/w2] between [xMin] and [xMax]. *)
Definition sloped_segment (w : Weights) (xMin xMax : float) : list Chart.XY :=
  [ {| Chart.x := xMin; Chart.y := (- (w0 w + w1 w * xMin) / w2 w)%float |};
    {| Chart.x := xMax; Chart.y := (- (w0 w + w1 w * xMax) / w2 w)%float |} ].

(** The vertical segment at [x1 = -w0/w1] between [yMin] and [yMax]. *)
Definition vertical_segment (w : Weights) (yMin yMax : float) : list Chart.XY :=
  [ {| Chart.x := (- w0 w / w1 w)%float; Chart.y := yMin |};
    {| Chart.x := (- w0 w / w1 w)%float; Chart.y := yMax |} ].

Definition xy (a b : float) : Chart.XY := {| Chart.x := a; Chart.y := b |}.

(** A Number the generator can draw and a redraw loop lets through:
    [k / 2^32] for a nonzero 32-bit [k]. *)
Definition drawn (u : float) : Prop :=
  exists k, 0 < k < JSNumber.two32 /\ u = Mulberry32.unit_interval k.

Section Sampling.

Variables Math_log Math_cos : float -> float.

(** A coordinate before clamping: a mean plus [std] times a Box-Muller
    value of two drawn Numbers. *)
Definition sampled (rev : Revision) (mean v : float) : Prop :=
  exists u1 u2, drawn u1 /\ drawn u2 /\
    v = (mean + std rev * box_muller Math_log Math_cos u1 u2)%float.

(** [p] is a point the loop body can build for index [i]. *)
Definition sampled_point (rev : Revision) (n i : Z) (p : Point) : Prop :=
  let label := label_of i n in
  exists v1 v2,
    sampled rev (fst (means rev label)) v1
    /\ sampled rev (snd (means rev label)) v2
    /\ p = {| x1 := clamp rev v1; x2 := clamp rev v2; y := label |}.

(** [pts] are points the loop can build for the indices from [i] on. *)
Inductive generated (rev : Revision) (n : Z) : Z -> list Point -> Prop :=
| generated_nil i : generated rev n i []
| generated_cons i p pts :
    sampled_point rev n i p ->
    generated rev n (i + 1) pts ->
    generated rev n i (p :: pts).

End Sampling.

(** How many points carry the label [l]. *)
Definition count_label (l : float) (data : list Point) : nat :=
  List.length (filter (fun p => (y p =? l)%float) data).

Definition has_label (l : float) (p : Point) : Prop := y p = l.

(** A coordinate inside the box [0, 10], as [<=] compares Numbers. *)
Definition in_box (c : float) : Prop :=
  (0 <=? c)%float = true /\ (c <=? 10)%float = true.

(** The cursor is the baseline -1 or the index of a loaded step. *)
Definition cursor_in_range (s : App) : Prop :=
  -1 <= stepIndex s <= loaded s - 1.

(** The baseline [x2 = 0] across the chart's horizontal bounds. *)
Definition baseline (c : Chart.t) : list Chart.XY :=
  [ xy (Chart.x_min c) 0; xy (Chart.x_max c) 0 ].

(** The line that belongs to the cursor of [s], within the bounds of [c]:
    the decision line of the step the cursor is on, the baseline when it
    is on none. *)
Definition line_for_cursor (s : App) (c : Chart.t) : list Chart.XY :=
  match weights_at s (stepIndex s) with
  | Some w => decision_line w (Chart.x_min c) (Chart.x_max c)
                (Chart.y_min c) (Chart.y_max c)
  | None => baseline c
  end.

(** The bounds of [c] are the padded bounds of [points]. *)
Definition bounds_of (points : list Point) (c : Chart.t) : Prop :=
  Chart.x_min c = fst (padded (map x1 points))
  /\ Chart.x_max c = snd (padded (map x1 points))
  /\ Chart.y_min c = fst (padded (map x2 points))
  /\ Chart.y_max c = snd (padded (map x2 points)).

(** A page to try the handlers on: two points, nothing loaded. *)
Definition example_points : list Point :=
  [ {| x1 := 2; x2 := 3; y := 0 |}; {| x1 := 8; x2 := 6; y := 1 |} ].

Definition example_page : App :=
  {| DATA := example_points; chart := createScatterChart example_points;
     currentSeed := 123; WEIGHT_STEPS := []; stepIndex := -1;
     animTimer := None |}.

Definition three_steps : string :=
  "w0,w1,w2" ++ JSString.newline ++ "0,0,1" ++ JSString.newline
  ++ "-2,1,0" ++ JSString.newline ++ "1,2,4".

Definition same_bounds (c c' : Chart.t) : Prop :=
  Chart.x_min c' = Chart.x_min c /\ Chart.x_max c' = Chart.x_max c
  /\ Chart.y_min c' = Chart.y_min c /\ Chart.y_max c' = Chart.y_max c.

(** *** The parser as the specification words it

    "Split input into lines on any line-ending convention, trim whitespace,
    discard empty lines ... if [the first remaining line] contains all
    three of the substrings w0, w1, w2, treat it as a header and skip it.
    For each remaining line, split on comma ...; if fewer than 3 fields
    result, silently skip the line; parse the first three fields ...; if
    any of the three fails to parse to a finite number, silently skip the
    line; otherwise append {w0,w1,w2}." *)

Definition spec_nonblank_lines (text : string) : list string :=
  filter (fun l => negb (JSString.is_empty l))
    (map JSString.trim (JSString.split_newlines text)).

Definition spec_skip_header (lines : list string) : list string :=
  match lines with
  | first :: rest =>
      if is_header (JSString.toLowerCase first) then rest else lines
  | [] => []
  end.

(** The triple a line stands for, if it stands for one. *)
Definition spec_row (line : string) : option Weights :=
  match JSString.split_commas line with
  | a :: b :: c :: _ =>
      let w := {| w0 := JSString.parseFloat a; w1 := JSString.parseFloat b;
                  w2 := JSString.parseFloat c |} in
      if all_finite (w0 w) (w1 w) (w2 w) then Some w else None
  | _ => None
  end.

Definition spec_rows (lines : list string) : list Weights :=
  flat_map (fun l => match spec_row l with Some w => [w] | None => [] end) lines.

Definition spec_parse (text : string) : list Weights :=
  spec_rows (spec_skip_header (spec_nonblank_lines text)).

Definition triple (a b c : float) : Weights := {| w0 := a; w1 := b; w2 := c |}.

(** *** The export as the specification words it *)

(** The text of one point: its three Numbers in default decimal form,
    separated by commas. *)
Definition point_row (p : Point) : string :=
  (JSString.NumberToString (x1 p) ++ "," ++ JSString.NumberToString (x2 p)
     ++ "," ++ JSString.NumberToString (y p))%string.

(** The header row, then one row per point, each after one newline. *)
Fixpoint spec_rows_text (data : list Point) : string :=
  match data with
  | p :: rest => (JSString.newline ++ point_row p ++ spec_rows_text rest)%string
  | [] => EmptyString
  end.

Definition spec_csv (data : list Point) : string :=
  ("x1,x2,y" ++ spec_rows_text data)%string.

(** *** The round trip as the code has it *)

(** What a Number comes back as: itself, but 0 for -0. *)
Definition read_back (v : float) : float :=
  if PrimFloat.is_zero v then 0%float else v.

Definition finite_point (p : Point) : Prop :=
  all_finite (x1 p) (x2 p) (y p) = true.

(** The triple that parsing reads from the exported row of a point. *)
Definition point_triple (p : Point) : Weights :=
  triple (read_back (x1 p)) (read_back (x2 p)) (read_back (y p)).

(** No white space and no comma. *)
Fixpoint token (s : string) : bool :=
  match s with
  | String c rest =>
      negb (JSString.isWhiteSpace c) && negb (Ascii.eqb c ",") && token rest
  | EmptyString => true
  end.

Fixpoint all_digits (s : string) : bool :=
  match s with
  | String c rest => JSString.is_digit c && all_digits rest
  | EmptyString => true
  end.

(** The head of [s] is not a digit. *)
Definition stops (s : string) : bool :=
  match s with
  | String c _ => negb (JSString.is_digit c)
  | EmptyString => true
  end.

(** No white space (and so no line terminator). *)
Fixpoint no_space (s : string) : bool :=
  match s with
  | String c rest => negb (JSString.isWhiteSpace c) && no_space rest
  | EmptyString => true
  end.

(** The triple that parsing reads from the exported text of a row, if it
    reads one: the three fields as [parseFloat] reads the text a template
    literal writes for them, kept when all three are finite. *)
Definition row_read_back (r : JSObject) : list Weights :=
  let a := JSString.parseFloat (ToString (Get r "x1")) in
  let b := JSString.parseFloat (ToString (Get r "x2")) in
  let c := JSString.parseFloat (ToString (Get r "y")) in
  if all_finite a b c then [triple a b c] else [].

(** ** The seeds of the regenerate handler *)

(** [(currentSeed * 9301 + 49297) % 233280], the seed a regenerate click
    moves to. *)
Definition next_seed (seed : Z) : Z := Z.rem (seed * 9301 + 49297) 233280.

(** [currentSeed || 1], the seed the data set is generated with. *)
Definition seed_used (seed : Z) : Z := if seed =? 0 then 1 else seed.

(** The seed after [k] regenerate clicks from [seed]. *)
Definition seed_after (k : Z) (seed : Z) : Z := Z.iter k next_seed seed.

(** Whether one of the [k] seeds [s], [next_seed s], ... is [target]. *)
Definition visits (target : Z) (k : Z) (s : Z) : bool :=
  snd (Z.iter k (fun '(s, hit) => (next_seed s, hit || (s =? target))) (s, false)).

(** The seed step and the scan on 63-bit machine integers, which hold the
    seeds and the products exactly: the proofs run through the seeds with
    them. *)
Definition next_seed63 (s : int) : int :=
  ((s * 9301 + 49297) mod 233280)%uint63.

Definition scan63 (target : int) (k : positive) (s : int) : int * bool :=
  Pos.iter (fun '(s, hit) => (next_seed63 s, hit || (s =? target)%uint63))
    (s, false) k.

(** How many regenerate clicks a sequence of events has. *)
Definition regenerations (evs : list Event) : Z :=
  Z.of_nat
    (List.length
       (filter (fun ev => match ev with Regenerate => true | _ => false end) evs)).

(** ** What the page shows

    The status line, the button label and the disabled flags that the
    handlers write.  The page is taken to have the elements the script
    looks up by id. *)

(** A text of the page as UTF-16 code units: the status line has a bullet
    (U+2022), which is no code unit of a [string]. *)
Definition Text : Type := list Z.

Definition text_of (s : string) : Text :=
  map (fun c => Z.of_N (JSString.code c)) (list_ascii_of_string s).

Definition bullet : Z := 8226.

(** [String(k)] and [`${k}`] for an integer 0 <= k < 10^21, which a length
    and a position are. *)
Definition count_text (k : Z) : string := JSString.decimal_string k.

(** What [updateAnimStatus] writes: [statusEl.textContent] and the
    [disabled] flag of the three buttons. *)
Record AnimStatus : Type := {
  statusEl_textContent : Text;
  animateBtn_disabled : bool;
  stepBtn_disabled : bool;
  resetBtn_disabled : bool
}.

Definition updateAnimStatus (s : App) : AnimStatus :=
  let loaded := loaded s in
  if loaded =? 0 then
    {| statusEl_textContent := text_of "0 steps loaded";
       animateBtn_disabled := true;
       stepBtn_disabled := true;
       resetBtn_disabled := true |}
  else
    let at_ := if stepIndex s <? 0 then 0 else stepIndex s + 1 in
    {| statusEl_textContent :=
         text_of (count_text loaded) ++ text_of " step"
         ++ text_of (if negb (loaded =? 1) then "s" else "")
         ++ text_of " loaded " ++ [bullet] ++ text_of " at "
         ++ text_of (count_text at_) ++ text_of "/"
         ++ text_of (count_text loaded);
       animateBtn_disabled := false;
       stepBtn_disabled := loaded - 1 <=? stepIndex s;
       resetBtn_disabled := false |}.

(** The globals together with what the script has written to the page:
    the last [updateAnimStatus], the label of the animate button and the
    counter [nPoints]; [None] where the script has not written yet. *)
Record Page : Type := {
  globals : App;
  animStatus : option AnimStatus;
  animateBtn_textContent : option string;
  nPoints_textContent : option string
}.

Definition with_globals (s : App) (p : Page) : Page :=
  {| globals := s; animStatus := animStatus p;
     animateBtn_textContent := animateBtn_textContent p;
     nPoints_textContent := nPoints_textContent p |}.

(** [stopAnimation()], with [animateBtn.textContent = 'Animate'] *)
Definition page_stopAnimation (p : Page) : Page :=
  {| globals := stopAnimation (globals p); animStatus := animStatus p;
     animateBtn_textContent := Some "Animate";
     nPoints_textContent := nPoints_textContent p |}.

(** [updateAnimStatus()] *)
Definition page_updateAnimStatus (p : Page) : Page :=
  {| globals := globals p; animStatus := Some (updateAnimStatus (globals p));
     animateBtn_textContent := animateBtn_textContent p;
     nPoints_textContent := nPoints_textContent p |}.

(** The branch shared by the step handler and the timer callback, which
    ends in [updateAnimStatus()] unless destructuring has thrown. *)
Definition page_advance (p : Page) : Page :=
  let p' := with_globals (advance (globals p)) p in
  match weights_at (globals p) (stepIndex (globals p) + 1) with
  | Some _ => page_updateAnimStatus p'
  | None => p'
  end.

Definition page_step (p : Page) : Page :=
  if loaded (globals p) =? 0 then p
  else if stepIndex (globals p) <? loaded (globals p) - 1 then page_advance p
  else p.

Definition page_tick (p : Page) : Page :=
  if stepIndex (globals p) <? loaded (globals p) - 1 then page_advance p
  else page_updateAnimStatus (page_stopAnimation p).

(** [animateBtn] click: pausing ends in [updateAnimStatus()], starting
    writes ['Pause'] on the button. *)
Definition page_animate (slider : option Z) (p : Page) : Page :=
  if loaded (globals p) =? 0 then p
  else
    match animTimer (globals p) with
    | Some _ => page_updateAnimStatus (page_stopAnimation p)
    | None =>
        {| globals := animate slider (globals p); animStatus := animStatus p;
           animateBtn_textContent := Some "Pause";
           nPoints_textContent := nPoints_textContent p |}
    end.

Definition page_resetAnim (p : Page) : Page :=
  page_updateAnimStatus (with_globals (resetAnim (globals p)) (page_stopAnimation p)).

Definition page_loadWeights (value : string) (p : Page) : Page :=
  page_updateAnimStatus
    (with_globals (loadWeights value (globals p)) (page_stopAnimation p)).

Section PageController.

Variables Math_log Math_cos : float -> float.
Variable fuel : nat.
Variable rev : Revision.

(** [regenBtn] click: app.js stops the animation first; both revisions
    write the counter and end in [updateAnimStatus()], which part_000 does
    not reach when redrawing the line has thrown (that depends on the
    sequence and the cursor only, which the handler of part_000 leaves as
    they were). *)
Definition page_regenerate (p : Page) : outcome Page :=
  match regenerate Math_log Math_cos fuel rev (globals p) with
  | Returns s' =>
      let p1 := match rev with
                | AppJs => page_stopAnimation p
                | Part000 => p
                end in
      let p2 := {| globals := s'; animStatus := animStatus p1;
                   animateBtn_textContent := animateBtn_textContent p1;
                   nPoints_textContent :=
                     Some (count_text (Z.of_nat (List.length (DATA s')))) |} in
      Returns (if snd (redraw_line rev (globals p))
               then page_updateAnimStatus p2 else p2)
  | Throws error => Throws error
  | Diverges => Diverges
  end.

(** The page when [DOMContentLoaded] has been handled. *)
Definition page_start : outcome Page :=
  match start Math_log Math_cos fuel rev with
  | Returns s =>
      Returns {| globals := s; animStatus := None;
                 animateBtn_textContent := None;
                 nPoints_textContent :=
                   Some (count_text (Z.of_nat (List.length (DATA s)))) |}
  | Throws error => Throws error
  | Diverges => Diverges
  end.

Definition page_handle (ev : Event) (p : Page) : outcome Page :=
  match ev with
  | Regenerate => page_regenerate p
  | LoadWeights value => Returns (page_loadWeights value p)
  | Step => Returns (page_step p)
  | Animate slider => Returns (page_animate slider p)
  | Tick => match animTimer (globals p) with
            | Some _ => Returns (page_tick p)
            | None => Returns p
            end
  | ResetAnim => Returns (page_resetAnim p)
  end.

Fixpoint page_run (evs : list Event) (p : Page) : outcome Page :=
  match evs with
  | [] => Returns p
  | ev :: evs' =>
      match page_handle ev p with
      | Returns p' => page_run evs' p'
      | Throws error => Throws error
      | Diverges => Diverges
      end
  end.

End PageController.

(** ** More vocabulary *)

(** The point of the chart for a data point. *)
Definition plotted (p : Point) : Chart.XY := xy (x1 p) (x2 p).

(** No line feed in [s]. *)
Fixpoint one_line (s : string) : bool :=
  match s with
  | String c rest => negb (Ascii.eqb c JSString.LF) && one_line rest
  | EmptyString => true
  end.

Definition CRLF : string := String JSString.CR JSString.newline.

(** The rows of the lines [ls] of a text: the rows of its trimmed
    non-blank lines, less a header. *)
Definition rows_of_lines (ls : list string) : list Weights :=
  spec_rows
    (spec_skip_header
       (filter (fun l => negb (JSString.is_empty l)) (map JSString.trim ls))).

(** ** What the handlers keep *)

Section Consistent.

Variables Math_log Math_cos : float -> float.
Variable fuel : nat.
Variable rev : Revision.

(** The globals and the chart fit together: the cursor is in range, the
    line and its label are those of the cursor, the chart shows [DATA]
    within its padded bounds, the loaded weights are finite, a timer runs
    only over a loaded sequence, and [DATA] is the data set of the
    current seed. *)
Record consistent (s : App) : Prop := {
  cursor_ok : cursor_in_range s;
  line_ok : Chart.line (chart s) = line_for_cursor s (chart s);
  label_ok :
    Chart.line_label (chart s)
    = if stepIndex s <? 0 then "x2 = 0" else "Decision boundary";
  bounds_ok : bounds_of (DATA s) (chart s);
  blue_ok : Chart.blue (chart s) = series 0%float (DATA s);
  red_ok : Chart.red (chart s) = series 1%float (DATA s);
  steps_ok : Forall finite_weights (WEIGHT_STEPS s);
  timer_ok : animTimer s <> None -> 0 < loaded s;
  seed_ok : 0 <= currentSeed s < 233280;
  data_ok :
    generateData Math_log Math_cos fuel rev 200 (seed_used (currentSeed s))
    = Returns (DATA s)
}.

End Consistent.

Section PageConsistent.

Variables Math_log Math_cos : float -> float.
Variable fuel : nat.
Variable rev : Revision.

(** What the page shows fits the globals: a status that has been written
    is the status of the current state, the animate button reads "Pause"
    exactly while a timer is set, and the counter reads 200. *)
Record page_consistent (p : Page) : Prop := {
  globals_ok : consistent Math_log Math_cos fuel rev (globals p);
  status_ok :
    forall st, animStatus p = Some st -> st = updateAnimStatus (globals p);
  button_ok :
    animateBtn_textContent p = Some "Pause" <-> animTimer (globals p) <> None;
  counter_ok : nPoints_textContent p = Some "200"
}.

End PageConsistent.

(** ** Still more vocabulary *)

(** The Numbers that the first [k] calls of the generator return, from the
    counter [t]. *)
Fixpoint draws (k : nat) (t : Z) : list float :=
  match k with
  | O => []
  | S k' => let '(u, t') := Mulberry32.next t in u :: draws k' t'
  end.



(** ** Numbers as multiples of the smallest one *)

(** The value of the significand [m] at the exponent [e >= -1074], in
    units of 2^-1074, the smallest positive binary64 value. *)
Definition units (m : positive) (e : Z) : Z := Zpos m * 2 ^ (e + 1074).

(** The value of a finite Number in these units. *)
Definition sf_units (x : spec_float) : Z :=
  match x with
  | S754_finite s m e => cond_Zopp s (units m e)
  | _ => 0
  end.

(** Zero or finite. *)
Definition sf_finite (x : spec_float) : bool :=
  match x with
  | S754_zero _ | S754_finite _ _ _ => true
  | _ => false
  end.

(** Not NaN and not below zero: a zero, a positive finite Number or
    +Infinity. *)
Definition sf_nonneg (x : spec_float) : bool :=
  match x with
  | S754_zero _ => true
  | S754_finite s _ _ | S754_infinity s => negb s
  | S754_nan => false
  end.

(** The place of a Number that is not NaN in the order of the Numbers: its
    value in units for a finite one, and a bound no finite value reaches
    for the infinities. *)
Definition sf_rank (x : spec_float) : Z :=
  match x with
  | S754_infinity s => cond_Zopp s (2 ^ 2100)
  | _ => sf_units x
  end.

(** The point [p] lies within the axis bounds of the chart [c]. *)
Definition in_view (c : Chart.t) (p : Point) : bool :=
  ((Chart.x_min c <=? x1 p) && (x1 p <=? Chart.x_max c)
   && (Chart.y_min c <=? x2 p) && (x2 p <=? Chart.y_max c))%float.

(** * Properties *)

Import JSNumber.

Lemma ToUint32_range z : 0 <= ToUint32 z < two32.
Proof. unfold ToUint32, two32. apply Z.mod_pos_bound. lia. Qed.

Lemma ToUint32_ToInt32 z : ToUint32 (ToInt32 z) = ToUint32 z.
Proof.
  unfold ToUint32, ToInt32, two32.
  rewrite Zminus_mod_idemp_l. f_equal. lia.
Qed.

Lemma ToUint32_small z : 0 <= z < two32 -> ToUint32 z = z.
Proof. intros H. unfold ToUint32. apply Z.mod_small. exact H. Qed.

Lemma ToUint32_lxor a b :
  ToUint32 (Z.lxor a b) = Z.lxor (ToUint32 a) (ToUint32 b).
Proof.
  unfold ToUint32, two32. change 4294967296 with (2 ^ 32).
  rewrite <- !Z.land_ones by lia.
  apply Z.bits_inj'. intros n Hn.
  rewrite !Z.land_spec, !Z.lxor_spec, !Z.land_spec.
  destruct (Z.testbit a n), (Z.testbit b n), (Z.testbit (Z.ones 32) n); reflexivity.
Qed.

Lemma ToUint32_bxor a b :
  ToUint32 (bxor a b) = Z.lxor (ToUint32 a) (ToUint32 b).
Proof. unfold bxor. rewrite ToUint32_lxor, !ToUint32_ToInt32. reflexivity. Qed.

Lemma ushr_range a k : 0 <= k -> 0 <= ushr a k < two32.
Proof.
  intros Hk. unfold ushr. pose proof (ToUint32_range a) as H.
  rewrite Z.shiftr_div_pow2 by lia.
  assert (0 < 2 ^ k) by (apply Z.pow_pos_nonneg; lia).
  split.
  - apply Z.div_pos; lia.
  - apply Z.le_lt_trans with (ToUint32 a); [|lia].
    apply Z.div_le_upper_bound; [lia|]. nia.
Qed.

(** A right xor-shift of a 32-bit word is zero only at zero. *)
Lemma xorshift_zero a k :
  0 < k -> ToUint32 (bxor a (ushr a k)) = 0 -> ToUint32 a = 0.
Proof.
  intros Hk H. rewrite ToUint32_bxor in H.
  rewrite (ToUint32_small (ushr a k)) in H by (apply ushr_range; lia).
  apply Z.lxor_eq in H. unfold ushr in H.
  rewrite Z.shiftr_div_pow2 in H by lia.
  pose proof (ToUint32_range a) as R. unfold two32 in R.
  destruct (Z.eq_dec (ToUint32 a) 0) as [E|E]; [exact E|exfalso].
  assert (2 <= 2 ^ k).
  { change 2 with (2 ^ 1) at 1. apply Z.pow_le_mono_r; lia. }
  assert (ToUint32 a / 2 ^ k < ToUint32 a).
  { apply Z.div_lt_upper_bound; nia. }
  lia.
Qed.

Lemma odd_ToInt32 z : Z.odd (ToInt32 z) = Z.odd z.
Proof.
  unfold ToInt32, two32.
  rewrite Z.odd_sub, <- Z.bit0_odd.
  change 4294967296 with (2 ^ 32). rewrite Z.mod_pow2_bits_low by lia.
  rewrite Z.bit0_odd, Z.odd_add. cbn. destruct (Z.odd z); reflexivity.
Qed.

Lemma odd_bor a b : Z.odd a = true -> Z.odd (bor a b) = true.
Proof.
  intros H. unfold bor. rewrite <- Z.bit0_odd, Z.lor_spec, !Z.bit0_odd.
  rewrite odd_ToInt32, H. reflexivity.
Qed.

Lemma pow2_divide_odd (n : nat) : forall a b,
  Z.odd b = true -> (2 ^ Z.of_nat n | a * b) -> (2 ^ Z.of_nat n | a).
Proof.
  induction n as [|n IH]; intros a b Hb H.
  - apply Z.divide_1_l.
  - rewrite Nat2Z.inj_succ, Z.pow_succ_r in * by lia.
    assert (Ha : Z.odd a = false).
    { destruct H as [q Hq].
      assert (E : Z.odd (a * b) = false).
      { rewrite Hq, Z.mul_assoc, (Z.mul_comm _ 2), <- Z.mul_assoc, Z.odd_mul. reflexivity. }
      rewrite Z.odd_mul, Hb, andb_true_r in E. exact E. }
    rewrite <- Z.negb_even in Ha. apply negb_false_iff, Z.even_spec in Ha.
    destruct Ha as [a' ->].
    apply Z.mul_divide_mono_l. apply (IH a' b Hb).
    rewrite <- Z.mul_assoc in H.
    apply Z.mul_divide_cancel_l in H; [exact H|lia].
Qed.

(** A product with an odd factor is zero modulo 2^32 only if the other
    factor is. *)
Lemma imul_zero a b :
  Z.odd b = true -> ToUint32 (Math_imul a b) = 0 -> ToUint32 a = 0.
Proof.
  intros Hb H. unfold Math_imul in H. rewrite ToUint32_ToInt32 in H.
  rewrite <- (ToUint32_ToInt32 a).
  unfold ToUint32, two32 in *. change 4294967296 with (2 ^ Z.of_nat 32) in *.
  apply Z.mod_divide in H; [|lia]. apply Z.mod_divide; [lia|].
  apply pow2_divide_odd with (ToInt32 b); [|exact H].
  rewrite odd_ToInt32. exact Hb.
Qed.

Lemma roundNumber_small z : Z.abs z < 2 ^ 53 -> roundNumber z = z.
Proof.
  intros H. unfold roundNumber.
  destruct (Z.eq_dec z 0) as [->|Hz]; [reflexivity|].
  assert (Z.log2 (Z.abs z) < 53) by (apply Z.log2_lt_pow2; lia).
  destruct (Z.leb_spec (Z.log2 (Z.abs z) + 1) 53); [reflexivity|lia].
Qed.

Lemma ToInt32_range z : - 2147483648 <= ToInt32 z < 2147483648.
Proof.
  unfold ToInt32, two32.
  pose proof (Z.mod_pos_bound (z + 2147483648) 4294967296). lia.
Qed.

Lemma ushr_0 a : ushr a 0 = ToUint32 a.
Proof. unfold ushr. apply Z.shiftr_0_r. Qed.

Lemma add_int_int32 a b : add_int (ToInt32 a) (ToInt32 b) = ToInt32 a + ToInt32 b.
Proof.
  unfold add_int. apply roundNumber_small.
  pose proof (ToInt32_range a). pose proof (ToInt32_range b).
  change (2 ^ 53) with 9007199254740992. lia.
Qed.

Lemma ToUint32_add_cancel a b :
  ToUint32 a = ToUint32 (a + b) -> ToUint32 b = 0.
Proof.
  unfold ToUint32, two32. intros H.
  rewrite Zplus_mod in H.
  pose proof (Z.mod_pos_bound a 4294967296 ltac:(lia)).
  pose proof (Z.mod_pos_bound b 4294967296 ltac:(lia)).
  set (x := a mod 4294967296) in *. set (y := b mod 4294967296) in *.
  destruct (Z.ltb_spec (x + y) 4294967296).
  - rewrite Z.mod_small in H by lia. lia.
  - assert ((x + y) mod 4294967296 = x + y - 4294967296).
    { symmetry. apply Z.mod_unique with 1; lia. }
    lia.
Qed.

(** The second mixing round is zero only at zero. *)
Lemma round2_zero x y :
  let r := Math_imul x y in
  ToUint32 (bxor r (add_int r (Math_imul (bxor r (ushr r 7)) (bor 61 r)))) = 0 ->
  ToUint32 r = 0.
Proof.
  intros r H. rewrite ToUint32_bxor in H. apply Z.lxor_eq in H.
  apply (xorshift_zero r 7); [lia|].
  apply (imul_zero _ (bor 61 r)); [apply odd_bor; reflexivity|].
  apply (ToUint32_add_cancel r).
  rewrite H. f_equal. apply add_int_int32.
Qed.

(** The mixing function is zero only where the counter is a multiple of
    2^32. *)
Lemma mix_zero t : Mulberry32.mix t = 0 -> ToUint32 t = 0.
Proof.
  unfold Mulberry32.mix. rewrite ushr_0. intros H.
  apply xorshift_zero in H; [|lia].
  apply round2_zero in H.
  apply imul_zero in H; [|apply odd_bor; reflexivity].
  apply xorshift_zero in H; [|lia]. exact H.
Qed.

Lemma digits2_pos_iter_xO (m n : positive) :
  digits2_pos (Pos.iter xO m n) = (digits2_pos m + n)%positive.
Proof.
  induction n as [|n IH] using Pos.peano_ind.
  - cbn. lia.
  - rewrite Pos.iter_succ. cbn. rewrite IH. lia.
Qed.

Lemma Zpos_iter_xO (m n : positive) :
  Zpos (Pos.iter xO m n) = Zpos m * 2 ^ Zpos n.
Proof.
  induction n as [|n IH] using Pos.peano_ind.
  - cbn. lia.
  - rewrite Pos.iter_succ, Pos2Z.inj_succ, Z.pow_succ_r by lia.
    rewrite Pos2Z.inj_xO, IH. lia.
Qed.

Lemma fexp_eq z : fexp prec emax z = Z.max (z - 53) (-1074).
Proof. reflexivity. Qed.

(** A significand that already is canonical is rounded to itself. *)
Lemma binary_round_aux_canonical (s : bool) (m : positive) (e : Z) :
  canonical_mantissa prec emax m e = true -> e <= 971 ->
  binary_round_aux prec emax s (Zpos m) e loc_Exact = S754_finite s m e.
Proof.
  unfold canonical_mantissa. intros Hc He. apply Z.eqb_eq in Hc.
  unfold binary_round_aux, shr_fexp. cbn [Zdigits2 shr_record_of_loc].
  rewrite Hc, Z.sub_diag. cbn [shr shr_m loc_of_shr_record round_nearest_even].
  cbn [Zdigits2 shr_record_of_loc]. rewrite Hc, Z.sub_diag. cbn [shr shr_m].
  change (emax - prec) with 971.
  destruct (Z.leb_spec e 971); [reflexivity|lia].
Qed.

(** The Number of a positive integer of at most 52 bits. *)
Lemma binary_normalize_small (p : positive) :
  Zpos (digits2_pos p) < 53 ->
  exists m,
    binary_normalize prec emax (Zpos p) 0 false
      = S754_finite false m (Zpos (digits2_pos p) - 53)
    /\ digits2_pos m = 53%positive.
Proof.
  intros Hd. cbn [binary_normalize]. unfold binary_round, shl_align.
  rewrite Z.add_0_r, fexp_eq.
  replace (Z.max (Zpos (digits2_pos p) - 53) (-1074)) with (Zpos (digits2_pos p) - 53) by lia.
  rewrite Z.sub_0_r.
  destruct (Zpos (digits2_pos p) - 53) as [|d|d] eqn:E; try lia.
  exists (Pos.iter xO p d).
  assert (Hdig : digits2_pos (Pos.iter xO p d) = 53%positive).
  { rewrite digits2_pos_iter_xO. lia. }
  split; [|exact Hdig].
  apply binary_round_aux_canonical; [|lia].
  unfold canonical_mantissa. rewrite Hdig, fexp_eq. apply Z.eqb_eq. lia.
Qed.

Lemma div_eucl_exact a b : 0 < b -> Z.div_eucl (a * b) b = (a, 0).
Proof.
  intros Hb.
  pose proof (Z.div_mul a b ltac:(lia)) as Hq.
  pose proof (Z.mod_mul a b ltac:(lia)) as Hr.
  unfold Z.div, Z.modulo in Hq, Hr.
  destruct (Z.div_eucl (a * b) b) as [q r]. congruence.
Qed.

(** Dividing a 53-bit significand by 2^32 only moves the exponent. *)
Lemma SFdiv_two32 (m : positive) (e : Z) :
  digits2_pos m = 53%positive -> -1000 <= e <= 1000 ->
  SFdiv prec emax (S754_finite false m e) (S754_finite false 4503599627370496 (-20))
  = S754_finite false m (e - 32).
Proof.
  intros Hd He. unfold SFdiv, SFdiv_core_binary. cbn [Zdigits2 xorb].
  rewrite Hd. change (digits2_pos 4503599627370496) with 53%positive.
  rewrite fexp_eq.
  replace (Z.min (Z.max (53 + e - (53 + -20) - 53) (-1074)) (e - -20)) with (e - 33) by lia.
  replace (e - -20 - (e - 33)) with 53 by lia.
  cbv iota beta. rewrite Z.shiftl_mul_pow2 by lia.
  replace (Zpos m * 2 ^ 53) with (Zpos m~0 * 4503599627370496) by lia.
  rewrite div_eucl_exact by lia.
  change (new_location 4503599627370496 0) with loc_Exact.
  unfold binary_round_aux, shr_fexp. cbn [Zdigits2 digits2_pos shr_record_of_loc].
  rewrite Hd, fexp_eq.
  replace (Z.max (Zpos (Pos.succ 53) + (e - 33) - 53) (-1074) - (e - 33)) with 1 by lia.
  cbn [shr iter_pos shr_1 orb loc_of_shr_record shr_m round_nearest_even Zdigits2].
  rewrite Hd, fexp_eq.
  replace (Z.max (53 + (e - 33 + 1) - 53) (-1074) - (e - 33 + 1)) with 0 by lia.
  cbn [shr shr_m]. change (emax - prec) with 971.
  destruct (Z.leb_spec (e - 33 + 1) 971); [|lia].
  f_equal. lia.
Qed.

Lemma digits2_pos_bound (p : positive) (n : Z) :
  0 <= n -> Zpos p < 2 ^ n -> Zpos (digits2_pos p) <= n.
Proof.
  revert n. induction p as [p IH|p IH|]; intros n Hn H; cbn [digits2_pos].
  - destruct (Z.eq_dec n 0) as [->|]; [cbn in H; lia|].
    rewrite Pos2Z.inj_succ. specialize (IH (n - 1) ltac:(lia)).
    replace n with (Z.succ (n - 1)) in H by lia. rewrite Z.pow_succ_r in H by lia. lia.
  - destruct (Z.eq_dec n 0) as [->|]; [cbn in H; lia|].
    rewrite Pos2Z.inj_succ. specialize (IH (n - 1) ltac:(lia)).
    replace n with (Z.succ (n - 1)) in H by lia. rewrite Z.pow_succ_r in H by lia. lia.
  - destruct (Z.eq_dec n 0) as [->|]; [cbn in H; lia|lia].
Qed.

(** A positive 32-bit integer over 2^32 is a finite, nonzero Number. *)
Lemma unit_interval_spec (k : Z) :
  0 < k < two32 ->
  exists m e, Prim2SF (Mulberry32.unit_interval k) = S754_finite false m e.
Proof.
  intros Hk. unfold Mulberry32.unit_interval, of_uint32, two32 in *.
  rewrite FloatAxioms.div_spec, FloatAxioms.of_uint63_spec, Uint63.of_Z_spec.
  rewrite Z.mod_small by (change wB with 9223372036854775808; lia).
  destruct k as [|p|p]; try lia.
  assert (Hd : Zpos (digits2_pos p) <= 32).
  { apply digits2_pos_bound; [lia|]. change (2 ^ 32) with 4294967296. lia. }
  destruct (binary_normalize_small p ltac:(lia)) as (m & -> & Hm).
  change (Prim2SF 4294967296) with (S754_finite false 4503599627370496 (-20)).
  unfold SF64div. rewrite SFdiv_two32 by (try exact Hm; lia).
  eauto.
Qed.

Lemma unit_interval_nonzero (k : Z) :
  0 < k < two32 -> (Mulberry32.unit_interval k =? 0)%float = false.
Proof.
  intros Hk. destruct (unit_interval_spec k Hk) as (m & e & H).
  rewrite FloatAxioms.eqb_spec, H. reflexivity.
Qed.

Lemma roundNumber_near z :
  0 <= z < 2 ^ 84 -> z - 2 ^ 30 <= roundNumber z <= z + 2 ^ 30.
Proof.
  intros Hz. unfold roundNumber.
  destruct (Z.leb_spec (Z.log2 (Z.abs z) + 1) 53) as [|Hd]; [lia|].
  rewrite Z.abs_eq in * by lia.
  assert (z <> 0) by (intros ->; cbn in Hd; lia).
  rewrite Z.sgn_pos by lia.
  assert (Hl : Z.log2 z < 84) by (apply Z.log2_lt_pow2; lia).
  set (ulp := 2 ^ (Z.log2 z + 1 - 53)).
  assert (Hu : 0 < ulp <= 2 ^ 31).
  { split; [apply Z.pow_pos_nonneg; lia|apply Z.pow_le_mono_r; lia]. }
  pose proof (Z.div_mod z ulp ltac:(lia)) as E.
  pose proof (Z.mod_pos_bound z ulp ltac:(lia)) as R.
  change (2 ^ 31) with (2 * 2 ^ 30) in Hu.
  destruct (Z.compare_spec (2 * (z mod ulp)) ulp); [destruct (Z.even (z / ulp))| |]; nia.
Qed.

Lemma next_counter t :
  0 <= t -> t + two32 <= 2 ^ 84 ->
  t < snd (Mulberry32.next t) < t + two32.
Proof.
  intros Ht Hb. unfold Mulberry32.next, add_int, Mulberry32.increment, two32 in *.
  cbn [snd]. pose proof (roundNumber_near (t + 1831565813) ltac:(lia)) as H.
  change (2 ^ 30) with 1073741824 in H. lia.
Qed.

Lemma mix_range t : 0 <= Mulberry32.mix t < two32.
Proof. unfold Mulberry32.mix. apply ushr_range. lia. Qed.

Lemma fst_next t :
  fst (Mulberry32.next t) = Mulberry32.unit_interval (Mulberry32.mix (snd (Mulberry32.next t))).
Proof. reflexivity. Qed.

(** After a counter that is a multiple of 2^32, the next one is not. *)
Lemma next_not_zero_twice t :
  0 <= t -> t + two32 <= 2 ^ 84 -> ToUint32 t = 0 ->
  Mulberry32.mix (snd (Mulberry32.next t)) <> 0.
Proof.
  intros Ht Hb Hz Hm. apply mix_zero in Hm.
  pose proof (next_counter t Ht Hb) as H.
  unfold ToUint32, two32 in *.
  apply Z.mod_divide in Hz; [|lia]. apply Z.mod_divide in Hm; [|lia].
  destruct Hz as [a Ha], Hm as [b Hb']. lia.
Qed.

Lemma redraw_nonzero rounds u t :
  (u =? 0)%float = false -> redraw rounds u t = Returns (u, t).
Proof. intros H. destruct rounds; cbn; rewrite H; reflexivity. Qed.

(** A redraw loop that starts from 0 ends within two rounds, on a drawn
    Number. *)
Lemma redraw_ends rounds t :
  (2 <= rounds)%nat -> 0 <= t -> t + 2 * two32 <= 2 ^ 84 ->
  exists u t', redraw rounds 0%float t = Returns (u, t')
               /\ drawn u /\ t <= t' <= t + 2 * two32.
Proof.
  intros Hr Ht Hb. destruct rounds as [|[|rounds]]; try lia.
  pose proof (next_counter t Ht ltac:(unfold two32 in *; lia)) as H1.
  pose proof (mix_range (snd (Mulberry32.next t))) as R1.
  cbn [redraw]. change (0 =? 0)%float with true. cbv iota.
  unfold bind at 1, rng at 1.
  destruct (Mulberry32.next t) as [u1 t1] eqn:E1.
  assert (Eu1 : u1 = Mulberry32.unit_interval (Mulberry32.mix t1)).
  { pose proof (fst_next t) as F. rewrite E1 in F. exact F. }
  cbn [snd] in *.
  destruct (Z.eq_dec (Mulberry32.mix t1) 0) as [Z1|NZ1].
  - (* the first draw is 0: draw once more *)
    rewrite Eu1, Z1. change (Mulberry32.unit_interval 0 =? 0)%float with true. cbv iota.
    unfold bind, rng.
    pose proof (next_counter t1 ltac:(lia) ltac:(unfold two32 in *; lia)) as H2.
    pose proof (next_not_zero_twice t1 ltac:(lia) ltac:(unfold two32 in *; lia)
                  (mix_zero _ Z1)) as NZ2.
    pose proof (mix_range (snd (Mulberry32.next t1))) as R2.
    destruct (Mulberry32.next t1) as [u2 t2] eqn:E2.
    assert (Eu2 : u2 = Mulberry32.unit_interval (Mulberry32.mix t2)).
    { pose proof (fst_next t1) as F. rewrite E2 in F. exact F. }
    cbn [snd] in *.
    exists u2, t2. split; [|split].
    + apply redraw_nonzero. rewrite Eu2. apply unit_interval_nonzero. lia.
    + exists (Mulberry32.mix t2). split; [lia|exact Eu2].
    + unfold two32 in *. lia.
  - exists u1, t1. split; [|split].
    + assert (Hnz : (u1 =? 0)%float = false).
      { rewrite Eu1. apply unit_interval_nonzero. lia. }
      rewrite Hnz. reflexivity.
    + exists (Mulberry32.mix t1). split; [lia|exact Eu1].
    + unfold two32 in *. lia.
Qed.

Section Loops.

Variables Math_log Math_cos : float -> float.
Variable fuel : nat.
Hypothesis enough_fuel : (2 <= fuel)%nat.

Lemma randn_ends t :
  0 <= t -> t + 4 * two32 <= 2 ^ 84 ->
  exists u v t',
    randn Math_log Math_cos fuel t = Returns (box_muller Math_log Math_cos u v, t')
    /\ drawn u /\ drawn v /\ t <= t' <= t + 4 * two32.
Proof.
  intros Ht Hb. unfold randn.
  destruct (redraw_ends fuel t enough_fuel Ht ltac:(unfold two32 in *; lia))
    as (u & t1 & E1 & Du & B1).
  destruct (redraw_ends fuel t1 enough_fuel ltac:(lia) ltac:(unfold two32 in *; lia))
    as (v & t2 & E2 & Dv & B2).
  exists u, v, t2. unfold bind at 1. rewrite E1. unfold bind at 1. rewrite E2.
  repeat split; try assumption; unfold two32 in *; lia.
Qed.

Lemma generate_point_ends rev i n t :
  0 <= t -> t + 8 * two32 <= 2 ^ 84 ->
  exists p t',
    generate_point Math_log Math_cos fuel rev i n t = Returns (p, t')
    /\ sampled_point Math_log Math_cos rev n i p
    /\ t <= t' <= t + 8 * two32.
Proof.
  intros Ht Hb. unfold generate_point.
  destruct (randn_ends t Ht ltac:(unfold two32 in *; lia))
    as (u1 & v1 & t1 & E1 & Du1 & Dv1 & B1).
  destruct (randn_ends t1 ltac:(lia) ltac:(unfold two32 in *; lia))
    as (u2 & v2 & t2 & E2 & Du2 & Dv2 & B2).
  eexists _, t2. unfold bind at 1. rewrite E1. unfold bind at 1. rewrite E2.
  split; [reflexivity|]. split.
  - eexists _, _. split; [|split; [|reflexivity]].
    + exists u1, v1. auto.
    + exists u2, v2. auto.
  - unfold two32 in *. lia.
Qed.

Lemma generate_loop_ends rev n count : forall i data t,
  Z.of_nat (List.length data) + Z.of_nat count <= max_array_length ->
  0 <= t -> t + 8 * two32 * Z.of_nat count <= 2 ^ 84 ->
  exists pts t',
    generate_loop Math_log Math_cos fuel rev count i n data t
      = Returns (data ++ pts, t')
    /\ generated Math_log Math_cos rev n i pts
    /\ List.length pts = count.
Proof.
  induction count as [|count IH]; intros i data t Hlen Ht Hb.
  - exists [], t. rewrite app_nil_r. repeat split. constructor.
  - cbn [generate_loop].
    destruct (generate_point_ends rev i n t Ht ltac:(unfold two32 in *; lia))
      as (p & t1 & E1 & Sp & B1).
    unfold bind at 1. rewrite E1. unfold bind at 1, push.
    destruct (Z.ltb_spec (Z.of_nat (List.length data)) max_array_length); [|lia].
    destruct (IH (i + 1) (data ++ [p]) t1) as (pts & t2 & E2 & G & L).
    + rewrite length_app. cbn [List.length]. lia.
    + lia.
    + unfold two32 in *. lia.
    + exists (p :: pts), t2. rewrite E2, <- app_assoc. cbn [app].
      repeat split; [constructor; assumption|cbn; lia].
Qed.

Lemma mulberry32_range seed : 0 <= Mulberry32.mulberry32 seed < two32.
Proof. apply ushr_range. lia. Qed.

(** The generator returns for every size an array can have (and for a
    negative size, where the loop does not run). *)
Lemma generateData_returns rev n seed :
  n <= max_array_length ->
  exists data,
    generateData Math_log Math_cos fuel rev n seed = Returns data
    /\ generated Math_log Math_cos rev n 0 data
    /\ List.length data = Z.to_nat n.
Proof.
  intros Hn. unfold generateData.
  pose proof (mulberry32_range seed) as R.
  destruct (generate_loop_ends rev n (Z.to_nat n) 0 [] (Mulberry32.mulberry32 seed))
    as (pts & t' & E & G & L).
  - cbn [List.length]. unfold max_array_length in *. lia.
  - lia.
  - unfold max_array_length, two32 in *.
    change (2 ^ 84) with 19342813113834066795298816. lia.
  - rewrite E. exists pts. auto.
Qed.

End Loops.

(** ** What the generator returns, whenever it returns *)

Lemma unit_interval_zero : (Mulberry32.unit_interval 0 =? 0)%float = true.
Proof. reflexivity. Qed.

(** A redraw loop entered with 0 lets only a drawn Number through. *)
Lemma redraw_drawn rounds : forall u t u' t',
  (u =? 0)%float = true ->
  redraw rounds u t = Returns (u', t') -> drawn u'.
Proof.
  induction rounds as [|rounds IH]; intros u t u' t' Hu E; cbn [redraw] in E;
    rewrite Hu in E; [discriminate|].
  unfold bind, rng in E.
  destruct (Mulberry32.next t) as [u1 t1] eqn:N.
  destruct (u1 =? 0)%float eqn:Hu1; [exact (IH u1 t1 u' t' Hu1 E)|].
  rewrite redraw_nonzero in E by exact Hu1. injection E as <- <-.
  pose proof (fst_next t) as F. rewrite N in F. cbn [fst snd] in F.
  exists (Mulberry32.mix t1). split; [|exact F].
  pose proof (mix_range t1) as R.
  assert (Mulberry32.mix t1 <> 0); [|lia].
  intros Z0. rewrite Z0 in F. rewrite F, unit_interval_zero in Hu1. discriminate.
Qed.

Section Returned.

Variables Math_log Math_cos : float -> float.
Variable fuel : nat.

Lemma randn_drawn t z t' :
  randn Math_log Math_cos fuel t = Returns (z, t') ->
  exists u v, z = box_muller Math_log Math_cos u v /\ drawn u /\ drawn v.
Proof.
  unfold randn, bind. intros E.
  destruct (redraw fuel 0 t) as [[u t1]| |] eqn:E1; try discriminate.
  destruct (redraw fuel 0 t1) as [[v t2]| |] eqn:E2; try discriminate.
  injection E as <- <-. exists u, v. split; [reflexivity|].
  split; [exact (redraw_drawn fuel 0%float t u t1 eq_refl E1)
         |exact (redraw_drawn fuel 0%float t1 v t2 eq_refl E2)].
Qed.

Lemma generate_point_sampled rev i n t p t' :
  generate_point Math_log Math_cos fuel rev i n t = Returns (p, t') ->
  sampled_point Math_log Math_cos rev n i p.
Proof.
  unfold generate_point, bind. intros E.
  destruct (randn Math_log Math_cos fuel t) as [[z1 t1]| |] eqn:E1; try discriminate.
  destruct (randn Math_log Math_cos fuel t1) as [[z2 t2]| |] eqn:E2; try discriminate.
  injection E as <- <-.
  destruct (randn_drawn _ _ _ E1) as (u1 & v1 & -> & Du1 & Dv1).
  destruct (randn_drawn _ _ _ E2) as (u2 & v2 & -> & Du2 & Dv2).
  eexists _, _. split; [|split; [|reflexivity]].
  - exists u1, v1. auto.
  - exists u2, v2. auto.
Qed.

Lemma generate_loop_generated rev n count : forall i data t data' t',
  generate_loop Math_log Math_cos fuel rev count i n data t = Returns (data', t') ->
  exists pts,
    data' = data ++ pts
    /\ generated Math_log Math_cos rev n i pts
    /\ List.length pts = count.
Proof.
  induction count as [|count IH]; intros i data t data' t' E; cbn [generate_loop] in E.
  - injection E as <- <-. exists []. rewrite app_nil_r. repeat split. constructor.
  - unfold bind at 1 in E.
    destruct (generate_point Math_log Math_cos fuel rev i n t) as [[p t1]| |] eqn:E1;
      try discriminate.
    unfold bind at 1, push in E.
    destruct (Z.of_nat (List.length data) <? max_array_length); [|discriminate].
    destruct (IH _ _ _ _ _ E) as (pts & -> & G & L).
    exists (p :: pts). rewrite <- app_assoc. repeat split.
    + constructor; [exact (generate_point_sampled _ _ _ _ _ _ E1)|exact G].
    + cbn [List.length]. lia.
Qed.

(** Whatever the generator returns is a sequence of [n] points (none for a
    negative [n]) that the loop body builds for the indices 0, 1, ... *)
Lemma generateData_generated rev n seed data :
  generateData Math_log Math_cos fuel rev n seed = Returns data ->
  generated Math_log Math_cos rev n 0 data /\ List.length data = Z.to_nat n.
Proof.
  unfold generateData. intros E.
  destruct (generate_loop Math_log Math_cos fuel rev (Z.to_nat n) 0 n []
              (Mulberry32.mulberry32 seed)) as [[data' t']| |] eqn:E1; try discriminate.
  injection E as <-.
  destruct (generate_loop_generated _ _ _ _ _ _ _ _ E1) as (pts & -> & G & L).
  split; assumption.
Qed.

End Returned.

Lemma label_of_spec i n :
  label_of i n = if 2 * i <? n then 0%float else 1%float.
Proof.
  unfold label_of.
  destruct (Qle_bool (inject_Z n / 2) (inject_Z i)) eqn:E; cbn [negb].
  - apply Qle_bool_iff in E. unfold Qle, Qdiv, Qmult, Qinv, inject_Z in E. cbn in E.
    destruct (Z.ltb_spec (2 * i) n); [lia|reflexivity].
  - destruct (Z.ltb_spec (2 * i) n) as [|H]; [reflexivity|].
    assert (Qle_bool (inject_Z n / 2) (inject_Z i) = true); [|congruence].
    apply Qle_bool_iff. unfold Qle, Qdiv, Qmult, Qinv, inject_Z. cbn. lia.
Qed.


Section Labels.

Variables Math_log Math_cos : float -> float.

Lemma sampled_point_label rev n i p :
  sampled_point Math_log Math_cos rev n i p -> y p = label_of i n.
Proof. intros (v1 & v2 & _ & _ & ->). reflexivity. Qed.

(** The points built from index [i] on are label-0 points up to index
    ceil(n/2), and label-1 points from there. *)
Lemma generated_split rev n i pts :
  generated Math_log Math_cos rev n i pts ->
  exists zeros ones,
    pts = zeros ++ ones
    /\ Forall (has_label 0%float) zeros
    /\ Forall (has_label 1%float) ones
    /\ List.length zeros
       = Z.to_nat (Z.min (i + Z.of_nat (List.length pts)) ((n + 1) / 2) - i).
Proof.
  induction 1 as [i|i p pts Hp _ (zeros & ones & -> & Hz & Ho & Hlen)].
  - exists [], []. repeat split; try constructor. cbn. lia.
  - apply sampled_point_label in Hp. rewrite label_of_spec in Hp.
    rewrite length_app in Hlen. cbn [List.length]. rewrite length_app.
    revert Hp. destruct (Z.ltb_spec (2 * i) n) as [Hi|Hi]; intros Hp.
    + exists (p :: zeros), ones. repeat split; try assumption.
      * constructor; [exact Hp|assumption].
      * cbn [List.length]. rewrite Hlen.
        Z.to_euclidean_division_equations. lia.
    + assert (zeros = []) as ->.
      { apply length_zero_iff_nil. rewrite Hlen.
        Z.to_euclidean_division_equations. lia. }
      exists [], (p :: ones). repeat split; try assumption.
      * constructor; [exact Hp|assumption].
      * cbn [List.length]. Z.to_euclidean_division_equations. lia.
Qed.

End Labels.

Lemma count_label_app l a b :
  count_label l (a ++ b) = (count_label l a + count_label l b)%nat.
Proof. unfold count_label. rewrite filter_app, length_app. reflexivity. Qed.

Lemma count_label_all l data :
  (l =? l)%float = true -> Forall (has_label l) data ->
  count_label l data = List.length data.
Proof.
  intros Hl H. induction H as [|p data Hp _ IH]; [reflexivity|].
  unfold count_label in *. cbn [filter]. rewrite Hp, Hl. cbn [List.length].
  rewrite IH. reflexivity.
Qed.

Lemma count_label_none l l' data :
  (l' =? l)%float = false -> Forall (has_label l') data ->
  count_label l data = 0%nat.
Proof.
  intros Hl H. induction H as [|p data Hp _ IH]; [reflexivity|].
  unfold count_label in *. cbn [filter]. rewrite Hp, Hl. exact IH.
Qed.

Section Labelling.

Variables Math_log Math_cos : float -> float.
Variable fuel : nat.

(** What the generator returns for a size n >= 0, whenever it returns: its
    label-0 points, ceil(n/2) of them, then its label-1 points, floor(n/2)
    of them. *)
Lemma generateData_split rev n seed data :
  0 <= n ->
  generateData Math_log Math_cos fuel rev n seed = Returns data ->
  exists zeros ones,
    data = zeros ++ ones
    /\ Forall (has_label 0%float) zeros
    /\ Forall (has_label 1%float) ones
    /\ Z.of_nat (List.length zeros) = (n + 1) / 2
    /\ Z.of_nat (List.length ones) = n / 2.
Proof.
  intros Hn E.
  destruct (generateData_generated _ _ _ _ _ _ _ E) as (G & L).
  destruct (generated_split _ _ _ _ _ _ G) as (zeros & ones & -> & Hz & Ho & Hlen).
  exists zeros, ones. rewrite length_app in *.
  repeat split; try assumption.
  - rewrite Hlen. Z.to_euclidean_division_equations. lia.
  - Z.to_euclidean_division_equations. lia.
Qed.

End Labelling.

Lemma ltb_leb (a b : float) : (a <? b)%float = true -> (a <=? b)%float = true.
Proof.
  rewrite FloatAxioms.ltb_spec, FloatAxioms.leb_spec. unfold SFltb, SFleb.
  destruct (SFcompare (Prim2SF a) (Prim2SF b)) as [[| |]|]; congruence.
Qed.

(** [Math.min(10, Math.max(0, v))] lies in [0, 10] unless [v] is NaN. *)
Lemma clamp_range (v : float) :
  PrimFloat.is_nan v = false ->
  (0 <=? clamp AppJs v)%float = true /\ (clamp AppJs v <=? 10)%float = true.
Proof.
  intros Hnan. unfold clamp, Math_min, Math_max, Math_min_of, Math_max_of.
  cbn [fold_left].
  change (max_step neg_infinity 0) with 0%float.
  change (min_step infinity 10) with 10%float.
  unfold max_step. change (PrimFloat.is_nan 0) with false. rewrite Hnan.
  change (is_neg_zero 0) with false. rewrite andb_false_r. cbn [orb].
  destruct (0 <? v)%float eqn:E0.
  - unfold min_step. change (PrimFloat.is_nan 10) with false. rewrite Hnan.
    change (is_pos_zero 10) with false. rewrite andb_false_r. cbn [orb].
    destruct (v <? 10)%float eqn:E1.
    + split; apply ltb_leb; assumption.
    + split; reflexivity.
  - split; reflexivity.
Qed.

(** A NaN is not brought into the box: [Math.max] and [Math.min] hand it
    on. *)
Lemma clamp_nan (v : float) :
  PrimFloat.is_nan v = true -> PrimFloat.is_nan (clamp AppJs v) = true.
Proof.
  intros Hnan. unfold clamp, Math_min, Math_max, Math_min_of, Math_max_of.
  cbn [fold_left].
  change (max_step neg_infinity 0) with 0%float.
  change (min_step infinity 10) with 10%float.
  unfold max_step at 1. rewrite Hnan, orb_true_r.
  unfold min_step. reflexivity.
Qed.

Lemma SFcompare_refl (x : spec_float) :
  x <> S754_nan -> SFcompare x x = Some Eq.
Proof.
  destruct x as [s|s| |s m e]; cbn; try congruence; intros _.
  - destruct s; reflexivity.
  - rewrite Z.compare_refl, Pos.compare_cont_refl. destruct s; reflexivity.
Qed.

Lemma is_nan_spec (x : float) :
  PrimFloat.is_nan x = false <-> Prim2SF x <> S754_nan.
Proof.
  unfold PrimFloat.is_nan. rewrite FloatAxioms.eqb_spec. unfold SFeqb. split.
  - intros H E. rewrite E in H. discriminate.
  - intros H. rewrite SFcompare_refl by exact H. reflexivity.
Qed.

Lemma iter_pos_invariant {A : Type} (P : A -> Prop) (f : A -> A) :
  (forall x, P x -> P (f x)) ->
  forall p x, P x -> P (iter_pos f p x).
Proof.
  intros Hf. induction p as [p IH|p IH|]; intros x Hx; cbn; auto.
Qed.

Lemma shr_1_nonneg mrs : 0 <= shr_m mrs -> 0 <= shr_m (shr_1 mrs).
Proof.
  destruct mrs as [m r s]. cbn [shr_m]. intros H.
  destruct m as [|[p|p|]|p]; cbn; lia.
Qed.

Lemma shr_fexp_nonneg m e l :
  0 <= m -> 0 <= shr_m (fst (shr_fexp prec emax m e l)).
Proof.
  intros Hm. unfold shr_fexp, shr.
  assert (H0 : 0 <= shr_m (shr_record_of_loc m l)) by (destruct l as [|[]]; exact Hm).
  destruct (fexp prec emax (Zdigits2 m + e) - e); cbn [fst]; try exact H0.
  apply (iter_pos_invariant (fun r => 0 <= shr_m r)); [apply shr_1_nonneg|exact H0].
Qed.

Lemma round_nearest_even_nonneg m l : 0 <= m -> 0 <= round_nearest_even m l.
Proof. intros H. destruct l as [|[]]; cbn; try lia. destruct (Z.even m); lia. Qed.

Lemma binary_round_aux_not_nan s m e l :
  0 <= m -> binary_round_aux prec emax s m e l <> S754_nan.
Proof.
  intros Hm. unfold binary_round_aux.
  pose proof (shr_fexp_nonneg m e l Hm) as H1.
  destruct (shr_fexp prec emax m e l) as [mrs' e']. cbn [fst] in H1.
  pose proof (shr_fexp_nonneg _ e' loc_Exact
                (round_nearest_even_nonneg _ (loc_of_shr_record mrs') H1)) as H2.
  destruct (shr_fexp prec emax _ e' loc_Exact) as [mrs'' e'']. cbn [fst] in H2.
  destruct (shr_m mrs''); try lia; try discriminate.
  destruct (e'' <=? emax - prec); discriminate.
Qed.

Lemma SFmul_not_nan sa ma ea z :
  z <> S754_nan -> SFmul prec emax (S754_finite sa ma ea) z <> S754_nan.
Proof.
  intros Hz. destruct z as [s|s| |s m e]; cbn [SFmul]; try discriminate; try congruence.
  apply binary_round_aux_not_nan. lia.
Qed.

Lemma SFadd_not_nan sa ma ea z :
  z <> S754_nan -> SFadd prec emax (S754_finite sa ma ea) z <> S754_nan.
Proof.
  intros Hz. destruct z as [s|s| |s m e]; cbn [SFadd]; try discriminate; try congruence.
  unfold binary_normalize.
  match goal with |- context [match ?z with Z0 => _ | Zpos _ => _ | Zneg _ => _ end] =>
    destruct z end; try discriminate;
  unfold binary_round;
  match goal with |- context [shl_align ?a ?b ?c] => destruct (shl_align a b c) end;
  apply binary_round_aux_not_nan; lia.
Qed.

(** A finite nonzero mean plus a finite nonzero spread times a value that
    is not NaN is not NaN. *)
Lemma affine_not_nan (mean spread z : float) :
  (exists s m e, Prim2SF mean = S754_finite s m e) ->
  (exists s m e, Prim2SF spread = S754_finite s m e) ->
  PrimFloat.is_nan z = false ->
  PrimFloat.is_nan (mean + spread * z)%float = false.
Proof.
  intros (s1 & m1 & e1 & E1) (s2 & m2 & e2 & E2) Hz.
  apply is_nan_spec. apply is_nan_spec in Hz.
  rewrite FloatAxioms.add_spec, FloatAxioms.mul_spec, E1, E2.
  apply SFadd_not_nan, SFmul_not_nan, Hz.
Qed.

(** ** The generator: the claims *)

(** C4, as amended.  For every size n >= 0 and every seed, what the
    generator returns is n points: first ceil(n/2) points with label 0,
    then floor(n/2) points with label 1; and it does return for every size
    up to the largest array length. *)
Theorem generateData_labels (Math_log Math_cos : float -> float) (fuel : nat)
    (rev : Revision) (n seed : Z) :
  0 <= n ->
  (forall data,
     generateData Math_log Math_cos fuel rev n seed = Returns data ->
     exists zeros ones,
       data = zeros ++ ones
       /\ Forall (has_label 0%float) zeros
       /\ Forall (has_label 1%float) ones
       /\ Z.of_nat (List.length zeros) = (n + 1) / 2
       /\ Z.of_nat (List.length ones) = n / 2
       /\ Z.of_nat (count_label 0%float data) = (n + 1) / 2
       /\ Z.of_nat (count_label 1%float data) = n / 2)
  /\ ((2 <= fuel)%nat -> n <= max_array_length ->
      exists data, generateData Math_log Math_cos fuel rev n seed = Returns data).
Proof.
  intros Hn. split.
  - intros data E.
    destruct (generateData_split Math_log Math_cos fuel rev n seed data Hn E)
      as (zeros & ones & -> & Hz & Ho & Lz & Lo).
    exists zeros, ones. repeat split; try assumption.
    + rewrite count_label_app, (count_label_all 0%float zeros eq_refl Hz),
        (count_label_none 0%float 1%float ones eq_refl Ho). lia.
    + rewrite count_label_app, (count_label_none 1%float 0%float zeros eq_refl Hz),
        (count_label_all 1%float ones eq_refl Ho). lia.
  - intros Hf Hmax.
    destruct (generateData_returns Math_log Math_cos fuel Hf rev n seed Hmax)
      as (data & E & _).
    exists data. exact E.
Qed.

Lemma generateData_labels_witness :
  exists zeros ones,
    generateData (fun _ => (-1)%float) (fun _ => 1%float) 2 AppJs 5 42
      = Returns (zeros ++ ones)
    /\ Forall (has_label 0%float) zeros
    /\ Forall (has_label 1%float) ones
    /\ Z.of_nat (List.length zeros) = (5 + 1) / 2
    /\ Z.of_nat (List.length ones) = 5 / 2
    /\ Z.of_nat (count_label 0%float (zeros ++ ones)) = (5 + 1) / 2
    /\ Z.of_nat (count_label 1%float (zeros ++ ones)) = 5 / 2.
Proof.
  destruct (generateData_labels (fun _ => (-1)%float) (fun _ => 1%float) 2 AppJs 5 42)
    as [Hsplit Hreturns]; [lia|].
  destruct Hreturns as (data & E); [lia|unfold max_array_length; lia|].
  destruct (Hsplit data E) as (zeros & ones & -> & H).
  exists zeros, ones. split; [exact E|exact H].
Defined.

(** C4 as stated fails for odd sizes: whatever Math.log and Math.cos are,
    generate(3, 42) does not have floor(3/2) = 1 points with label 0 (it
    has two). *)
Lemma generateData_odd_size :
  ~ (exists Math_log Math_cos data,
        generateData Math_log Math_cos 2 AppJs 3 42 = Returns data
        /\ Z.of_nat (count_label 0%float data) = 3 / 2).
Proof.
  intros (ml & mc & data & E & C).
  destruct (generateData_split ml mc 2 AppJs 3 42 data ltac:(lia) E)
    as (zeros & ones & -> & Hz & Ho & Lz & Lo).
  rewrite count_label_app, (count_label_all 0%float zeros eq_refl Hz),
    (count_label_none 0%float 1%float ones eq_refl Ho) in C.
  change ((3 + 1) / 2) with 2 in Lz. change (3 / 2) with 1 in C. lia.
Qed.

(** C6, as amended.  The generator does not validate its size: for n <= 0,
    negative sizes included, it returns the empty data set. *)
Theorem generateData_not_positive (Math_log Math_cos : float -> float)
    (fuel : nat) (rev : Revision) (n seed : Z) :
  n <= 0 -> generateData Math_log Math_cos fuel rev n seed = Returns [].
Proof.
  intros Hn. unfold generateData.
  replace (Z.to_nat n) with 0%nat by lia. reflexivity.
Qed.

Lemma generateData_not_positive_witness :
  generateData (fun _ => (-1)%float) (fun _ => 1%float) 2 AppJs (-5) 42
  = Returns [].
Proof. apply generateData_not_positive. lia. Defined.

(** C6 as stated fails: no choice of Math.log, Math.cos, revision or seed
    makes generate(-5, seed) end in an error. *)
Lemma generateData_negative_size :
  ~ (exists Math_log Math_cos fuel rev seed error,
        generateData Math_log Math_cos fuel rev (-5) seed = Throws error).
Proof. intros (ml & mc & fuel & rev & seed & error & E). discriminate E. Qed.

Lemma sampled_not_nan Math_log Math_cos mean v :
  (forall u1 u2, drawn u1 -> drawn u2 ->
     PrimFloat.is_nan (box_muller Math_log Math_cos u1 u2) = false) ->
  (exists s m e, Prim2SF mean = S754_finite s m e) ->
  sampled Math_log Math_cos AppJs mean v ->
  PrimFloat.is_nan v = false.
Proof.
  intros Hbm Hmean (u1 & u2 & D1 & D2 & ->).
  apply affine_not_nan; [exact Hmean| |apply Hbm; assumption].
  exists false, 4953959590107546%positive, (-52). reflexivity.
Qed.

Lemma means_finite label :
  (exists s m e, Prim2SF (fst (means AppJs label)) = S754_finite s m e)
  /\ (exists s m e, Prim2SF (snd (means AppJs label)) = S754_finite s m e).
Proof.
  unfold means. destruct (label =? 0)%float; split; cbn [fst snd];
    eexists _, _, _; vm_compute; reflexivity.
Qed.

Lemma generated_in_box Math_log Math_cos n i pts :
  (forall u1 u2, drawn u1 -> drawn u2 ->
     PrimFloat.is_nan (box_muller Math_log Math_cos u1 u2) = false) ->
  generated Math_log Math_cos AppJs n i pts ->
  Forall (fun p => in_box (x1 p) /\ in_box (x2 p)) pts.
Proof.
  intros Hbm G. induction G as [i|i p pts (v1 & v2 & S1 & S2 & ->) _ IH];
    constructor; [|exact IH].
  destruct (means_finite (label_of i n)) as [F1 F2].
  cbn [x1 x2]. split; apply clamp_range.
  - apply (sampled_not_nan _ _ _ _ Hbm F1 S1).
  - apply (sampled_not_nan _ _ _ _ Hbm F2 S2).
Qed.

(** C10.  In app.js every coordinate of every point that the generator
    returns lies in [0, 10], for every size and seed, provided the
    Box-Muller value of two drawn Numbers is never NaN (which is a matter of
    the engine's Math.log and Math.cos); the generator does return for
    every size up to the largest array length; part_000 does not clamp. *)
Theorem generateData_clamped (Math_log Math_cos : float -> float) (fuel : nat)
    (n seed : Z) :
  (forall u1 u2, drawn u1 -> drawn u2 ->
     PrimFloat.is_nan (box_muller Math_log Math_cos u1 u2) = false) ->
  (forall data,
     generateData Math_log Math_cos fuel AppJs n seed = Returns data ->
     Forall (fun p => in_box (x1 p) /\ in_box (x2 p)) data)
  /\ ((2 <= fuel)%nat -> n <= max_array_length ->
      exists data, generateData Math_log Math_cos fuel AppJs n seed = Returns data)
  /\ (forall v, clamp Part000 v = v).
Proof.
  intros Hbm. split; [|split; [|reflexivity]].
  - intros data E.
    destruct (generateData_generated _ _ _ _ _ _ _ E) as (G & _).
    apply (generated_in_box _ _ _ _ _ Hbm G).
  - intros Hf Hn.
    destruct (generateData_returns Math_log Math_cos fuel Hf AppJs n seed Hn)
      as (data & E & _).
    exists data. exact E.
Qed.

Lemma generateData_clamped_witness :
  exists data,
    generateData (fun _ => (-1)%float) (fun _ => 1%float) 2 AppJs 200 123
      = Returns data
    /\ Forall (fun p => in_box (x1 p) /\ in_box (x2 p)) data.
Proof.
  destruct (generateData_clamped (fun _ => (-1)%float) (fun _ => 1%float) 2 200 123)
    as (Hbox & Hreturns & _); [intros u1 u2 _ _; reflexivity|].
  destruct Hreturns as (data & E); [lia|unfold max_array_length; lia|].
  exists data. split; [exact E|exact (Hbox data E)].
Defined.

(** ** Boundary geometry *)

Lemma decision_line_finite w xMin xMax yMin yMax :
  finite_weights w ->
  decision_line w xMin xMax yMin yMax =
    if (1e-12 <? JSNumber.Math_abs (w2 w))%float
    then sloped_segment w xMin xMax
    else if (1e-12 <? JSNumber.Math_abs (w1 w))%float
         then vertical_segment w yMin yMax
         else [].
Proof.
  destruct w as [a b c]; unfold finite_weights, decision_line; cbn [w0 w1 w2].
  intros ->. reflexivity.
Qed.

(** C2.  For finite weights the line that [setDecisionLineFromWeights]
    stores is the sloped segment when |w2| > 1e-12, else the vertical
    segment at -w0/w1 when |w1| > 1e-12, else empty; the test on w2 comes
    first, so |w2| > 1e-12 gives the sloped segment whatever w1 is.  The
    three examples of the specification follow: the first yields the end
    points (0,-0) and (10,-0), which [===] does not tell from (0,0) and
    (10,0). *)
Theorem boundary_line_cases (w : Weights) (c : Chart.t) :
  finite_weights w ->
  let line := Chart.line (setDecisionLineFromWeights w c) in
  line = (if (1e-12 <? JSNumber.Math_abs (w2 w))%float
          then sloped_segment w (Chart.x_min c) (Chart.x_max c)
          else if (1e-12 <? JSNumber.Math_abs (w1 w))%float
               then vertical_segment w (Chart.y_min c) (Chart.y_max c)
               else [])
  /\ ((1e-12 <? JSNumber.Math_abs (w2 w))%float = true ->
      line = sloped_segment w (Chart.x_min c) (Chart.x_max c))
  /\ decision_line {| w0 := 0; w1 := 0; w2 := 1 |} 0 10 0 10
       = [xy 0 (-0); xy 10 (-0)]
  /\ same_segment
       (decision_line {| w0 := 0; w1 := 0; w2 := 1 |} 0 10 0 10)
       [xy 0 0; xy 10 0] = true
  /\ decision_line {| w0 := -2; w1 := 1; w2 := 0 |} 0 10 0 10
       = [xy 2 0; xy 2 10]
  /\ decision_line {| w0 := 0; w1 := 0; w2 := 0 |} 0 10 0 10 = [].
Proof.
  intros Hfin line.
  assert (Hline : line = decision_line w (Chart.x_min c) (Chart.x_max c)
                           (Chart.y_min c) (Chart.y_max c)) by reflexivity.
  rewrite (decision_line_finite _ _ _ _ _ Hfin) in Hline.
  split; [exact Hline|].
  split; [intros Hw2; rewrite Hline, Hw2; reflexivity|].
  repeat split; vm_compute; reflexivity.
Qed.

Lemma boundary_line_cases_witness :
  Chart.line
    (setDecisionLineFromWeights {| w0 := 1; w1 := 2; w2 := 4 |}
       (chart example_page))
  = sloped_segment {| w0 := 1; w1 := 2; w2 := 4 |}
      (Chart.x_min (chart example_page)) (Chart.x_max (chart example_page)).
Proof.
  apply (boundary_line_cases {| w0 := 1; w1 := 2; w2 := 4 |} (chart example_page)).
  - vm_compute. reflexivity.
  - vm_compute. reflexivity.
Defined.

(** ** The controller *)

Lemma weights_at_in_range s i :
  0 <= i < loaded s -> exists w, weights_at s i = Some w.
Proof.
  intros H. unfold weights_at, loaded in *.
  destruct (Z.ltb_spec i 0); [lia|].
  destruct (nth_error (WEIGHT_STEPS s) (Z.to_nat i)) as [w|] eqn:E; [eauto|].
  apply nth_error_None in E. lia.
Qed.

Lemma weights_at_baseline s : stepIndex s = -1 -> weights_at s (stepIndex s) = None.
Proof. intros ->. reflexivity. Qed.

(** What [advance] does when the next index is a loaded step. *)
Lemma advance_in_range s w :
  weights_at s (stepIndex s + 1) = Some w ->
  advance s =
    {| DATA := DATA s;
       chart := Chart.update (setDecisionLineFromWeights w (chart s));
       currentSeed := currentSeed s; WEIGHT_STEPS := WEIGHT_STEPS s;
       stepIndex := stepIndex s + 1; animTimer := animTimer s |}.
Proof.
  intros H. unfold advance.
  change (weights_at (with_stepIndex (stepIndex s + 1) s)
            (stepIndex (with_stepIndex (stepIndex s + 1) s)))
    with (weights_at s (stepIndex s + 1)).
  rewrite H. reflexivity.
Qed.

Lemma step_below_last s :
  0 < loaded s -> -1 <= stepIndex s < loaded s - 1 ->
  exists w, weights_at s (stepIndex s + 1) = Some w
    /\ step s =
         {| DATA := DATA s;
            chart := Chart.update (setDecisionLineFromWeights w (chart s));
            currentSeed := currentSeed s; WEIGHT_STEPS := WEIGHT_STEPS s;
            stepIndex := stepIndex s + 1; animTimer := animTimer s |}.
Proof.
  intros Hl Hi.
  destruct (weights_at_in_range s (stepIndex s + 1) ltac:(lia)) as [w Hw].
  exists w. split; [exact Hw|]. unfold step.
  destruct (Z.eqb_spec (loaded s) 0); [lia|].
  destruct (Z.ltb_spec (stepIndex s) (loaded s - 1)); [|lia].
  apply advance_in_range, Hw.
Qed.

Lemma step_at_last s : loaded s - 1 <= stepIndex s -> step s = s.
Proof.
  intros H. unfold step.
  destruct (loaded s =? 0); [reflexivity|].
  destruct (Z.ltb_spec (stepIndex s) (loaded s - 1)); [lia|reflexivity].
Qed.

Lemma loadWeights_fields value s :
  stepIndex (loadWeights value s) = -1
  /\ WEIGHT_STEPS (loadWeights value s) = parseWeightsCsv (JSString.trim value)
  /\ animTimer (loadWeights value s) = None
  /\ Chart.line (chart (loadWeights value s)) = baseline (chart s).
Proof. repeat split. Qed.

Lemma resetAnim_fields s :
  stepIndex (resetAnim s) = -1
  /\ WEIGHT_STEPS (resetAnim s) = WEIGHT_STEPS s
  /\ animTimer (resetAnim s) = None
  /\ Chart.line (chart (resetAnim s)) = baseline (chart s).
Proof. repeat split. Qed.


Lemma line_for_cursor_bounds s c c' :
  same_bounds c c' -> line_for_cursor s c' = line_for_cursor s c.
Proof.
  intros (H1 & H2 & H3 & H4). unfold line_for_cursor, baseline.
  rewrite H1, H2, H3, H4. reflexivity.
Qed.

(** A step below the last index, field by field. *)
Lemma step_below_last_fields s :
  0 < loaded s -> -1 <= stepIndex s < loaded s - 1 ->
  stepIndex (step s) = stepIndex s + 1
  /\ WEIGHT_STEPS (step s) = WEIGHT_STEPS s
  /\ same_bounds (chart s) (chart (step s))
  /\ Chart.line (chart (step s)) = line_for_cursor (step s) (chart s).
Proof.
  intros Hl Hi. destruct (step_below_last s Hl Hi) as (w & Hw & ->).
  cbn [stepIndex WEIGHT_STEPS chart]. repeat split.
  unfold line_for_cursor. cbn [stepIndex].
  change (weights_at _ (stepIndex s + 1)) with (weights_at s (stepIndex s + 1)).
  rewrite Hw. reflexivity.
Qed.

Lemma loaded_step s : WEIGHT_STEPS (step s) = WEIGHT_STEPS s.
Proof.
  unfold step. destruct (loaded s =? 0); [reflexivity|].
  destruct (stepIndex s <? loaded s - 1); [|reflexivity].
  unfold advance. destruct (weights_at _ _); reflexivity.
Qed.

Lemma three_steps_from_baseline s :
  loaded s = 3 -> stepIndex s = -1 ->
  let s1 := step s in
  let s2 := step s1 in
  let s3 := step s2 in
  stepIndex s1 = 0 /\ stepIndex s2 = 1 /\ stepIndex s3 = 2 /\ step s3 = s3
  /\ Chart.line (chart s1) = line_for_cursor s1 (chart s)
  /\ Chart.line (chart s2) = line_for_cursor s2 (chart s)
  /\ Chart.line (chart s3) = line_for_cursor s3 (chart s).
Proof.
  intros Hl Hi s1 s2 s3.
  assert (L : forall a, WEIGHT_STEPS a = WEIGHT_STEPS s -> loaded a = 3).
  { intros a Ha. unfold loaded in *. rewrite Ha. exact Hl. }
  destruct (step_below_last_fields s ltac:(lia) ltac:(lia)) as (I1 & W1 & B1 & L1).
  fold s1 in I1, W1, B1, L1. pose proof (L s1 W1) as Hl1.
  destruct (step_below_last_fields s1 ltac:(lia) ltac:(lia)) as (I2 & W2 & B2 & L2).
  fold s2 in I2, W2, B2, L2. rewrite W1 in W2. pose proof (L s2 W2) as Hl2.
  destruct (step_below_last_fields s2 ltac:(lia) ltac:(lia)) as (I3 & W3 & B3 & L3).
  fold s3 in I3, W3, B3, L3. rewrite W2 in W3. pose proof (L s3 W3) as Hl3.
  rewrite (line_for_cursor_bounds s2 _ _ B1) in L2.
  rewrite (line_for_cursor_bounds s3 _ _ B2), (line_for_cursor_bounds s3 _ _ B1) in L3.
  repeat split; try assumption; try lia.
  apply step_at_last. lia.
Qed.

(** *** The cursor stays in range *)

Lemma cursor_in_range_advance s :
  stepIndex s < loaded s - 1 -> -1 <= stepIndex s -> cursor_in_range (advance s).
Proof.
  intros H H'. unfold cursor_in_range, advance.
  destruct (weights_at _ _); unfold loaded in *; cbn; lia.
Qed.

Lemma cursor_in_range_step s : cursor_in_range s -> cursor_in_range (step s).
Proof.
  intros H. unfold step.
  destruct (loaded s =? 0); [exact H|].
  destruct (Z.ltb_spec (stepIndex s) (loaded s - 1)); [|exact H].
  apply cursor_in_range_advance; [assumption|apply H].
Qed.

Lemma cursor_in_range_tick s : cursor_in_range s -> cursor_in_range (tick s).
Proof.
  intros H. unfold tick.
  destruct (Z.ltb_spec (stepIndex s) (loaded s - 1)); [|exact H].
  apply cursor_in_range_advance; [assumption|apply H].
Qed.

Lemma cursor_in_range_animate slider s :
  cursor_in_range s -> cursor_in_range (animate slider s).
Proof.
  intros H. unfold animate.
  destruct (loaded s =? 0); [exact H|]. destruct (animTimer s); exact H.
Qed.

Lemma cursor_in_range_baseline s : stepIndex s = -1 -> cursor_in_range s.
Proof. intros H. unfold cursor_in_range, loaded. rewrite H. lia. Qed.

Lemma cursor_in_range_resetAnim s : cursor_in_range (resetAnim s).
Proof. apply cursor_in_range_baseline. reflexivity. Qed.

Lemma cursor_in_range_loadWeights value s : cursor_in_range (loadWeights value s).
Proof. apply cursor_in_range_baseline. reflexivity. Qed.

Lemma redraw_line_Part000 s :
  cursor_in_range s ->
  Chart.line (chart s) = baseline (chart s) ->
  exists s', redraw_line Part000 s = (s', true)
    /\ stepIndex s' = stepIndex s
    /\ WEIGHT_STEPS s' = WEIGHT_STEPS s
    /\ animTimer s' = animTimer s
    /\ DATA s' = DATA s
    /\ same_bounds (chart s) (chart s')
    /\ Chart.line (chart s') = line_for_cursor s (chart s).
Proof.
  intros Hc Hb. unfold redraw_line, cursor_in_range, line_for_cursor in *.
  destruct (Z.ltb_spec 0 (loaded s)) as [Hl|Hl].
  - destruct (Z.leb_spec 0 (stepIndex s)) as [Hi|Hi].
    + destruct (weights_at_in_range s (stepIndex s) ltac:(lia)) as [w Hw].
      rewrite Hw. eexists. split; [reflexivity|]. repeat split.
    + unfold weights_at. destruct (Z.ltb_spec (stepIndex s) 0); [|lia].
      eexists. split; [reflexivity|]. repeat split.
  - unfold weights_at. destruct (Z.ltb_spec (stepIndex s) 0); [|lia].
    eexists. split; [reflexivity|]. repeat split. exact Hb.
Qed.

Section Regenerate.

Variables Math_log Math_cos : float -> float.
Variable fuel : nat.
Hypothesis enough_fuel : (2 <= fuel)%nat.

Lemma generateData_200 rev seed :
  exists data, generateData Math_log Math_cos fuel rev 200 seed = Returns data.
Proof.
  destruct (generateData_returns Math_log Math_cos fuel enough_fuel rev 200 seed)
    as (data & E & _); [unfold max_array_length; lia|eauto].
Qed.

Lemma start_returns rev :
  exists s, start Math_log Math_cos fuel rev = Returns s
            /\ stepIndex s = -1 /\ WEIGHT_STEPS s = [].
Proof.
  unfold start. destruct (generateData_200 rev 123) as [data ->].
  eexists. repeat split.
Qed.

(** Regenerating in part_000: cursor, sequence and timer are kept, and the
    line is redrawn for the cursor within the new bounds. *)
Lemma regenerate_Part000 s :
  cursor_in_range s ->
  exists s', regenerate Math_log Math_cos fuel Part000 s = Returns s'
    /\ stepIndex s' = stepIndex s
    /\ WEIGHT_STEPS s' = WEIGHT_STEPS s
    /\ animTimer s' = animTimer s
    /\ bounds_of (DATA s') (chart s')
    /\ Chart.line (chart s') = line_for_cursor s' (chart s').
Proof.
  intros Hc. unfold regenerate.
  destruct (generateData_200 Part000
              (if Z.rem (currentSeed s * 9301 + 49297) 233280 =? 0 then 1
               else Z.rem (currentSeed s * 9301 + 49297) 233280)) as [data ->].
  set (s1 := {| DATA := data; chart := rescale data (chart s);
                currentSeed := _; WEIGHT_STEPS := WEIGHT_STEPS s;
                stepIndex := stepIndex s; animTimer := animTimer s |}).
  destruct (redraw_line_Part000 s1 Hc eq_refl)
    as (s2 & -> & H1 & H2 & H3 & H4 & (B1 & B2 & B3 & B4) & H6).
  exists (with_chart Chart.update s2). split; [reflexivity|].
  unfold bounds_of, line_for_cursor, baseline, weights_at, Chart.update.
  cbn [with_chart stepIndex WEIGHT_STEPS animTimer chart DATA
       Chart.x_min Chart.x_max Chart.y_min Chart.y_max Chart.line].
  rewrite H1, H2, H4, B1, B2, B3, B4, H6.
  repeat split; assumption.
Qed.

(** Regenerating in app.js: the sequence is kept, the timer is stopped, the
    cursor goes back to -1 and the baseline is drawn within the new
    bounds. *)
Lemma regenerate_AppJs s :
  exists s', regenerate Math_log Math_cos fuel AppJs s = Returns s'
    /\ stepIndex s' = -1
    /\ WEIGHT_STEPS s' = WEIGHT_STEPS s
    /\ animTimer s' = None
    /\ bounds_of (DATA s') (chart s')
    /\ Chart.line (chart s') = baseline (chart s').
Proof.
  unfold regenerate. cbn [with_stepIndex stopAnimation with_animTimer currentSeed].
  destruct (generateData_200 AppJs
              (if Z.rem (currentSeed s * 9301 + 49297) 233280 =? 0 then 1
               else Z.rem (currentSeed s * 9301 + 49297) 233280)) as [data ->].
  eexists. split; [reflexivity|]. repeat split.
Qed.

Lemma cursor_in_range_regenerate rev s :
  cursor_in_range s ->
  exists s', regenerate Math_log Math_cos fuel rev s = Returns s'
             /\ cursor_in_range s'.
Proof.
  intros Hc. destruct rev.
  - destruct (regenerate_AppJs s) as (s' & E & Hi & _).
    exists s'. split; [exact E|]. apply cursor_in_range_baseline, Hi.
  - destruct (regenerate_Part000 s Hc) as (s' & E & Hi & Hw & _).
    exists s'. split; [exact E|]. unfold cursor_in_range, loaded in *.
    rewrite Hi, Hw. exact Hc.
Qed.

Lemma cursor_in_range_handle rev ev s :
  cursor_in_range s ->
  exists s', handle Math_log Math_cos fuel rev ev s = Returns s'
             /\ cursor_in_range s'.
Proof.
  intros Hc. destruct ev as [|value| |slider| |]; cbn [handle].
  - apply cursor_in_range_regenerate, Hc.
  - eexists. split; [reflexivity|apply cursor_in_range_loadWeights].
  - eexists. split; [reflexivity|apply cursor_in_range_step, Hc].
  - eexists. split; [reflexivity|apply cursor_in_range_animate, Hc].
  - destruct (animTimer s); eexists; (split; [reflexivity|]);
      [apply cursor_in_range_tick, Hc|exact Hc].
  - eexists. split; [reflexivity|apply cursor_in_range_resetAnim].
Qed.

Lemma cursor_in_range_run rev evs : forall s,
  cursor_in_range s ->
  exists s', run Math_log Math_cos fuel rev evs s = Returns s'
             /\ cursor_in_range s'.
Proof.
  induction evs as [|ev evs IH]; intros s Hc; cbn [run].
  - eauto.
  - destruct (cursor_in_range_handle rev ev s Hc) as (s1 & -> & H1).
    apply IH, H1.
Qed.

End Regenerate.

(** ** The weight parser *)

Lemma length_pos_not_empty l :
  (0 <? String.length l)%nat = negb (JSString.is_empty l).
Proof. destruct l; reflexivity. Qed.

(** One round of the loop adds the row of its line, if the line has one. *)
Lemma parse_rows_spec lines count : forall i out,
  parse_rows lines count i out
  = out ++ spec_rows (firstn count (skipn i lines)).
Proof.
  induction count as [|count IH]; intros i out.
  - cbn. rewrite app_nil_r. reflexivity.
  - cbn [parse_rows]. unfold spec_rows in *.
    destruct (skipn i lines) as [|l rest] eqn:E.
    + (* past the end: the loop reads "undefined" lines; not reached *)
      assert (Hn : nth i lines "" = "").
      { apply nth_overflow. apply skipn_all_iff. exact E. }
      rewrite Hn. cbn. rewrite !IH.
      replace (skipn (S i) lines) with (@nil string).
      { rewrite firstn_nil. reflexivity. }
      symmetry. apply skipn_all_iff. apply skipn_all_iff in E. lia.
    + assert (Hn : nth i lines "" = l).
      { rewrite <- (firstn_skipn i lines) at 1. rewrite E.
        assert (Hi : (i <= List.length lines)%nat).
        { destruct (Nat.le_gt_cases i (List.length lines)) as [|H]; [assumption|].
          rewrite skipn_all2 in E by lia. discriminate. }
        rewrite app_nth2; rewrite length_firstn, Nat.min_l by exact Hi; [|lia].
        rewrite Nat.sub_diag. reflexivity. }
      assert (Hs : skipn (S i) lines = rest).
      { change (S i) with (1 + i)%nat. rewrite <- skipn_skipn, E. reflexivity. }
      rewrite Hn. cbn [firstn flat_map]. unfold spec_row.
      destruct (JSString.split_commas l) as [|a [|b [|c parts]]]; cbn [List.length Nat.ltb Nat.leb nth];
        rewrite ?IH, ?Hs; try reflexivity.
      cbn [w0 w1 w2].
      destruct (all_finite _ _ _); rewrite ?IH, ?Hs, <- ?app_assoc; reflexivity.
Qed.

Lemma parseWeightsCsv_spec text : parseWeightsCsv text = spec_parse text.
Proof.
  unfold parseWeightsCsv, spec_parse, spec_nonblank_lines.
  rewrite (filter_ext _ _ length_pos_not_empty).
  destruct (filter _ _) as [|first rest]; [reflexivity|].
  cbn [List.length Nat.eqb nth spec_skip_header].
  rewrite parse_rows_spec. cbn [app].
  destruct (is_header (JSString.toLowerCase first)).
  - cbn [skipn]. replace (S (List.length rest) - 1)%nat with (List.length rest) by lia.
    rewrite firstn_all. reflexivity.
  - cbn [skipn]. rewrite Nat.sub_0_r.
    change (S (List.length rest)) with (List.length (first :: rest)).
    rewrite firstn_all. reflexivity.
Qed.

(** C1.  With a sequence loaded and the cursor at -1 or on a step: below
    the last index a step click moves the cursor up by one and stores the
    decision line of the weights at the new cursor (nothing else changes
    but the count of redraws); at the last index it changes nothing.  With
    three steps loaded and the cursor at -1, three clicks take the cursor
    to 0, 1 and 2, each showing the line of its step, and a fourth click
    changes nothing. *)
Theorem step_advances (s : App) :
  0 < loaded s -> -1 <= stepIndex s ->
  (stepIndex s < loaded s - 1 ->
   exists w, weights_at s (stepIndex s + 1) = Some w
     /\ step s =
          {| DATA := DATA s;
             chart := Chart.update (setDecisionLineFromWeights w (chart s));
             currentSeed := currentSeed s; WEIGHT_STEPS := WEIGHT_STEPS s;
             stepIndex := stepIndex s + 1; animTimer := animTimer s |})
  /\ (stepIndex s = loaded s - 1 -> step s = s)
  /\ (loaded s = 3 -> stepIndex s = -1 ->
      let s1 := step s in
      let s2 := step s1 in
      let s3 := step s2 in
      stepIndex s1 = 0 /\ stepIndex s2 = 1 /\ stepIndex s3 = 2 /\ step s3 = s3
      /\ Chart.line (chart s1) = line_for_cursor s1 (chart s)
      /\ Chart.line (chart s2) = line_for_cursor s2 (chart s)
      /\ Chart.line (chart s3) = line_for_cursor s3 (chart s)).
Proof.
  intros Hl Hi. split; [|split].
  - intros Hlt. apply step_below_last; lia.
  - intros Heq. apply step_at_last. lia.
  - apply three_steps_from_baseline.
Qed.

Lemma step_advances_witness :
  let s := loadWeights three_steps example_page in
  stepIndex (step s) = 0
  /\ stepIndex (step (step s)) = 1
  /\ stepIndex (step (step (step s))) = 2
  /\ step (step (step (step s))) = step (step (step s))
  /\ Chart.line (chart (step s)) = line_for_cursor (step s) (chart s)
  /\ Chart.line (chart (step (step s))) = line_for_cursor (step (step s)) (chart s)
  /\ Chart.line (chart (step (step (step s))))
     = line_for_cursor (step (step (step s))) (chart s).
Proof.
  apply (step_advances (loadWeights three_steps example_page)).
  - vm_compute. reflexivity.
  - vm_compute. discriminate.
  - vm_compute. reflexivity.
  - vm_compute. reflexivity.
Defined.

(** C8.  From the state the page starts in, after any sequence of
    regenerate, load, step, animate, timer-tick and reset events the
    handlers have all returned and the cursor lies between -1 and the
    number of loaded steps less one; load and reset leave it at -1. *)
Theorem cursor_stays_in_range (Math_log Math_cos : float -> float)
    (fuel : nat) (rev : Revision) (evs : list (Event)) :
  (2 <= fuel)%nat ->
  (exists s0 s,
     start Math_log Math_cos fuel rev = Returns s0
     /\ run Math_log Math_cos fuel rev evs s0 = Returns s
     /\ -1 <= stepIndex s <= loaded s - 1)
  /\ (forall value s, stepIndex (loadWeights value s) = -1)
  /\ (forall s, stepIndex (resetAnim s) = -1).
Proof.
  intros Hf. split; [|split; reflexivity].
  destruct (start_returns Math_log Math_cos fuel Hf rev) as (s0 & E0 & I0 & W0).
  destruct (cursor_in_range_run Math_log Math_cos fuel Hf rev evs s0
              (cursor_in_range_baseline s0 I0)) as (s & E & H).
  exists s0, s. auto.
Qed.

Lemma cursor_stays_in_range_witness :
  exists s0 s,
    start (fun _ => (-1)%float) (fun _ => 1%float) 2 AppJs = Returns s0
    /\ run (fun _ => (-1)%float) (fun _ => 1%float) 2 AppJs
           [LoadWeights three_steps; Step; Animate (Some 50); Tick; Tick; Tick;
            Regenerate; Step; ResetAnim] s0 = Returns s
    /\ -1 <= stepIndex s <= loaded s - 1.
Proof.
  apply (cursor_stays_in_range (fun _ => (-1)%float) (fun _ => 1%float) 2 AppJs
           [LoadWeights three_steps; Step; Animate (Some 50); Tick; Tick; Tick;
            Regenerate; Step; ResetAnim]).
  lia.
Defined.

(** C5, as amended.  Regenerating keeps the loaded sequence in both
    revisions and takes the chart's bounds from the new data.  part_000
    keeps cursor and timer and redraws the line of the cursor's step (the
    baseline at -1) within the new bounds; app.js stops the timer, puts
    the cursor back to -1 and draws the baseline within the new bounds. *)
Theorem regenerate_cursor (Math_log Math_cos : float -> float) (fuel : nat)
    (s : App) :
  (2 <= fuel)%nat -> -1 <= stepIndex s <= loaded s - 1 ->
  (exists s', regenerate Math_log Math_cos fuel Part000 s = Returns s'
     /\ stepIndex s' = stepIndex s
     /\ WEIGHT_STEPS s' = WEIGHT_STEPS s
     /\ animTimer s' = animTimer s
     /\ bounds_of (DATA s') (chart s')
     /\ Chart.line (chart s') = line_for_cursor s' (chart s'))
  /\ (exists s', regenerate Math_log Math_cos fuel AppJs s = Returns s'
     /\ stepIndex s' = -1
     /\ WEIGHT_STEPS s' = WEIGHT_STEPS s
     /\ animTimer s' = None
     /\ bounds_of (DATA s') (chart s')
     /\ Chart.line (chart s') = baseline (chart s')).
Proof.
  intros Hf Hc. split.
  - apply regenerate_Part000; assumption.
  - apply regenerate_AppJs; assumption.
Qed.

Lemma regenerate_cursor_witness :
  exists s',
    regenerate (fun _ => (-1)%float) (fun _ => 1%float) 2 Part000
      (step (loadWeights three_steps example_page)) = Returns s'
    /\ stepIndex s' = stepIndex (step (loadWeights three_steps example_page))
    /\ WEIGHT_STEPS s' = WEIGHT_STEPS (step (loadWeights three_steps example_page))
    /\ animTimer s' = animTimer (step (loadWeights three_steps example_page))
    /\ bounds_of (DATA s') (chart s')
    /\ Chart.line (chart s') = line_for_cursor s' (chart s').
Proof.
  apply (regenerate_cursor (fun _ => (-1)%float) (fun _ => 1%float) 2
           (step (loadWeights three_steps example_page))).
  - lia.
  - vm_compute. split; discriminate.
Defined.

Lemma regenerate_AppJs_cursor Math_log Math_cos fuel s s' :
  regenerate Math_log Math_cos fuel AppJs s = Returns s' -> stepIndex s' = -1.
Proof.
  unfold regenerate. destruct (generateData _ _ _ _ _ _) as [data| |]; try discriminate.
  intros E. injection E as <-. reflexivity.
Qed.

(** C5 as stated fails in app.js: with the cursor on step 0, regenerating
    never leaves the cursor where it was, whatever Math.log and Math.cos
    are. *)
Lemma regenerate_resets_cursor :
  ~ (exists Math_log Math_cos fuel s',
        regenerate Math_log Math_cos fuel AppJs
          (step (loadWeights three_steps example_page)) = Returns s'
        /\ stepIndex s' = stepIndex (step (loadWeights three_steps example_page))).
Proof.
  intros (ml & mc & fuel & s' & E & C).
  apply regenerate_AppJs_cursor in E. rewrite E in C.
  vm_compute in C. discriminate C.
Qed.

(** C3.  The parser is a total function to sequences: for every text it
    returns the rows of the non-blank trimmed lines, less a leading header
    line, where a line has a row when it splits on commas into at least
    three fields of which the first three parse to finite Numbers.  The
    two examples of the specification follow. *)
Theorem parser_drops_malformed_rows (text : string) :
  parseWeightsCsv text = spec_parse text
  /\ parseWeightsCsv
       ("w0,w1,w2" ++ JSString.newline ++ "1,2,3" ++ JSString.newline
        ++ "bad,row" ++ JSString.newline ++ "4,5,6")
     = [triple 1 2 3; triple 4 5 6]
  /\ parseWeightsCsv "" = [].
Proof.
  split; [apply parseWeightsCsv_spec|]. split; vm_compute; reflexivity.
Qed.

(** ** The export *)

Lemma string_app_assoc (a b c : string) : ((a ++ b) ++ c = a ++ (b ++ c))%string.
Proof. induction a as [|ch a IH]; cbn; [reflexivity|rewrite IH; reflexivity]. Qed.

Lemma string_app_nil_r (a : string) : (a ++ "")%string = a.
Proof. induction a as [|ch a IH]; cbn; [reflexivity|rewrite IH; reflexivity]. Qed.

(** The [for...of] loop pushes the text of each row, in order. *)
Lemma toCsv_loop (rows : list JSObject) : forall lines,
  fold_left (fun lines r => lines ++ [row_text r]) rows lines
  = lines ++ map row_text rows.
Proof.
  induction rows as [|r rows IH]; intros lines; cbn [fold_left map].
  - rewrite app_nil_r. reflexivity.
  - rewrite IH, <- app_assoc. reflexivity.
Qed.

Lemma concat_empty_cons (x : string) (xs : list string) :
  String.concat "" (x :: xs) = (x ++ String.concat "" xs)%string.
Proof.
  destruct xs as [|x' xs]; cbn [String.concat].
  - rewrite string_app_nil_r. reflexivity.
  - reflexivity.
Qed.

(** Joining a first line and more lines with newlines. *)
Lemma join_newline (more : list string) : forall first,
  JSString.join JSString.newline (first :: more)
  = (first ++ String.concat "" (map (fun l => JSString.newline ++ l) more))%string.
Proof.
  unfold JSString.join.
  induction more as [|l more IH]; intros first.
  - cbn. rewrite string_app_nil_r. reflexivity.
  - change (String.concat JSString.newline (first :: l :: more))
      with (first ++ JSString.newline ++ String.concat JSString.newline (l :: more))%string.
    rewrite IH. cbn [map]. rewrite concat_empty_cons, !string_app_assoc.
    reflexivity.
Qed.

Lemma row_text_point (p : Point) : row_text (Point_object p) = point_row p.
Proof. reflexivity. Qed.

Lemma rows_text_concat (data : list Point) :
  String.concat "" (map (fun l => JSString.newline ++ l)%string (map point_row data))
  = spec_rows_text data.
Proof.
  induction data as [|p data IH]; [reflexivity|].
  cbn [map spec_rows_text]. rewrite concat_empty_cons, IH, !string_app_assoc.
  reflexivity.
Qed.

Lemma toCsv_points (data : list Point) :
  toCsv (map Point_object data) = spec_csv data.
Proof.
  unfold toCsv, spec_csv. rewrite toCsv_loop. cbn [app].
  rewrite (map_map Point_object row_text).
  rewrite (map_ext _ point_row row_text_point).
  rewrite join_newline, rows_text_concat.
  reflexivity.
Qed.

Lemma spec_rows_text_app (a b : list Point) :
  spec_rows_text (a ++ b) = (spec_rows_text a ++ spec_rows_text b)%string.
Proof.
  induction a as [|p a IH]; [reflexivity|].
  cbn [app spec_rows_text]. rewrite IH, !string_app_assoc. reflexivity.
Qed.

(** C9.  The export of a data set is the header row [x1,x2,y] followed, for
    each point in order, by one newline and the point's three Numbers in
    default decimal form separated by commas; so an empty data set
    exports the header alone, and a further point adds one newline and its
    row at the end, with nothing after it. *)
Theorem export_format (data : list Point) :
  toCsv (map Point_object data) = spec_csv data
  /\ toCsv [] = "x1,x2,y"
  /\ (forall p,
        toCsv (map Point_object (data ++ [p]))
        = (toCsv (map Point_object data) ++ JSString.newline ++ point_row p)%string)
  /\ toCsv (map Point_object example_points)
     = ("x1,x2,y" ++ JSString.newline ++ "2,3,0" ++ JSString.newline ++ "8,6,1")%string.
Proof.
  split; [apply toCsv_points|]. split; [reflexivity|]. split.
  - intros p. rewrite !toCsv_points. unfold spec_csv.
    rewrite spec_rows_text_app. cbn [spec_rows_text].
    rewrite string_app_nil_r, !string_app_assoc. reflexivity.
  - vm_compute. reflexivity.
Qed.

Import JSString.

(** ** Digit strings *)

Ltac digit_code :=
  unfold digit_value, code;
  repeat match goal with
         | |- context [N_of_ascii ?c] =>
             let v := eval vm_compute in (N_of_ascii c) in
             change (N_of_ascii c) with v
         end.

Lemma digits_value_uint_acc (d : Decimal.uint) : forall acc : positive,
  digits_value (Zpos acc) (NilEmpty.string_of_uint d) = Zpos (Pos.of_uint_acc d acc).
Proof.
  induction d; intros acc; cbn [NilEmpty.string_of_uint digits_value Pos.of_uint_acc];
    [reflexivity|..];
    match goal with
    | |- digits_value ?z _ = Zpos (Pos.of_uint_acc _ ?p) =>
        replace z with (Zpos p) by (digit_code; lia)
    end; apply IHd.
Qed.

Lemma digits_value_uint (d : Decimal.uint) :
  digits_value 0 (NilEmpty.string_of_uint d) = Z.of_N (Pos.of_uint d).
Proof.
  induction d; cbn [NilEmpty.string_of_uint digits_value Pos.of_uint];
    [reflexivity|exact IHd|..];
    match goal with
    | |- digits_value ?z _ = Z.of_N (Npos (Pos.of_uint_acc _ ?p)) =>
        change z with (Zpos p)
    end; apply digits_value_uint_acc.
Qed.

(** Printing a non-negative integer and reading the digits gives it back. *)
Lemma digits_value_decimal_string (z : Z) :
  0 <= z -> digits_value 0 (decimal_string z) = z.
Proof.
  intros Hz. unfold decimal_string. rewrite digits_value_uint.
  change (Pos.of_uint (N.to_uint (Z.to_N z))) with (N.of_uint (N.to_uint (Z.to_N z))).
  rewrite DecimalN.Unsigned.of_to. lia.
Qed.

Lemma all_digits_uint (d : Decimal.uint) :
  all_digits (NilEmpty.string_of_uint d) = true.
Proof. induction d; cbn; auto. Qed.

Lemma all_digits_decimal_string (z : Z) : all_digits (decimal_string z) = true.
Proof. apply all_digits_uint. Qed.

Lemma decimal_string_not_empty (z : Z) : is_empty (decimal_string z) = false.
Proof.
  unfold decimal_string. destruct (Z.to_N z) as [|p]; [reflexivity|].
  cbn [N.to_uint]. pose proof (DecimalPos.Unsigned.to_uint_nonnil p) as H.
  destruct (Pos.to_uint p); [congruence|reflexivity..].
Qed.

Lemma all_digits_app (a b : string) :
  all_digits (a ++ b) = all_digits a && all_digits b.
Proof.
  induction a as [|c a IH]; cbn; [reflexivity|]. rewrite IH, andb_assoc. reflexivity.
Qed.

Lemma all_digits_zeros (n : nat) : all_digits (zeros n) = true.
Proof. induction n; cbn; auto. Qed.

Lemma take_drop (n : nat) (s : string) : (take n s ++ drop n s)%string = s.
Proof.
  revert s. induction n as [|n IH]; intros [|c s]; cbn; try reflexivity.
  rewrite IH. reflexivity.
Qed.

Lemma length_take (n : nat) (s : string) :
  (n <= String.length s)%nat -> String.length (take n s) = n.
Proof.
  revert s. induction n as [|n IH]; intros [|c s] H; cbn in *; try lia.
  rewrite IH; lia.
Qed.

Lemma string_length_app (a b : string) :
  String.length (a ++ b) = (String.length a + String.length b)%nat.
Proof. induction a as [|c a IH]; cbn; [reflexivity|]. rewrite IH. reflexivity. Qed.

Lemma length_drop (n : nat) (s : string) :
  String.length (drop n s) = (String.length s - n)%nat.
Proof.
  revert s. induction n as [|n IH]; intros [|c s]; cbn; try lia. apply IH.
Qed.

Lemma length_zeros (n : nat) : String.length (zeros n) = n.
Proof. induction n; cbn; auto. Qed.

Lemma digits_value_app (a b : string) : forall acc,
  digits_value acc (a ++ b) = digits_value (digits_value acc a) b.
Proof. induction a as [|c a IH]; intros acc; cbn; [reflexivity|apply IH]. Qed.

Lemma digits_value_zeros (n : nat) : forall acc,
  digits_value acc (zeros n) = acc * 10 ^ Z.of_nat n.
Proof.
  induction n as [|n IH]; intros acc.
  - cbn. lia.
  - cbn [zeros digits_value]. rewrite IH, Nat2Z.inj_succ, Z.pow_succ_r by lia.
    digit_code. lia.
Qed.

Lemma digits_value_leading_zeros (n : nat) (ds : string) :
  digits_value 0 (zeros n ++ ds) = digits_value 0 ds.
Proof. rewrite digits_value_app, digits_value_zeros. reflexivity. Qed.

Lemma span_digits_app (ds rest : string) :
  all_digits ds = true -> stops rest = true ->
  span_digits (ds ++ rest) = (ds, rest).
Proof.
  intros Hd Hr. induction ds as [|c ds IH].
  - cbn. destruct rest as [|c rest]; [reflexivity|].
    cbn in *. apply negb_true_iff in Hr. rewrite Hr. reflexivity.
  - cbn in *. apply andb_true_iff in Hd as [Hc Hd]. rewrite Hc, (IH Hd). reflexivity.
Qed.

Lemma span_digits_all (ds : string) :
  all_digits ds = true -> span_digits ds = (ds, "").
Proof.
  intros H. rewrite <- (string_app_nil_r ds) at 1. apply span_digits_app; auto.
Qed.

Lemma all_digits_take (n : nat) (s : string) :
  all_digits s = true -> all_digits (take n s) = true.
Proof.
  revert s. induction n as [|n IH]; intros [|c s] H; cbn in *; try reflexivity.
  apply andb_true_iff in H as [Hc H]. rewrite Hc, (IH _ H). reflexivity.
Qed.

Lemma all_digits_drop (n : nat) (s : string) :
  all_digits s = true -> all_digits (drop n s) = true.
Proof.
  revert s. induction n as [|n IH]; intros [|c s] H; cbn in *; try assumption; try reflexivity.
  apply andb_true_iff in H as [Hc H]. apply (IH _ H).
Qed.

Import JSString.

(** ** Reading what Number::toString writes *)

Lemma prefix_Infinity_digit (c : ascii) (rest : string) :
  is_digit c = true -> String.prefix "Infinity" (String c rest) = false.
Proof.
  intros H. cbn [String.prefix]. destruct (ascii_dec "I" c) as [<-|]; [discriminate H|reflexivity].
Qed.

Lemma prefix_Infinity_digits (ip r : string) :
  all_digits ip = true -> is_empty ip = false ->
  String.prefix "Infinity" (ip ++ r) = false.
Proof.
  intros Hd Hne. destruct ip as [|c ip']; [discriminate Hne|].
  cbn in Hd. apply andb_true_iff in Hd as [Hc _].
  apply (prefix_Infinity_digit c _ Hc).
Qed.

Lemma digit_not_space (c : ascii) : is_digit c = true -> isWhiteSpace c = false.
Proof.
  unfold is_digit, isWhiteSpace. intros H.
  apply andb_true_iff in H as [H1 H2]. apply N.leb_le in H1, H2.
  destruct (N.leb_spec 9 (code c)), (N.leb_spec (code c) 13),
    (N.eqb_spec (code c) 32), (N.eqb_spec (code c) 160); cbn; try reflexivity; lia.
Qed.

Lemma digit_not (c d : ascii) :
  is_digit c = true -> is_digit d = false -> Ascii.eqb c d = false.
Proof.
  intros Hc Hd. destruct (Ascii.eqb_spec c d) as [->|]; [congruence|reflexivity].
Qed.

(** A literal of integer digits followed by something that is neither a
    digit nor a point. *)
Lemma parse_unsigned_integer (neg : bool) (ip r : string) :
  all_digits ip = true -> is_empty ip = false -> stops r = true ->
  (forall r', r <> String "." r') ->
  parse_unsigned neg (ip ++ r)
  = JSNumber.decimal_to_Number neg (digits_value 0 ip) (exponent_part r).
Proof.
  intros Hd Hne Hs Hdot. unfold parse_unsigned.
  rewrite (prefix_Infinity_digits _ _ Hd Hne).
  rewrite (span_digits_app _ _ Hd Hs).
  assert (E : match r with
              | String c0 r0 => if Ascii.eqb c0 "." then span_digits r0 else ("", r)
              | "" => ("", r)
              end = ("", r)).
  { destruct r as [|c0 r0]; [reflexivity|].
    destruct (Ascii.eqb_spec c0 ".") as [->|]; [exfalso; apply (Hdot r0); reflexivity|reflexivity]. }
  rewrite E, Hne. cbn [andb String.length Z.of_nat].
  rewrite string_app_nil_r, Z.sub_0_r. reflexivity.
Qed.

(** A literal of integer digits, a point and fraction digits. *)
Lemma parse_unsigned_fraction (neg : bool) (ip fp r : string) :
  all_digits ip = true -> is_empty ip = false ->
  all_digits fp = true -> stops r = true ->
  parse_unsigned neg (ip ++ "." ++ fp ++ r)
  = JSNumber.decimal_to_Number neg (digits_value 0 (ip ++ fp))
      (exponent_part r - Z.of_nat (String.length fp)).
Proof.
  intros Hd Hne Hf Hs. unfold parse_unsigned.
  rewrite (prefix_Infinity_digits _ _ Hd Hne).
  change ("." ++ fp ++ r)%string with (String "." (fp ++ r)).
  rewrite (span_digits_app ip (String "." (fp ++ r)) Hd eq_refl).
  cbn [Ascii.eqb Bool.eqb]. rewrite (span_digits_app _ _ Hf Hs).
  rewrite Hne. cbn [andb]. reflexivity.
Qed.

Lemma exponent_part_nil : exponent_part "" = 0.
Proof. reflexivity. Qed.

Lemma exponent_part_plus (a : Z) :
  0 <= a -> exponent_part ("e" ++ "+" ++ decimal_string a) = a.
Proof.
  intros Ha. cbn [append exponent_part Ascii.eqb Bool.eqb orb split_sign].
  rewrite (span_digits_all _ (all_digits_decimal_string a)).
  rewrite decimal_string_not_empty. apply digits_value_decimal_string, Ha.
Qed.

Lemma exponent_part_minus (a : Z) :
  0 <= a -> exponent_part ("e" ++ "-" ++ decimal_string a) = - a.
Proof.
  intros Ha. cbn [append exponent_part Ascii.eqb Bool.eqb orb split_sign].
  rewrite (span_digits_all _ (all_digits_decimal_string a)).
  rewrite decimal_string_not_empty. f_equal. apply digits_value_decimal_string, Ha.
Qed.

(** The exponent that [format_digits] writes for [e] reads as [e]. *)
Lemma exponent_part_signed (e : Z) :
  exponent_part ("e" ++ (if e <? 0 then "-" else "+") ++ decimal_string (Z.abs e)) = e.
Proof.
  destruct (Z.ltb_spec e 0).
  - rewrite exponent_part_minus; lia.
  - rewrite exponent_part_plus; lia.
Qed.

Import JSString.

Lemma decimal_to_spec_scaled (neg : bool) (d j : Z) :
  0 < d -> 0 <= j ->
  JSNumber.decimal_to_spec neg (d * 10 ^ j) 0 = JSNumber.decimal_to_spec neg d j.
Proof.
  intros Hd Hj. unfold JSNumber.decimal_to_spec.
  assert (0 < 10 ^ j) by (apply Z.pow_pos_nonneg; lia).
  destruct (Z.leb_spec (d * 10 ^ j) 0); [nia|].
  destruct (Z.leb_spec d 0); [lia|].
  destruct (Z.leb_spec 0 j); [|lia].
  cbn [Z.leb Z.compare]. rewrite Z.pow_0_r, Z.mul_1_r. reflexivity.
Qed.

Lemma is_empty_length (s : string) :
  is_empty s = false <-> (0 < String.length s)%nat.
Proof. destruct s; cbn; split; intros; try lia; try discriminate; reflexivity. Qed.

Lemma take_not_empty (n : nat) (s : string) :
  (0 < n)%nat -> is_empty s = false -> is_empty (take n s) = false.
Proof. destruct n, s; cbn; intros; try lia; try discriminate; reflexivity. Qed.

(** Exponential notation: one digit, the others after a point, and the
    exponent. *)
Lemma parse_unsigned_exponential (neg : bool) (d e : Z) :
  0 < d ->
  let digits := decimal_string d in
  let k := Z.of_nat (String.length digits) in
  parse_unsigned neg
    ((if k =? 1 then digits else take 1 digits ++ "." ++ drop 1 digits)
       ++ "e" ++ (if e <? 0 then "-" else "+") ++ decimal_string (Z.abs e))
  = JSNumber.decimal_to_Number neg d (e + 1 - k).
Proof.
  intros Hd digits k.
  pose proof (all_digits_decimal_string d) as Hall.
  pose proof (decimal_string_not_empty d) as Hne.
  pose proof (digits_value_decimal_string d ltac:(lia)) as Hval.
  fold digits in Hall, Hne, Hval.
  assert (Hk : 0 < k) by (apply is_empty_length in Hne; lia).
  destruct (Z.eqb_spec k 1) as [Hk1|Hk1].
  - rewrite parse_unsigned_integer; try assumption; try reflexivity; try discriminate.
    rewrite Hval, exponent_part_signed. f_equal. lia.
  - rewrite !string_app_assoc.
    rewrite parse_unsigned_fraction.
    + rewrite take_drop, Hval, exponent_part_signed, length_drop. f_equal. lia.
    + apply all_digits_take, Hall.
    + apply take_not_empty; [lia|exact Hne].
    + apply all_digits_drop, Hall.
    + reflexivity.
Qed.

(** What [format_digits] writes for the digits [d] and the exponent [n]
    reads as [d * 10^(n - k)], [k] being the number of digits of [d]. *)
Lemma parse_unsigned_format (neg : bool) (d n : Z) :
  0 < d ->
  parse_unsigned neg (format_digits d n)
  = JSNumber.decimal_to_Number neg d (n - digits10 d).
Proof.
  intros Hd. unfold format_digits, digits10.
  pose proof (parse_unsigned_exponential neg d (n - 1) Hd) as Hexp.
  cbv zeta in Hexp. replace (n - 1 + 1) with n in Hexp by lia.
  pose proof (all_digits_decimal_string d) as Hall.
  pose proof (decimal_string_not_empty d) as Hne.
  pose proof (digits_value_decimal_string d ltac:(lia)) as Hval.
  set (digits := decimal_string d) in *.
  set (k := Z.of_nat (String.length digits)) in *.
  assert (Hk : 0 < k) by (apply is_empty_length in Hne; lia).
  destruct ((k <=? n) && (n <=? 21)) eqn:C1.
  - (* digits and zeros *)
    apply andb_true_iff in C1 as [Hkn Hn]. apply Z.leb_le in Hkn, Hn.
    rewrite <- (string_app_nil_r (digits ++ zeros _)).
    rewrite parse_unsigned_integer.
    + rewrite digits_value_app, digits_value_zeros, Hval, Z2Nat.id by lia.
      unfold JSNumber.decimal_to_Number. rewrite exponent_part_nil.
      rewrite decimal_to_spec_scaled by lia. reflexivity.
    + rewrite all_digits_app, Hall, all_digits_zeros. reflexivity.
    + destruct digits; [discriminate Hne|reflexivity].
    + reflexivity.
    + discriminate.
  - destruct ((0 <? n) && (n <=? 21)) eqn:C2.
    + (* a point inside the digits *)
      apply andb_true_iff in C2 as [H0 Hn]. apply Z.ltb_lt in H0. apply Z.leb_le in Hn.
      assert (Hkn : n < k).
      { destruct (Z.leb_spec k n); [|assumption].
        destruct (Z.leb_spec n 21); [discriminate C1|lia]. }
      rewrite <- (string_app_nil_r (drop _ digits)).
      rewrite parse_unsigned_fraction.
      * rewrite take_drop, Hval, exponent_part_nil, length_drop. f_equal. lia.
      * apply all_digits_take, Hall.
      * apply take_not_empty; [lia|exact Hne].
      * apply all_digits_drop, Hall.
      * reflexivity.
    + destruct ((-6 <? n) && (n <=? 0)) eqn:C3.
      * (* zeros after the point *)
        apply andb_true_iff in C3 as [H6 H0]. apply Z.ltb_lt in H6. apply Z.leb_le in H0.
        change ("0." ++ zeros (Z.to_nat (- n)) ++ digits)%string
          with ("0" ++ "." ++ (zeros (Z.to_nat (- n)) ++ digits))%string.
        rewrite <- (string_app_nil_r (zeros _ ++ digits)).
        rewrite parse_unsigned_fraction.
        -- change ("0" ++ zeros (Z.to_nat (- n)) ++ digits)%string
             with (zeros (S (Z.to_nat (- n))) ++ digits)%string.
           rewrite digits_value_leading_zeros, Hval, exponent_part_nil.
           rewrite string_length_app, length_zeros. f_equal. lia.
        -- reflexivity.
        -- reflexivity.
        -- rewrite all_digits_app, all_digits_zeros, Hall. reflexivity.
        -- reflexivity.
      * exact Hexp.
Qed.

(** ** Rounding a decimal that is a binary64 value *)

Lemma digits2_pos_log2 (m : positive) :
  Zpos (digits2_pos m) = Z.log2 (Zpos m) + 1.
Proof.
  assert (H : forall p, digits2_pos p = Pos.size p).
  { induction p as [p IH|p IH|]; cbn; rewrite ?IH; reflexivity. }
  rewrite H. destruct m as [p|p|]; cbn; lia.
Qed.

(** What it means for [m * 2^e] to be a binary64 value. *)
Lemma bounded_spec (m : positive) (e : Z) :
  bounded prec emax m e = true ->
  Z.max (Z.log2 (Zpos m) + e - 52) (-1074) = e /\ e <= 971 /\ Zpos m < 2 ^ 53.
Proof.
  unfold bounded, canonical_mantissa. intros H.
  apply andb_true_iff in H as [H1 H2]. apply Z.eqb_eq in H1. apply Z.leb_le in H2.
  rewrite fexp_eq, digits2_pos_log2 in H1. change (emax - prec) with 971 in H2.
  repeat split; try lia.
  assert (Hl : Z.log2 (Zpos m) < 53) by lia.
  apply Z.log2_lt_pow2 in Hl; lia.
Qed.

Lemma pow2_split (a b : Z) : 0 <= a -> 0 <= b -> 2 ^ (a + b) = 2 ^ a * 2 ^ b.
Proof. intros. apply Z.pow_add_r; assumption. Qed.

(** The binary exponent of the ratio [m * 5^j / 10^j]. *)
Lemma floor_log2_ratio_fraction (m : positive) (j : Z) :
  0 < j ->
  floor_log2_ratio (Zpos m * 5 ^ j) (10 ^ j) = Z.log2 (Zpos m) - j.
Proof.
  intros Hj. unfold floor_log2_ratio.
  set (a := Z.log2 (Zpos m)).
  assert (Ha : 0 <= a) by apply Z.log2_nonneg.
  assert (Hm : 2 ^ a <= Zpos m < 2 ^ (a + 1)).
  { pose proof (Z.log2_spec (Zpos m) ltac:(lia)) as H. fold a in H.
    replace (a + 1) with (Z.succ a) by lia. exact H. }
  set (F := 5 ^ j). assert (HF : 0 < F) by (apply Z.pow_pos_nonneg; lia).
  set (P := 2 ^ j). assert (HP : 0 < P) by (apply Z.pow_pos_nonneg; lia).
  assert (HD : 10 ^ j = P * F).
  { change 10 with (2 * 5). apply Z.pow_mul_l. }
  rewrite HD.
  assert (HlD : Z.log2 (P * F) = j + Z.log2 F).
  { rewrite Z.mul_comm. unfold P. apply Z.log2_mul_pow2; lia. }
  rewrite HlD.
  pose proof (Z.log2_mul_below (Zpos m) F ltac:(lia) HF) as Hb.
  pose proof (Z.log2_mul_above (Zpos m) F ltac:(lia) ltac:(lia)) as Hab.
  fold a in Hb, Hab.
  set (b := Z.log2 (Zpos m * F)) in *.
  assert (Hest : b - (j + Z.log2 F) = a - j \/ b - (j + Z.log2 F) = a - j + 1) by lia.
  destruct Hest as [-> | ->].
  - (* the estimate is right: the ratio is not below 2^(a-j) *)
    destruct (Z.leb_spec 0 (a - j)) as [Hs|Hs].
    + assert (E : 2 ^ a = P * 2 ^ (a - j)).
      { unfold P. rewrite <- pow2_split by lia. f_equal. lia. }
      destruct (Z.ltb_spec (Zpos m * F) (P * F * 2 ^ (a - j))); [nia|reflexivity].
    + assert (E : P = 2 ^ a * 2 ^ (- (a - j))).
      { unfold P. rewrite <- pow2_split by lia. f_equal. lia. }
      assert (0 < 2 ^ (- (a - j))) by (apply Z.pow_pos_nonneg; lia).
      destruct (Z.ltb_spec (Zpos m * F * 2 ^ (- (a - j))) (P * F)); [nia|reflexivity].
  - (* the estimate is one too many: the ratio is below 2^(a-j+1) *)
    destruct (Z.leb_spec 0 (a - j + 1)) as [Hs|Hs].
    + assert (E : 2 ^ (a + 1) = P * 2 ^ (a - j + 1)).
      { unfold P. rewrite <- pow2_split by lia. f_equal. lia. }
      destruct (Z.ltb_spec (Zpos m * F) (P * F * 2 ^ (a - j + 1))); [lia|nia].
    + assert (E : P = 2 ^ (a + 1) * 2 ^ (- (a - j + 1))).
      { unfold P. rewrite <- pow2_split by lia. f_equal. lia. }
      assert (0 < 2 ^ (- (a - j + 1))) by (apply Z.pow_pos_nonneg; lia).
      destruct (Z.ltb_spec (Zpos m * F * 2 ^ (- (a - j + 1))) (P * F)); [lia|nia].
Qed.

Lemma floor_log2_ratio_integer (m : positive) (e : Z) :
  0 <= e ->
  floor_log2_ratio (Zpos m * 2 ^ e) 1 = Z.log2 (Zpos m) + e.
Proof.
  intros He. unfold floor_log2_ratio. change (Z.log2 1) with 0. rewrite Z.sub_0_r.
  rewrite Z.log2_mul_pow2 by lia.
  pose proof (Z.log2_nonneg (Zpos m)).
  destruct (Z.leb_spec 0 (e + Z.log2 (Zpos m))); [|lia].
  pose proof (Z.log2_spec (Zpos m) ltac:(lia)) as [Hlo _].
  assert (E : 2 ^ (e + Z.log2 (Zpos m)) = 2 ^ Z.log2 (Zpos m) * 2 ^ e).
  { rewrite <- pow2_split by lia. f_equal. lia. }
  assert (0 < 2 ^ e) by (apply Z.pow_pos_nonneg; lia).
  destruct (Z.ltb_spec (Zpos m * 2 ^ e) (1 * 2 ^ (e + Z.log2 (Zpos m)))); [nia|lia].
Qed.

(** The common end of the two cases: the scaled ratio is the integer [m]. *)
Lemma round_exact_quotient (neg : bool) (m : positive) (q num den : Z) :
  0 < den -> num = Zpos m * den -> Zpos m < 2 ^ 53 -> q <= 971 ->
  (let mq := num / den in
   let r := num mod den in
   let m1 := match 2 * r ?= den with
             | Lt => mq
             | Gt => mq + 1
             | Eq => if Z.even mq then mq else mq + 1
             end in
   let m2 := if m1 =? 2 ^ 53 then 2 ^ 52 else m1 in
   let q2 := if m1 =? 2 ^ 53 then q + 1 else q in
   match m2 with
   | Zpos p => if q2 <=? 971 then S754_finite neg p q2 else S754_infinity neg
   | _ => S754_zero neg
   end) = S754_finite neg m q.
Proof.
  intros Hden -> Hm Hq. cbv zeta.
  rewrite Z.div_mul, Z.mod_mul by lia.
  replace (2 * 0 ?= den) with Lt by (symmetry; apply Z.compare_lt_iff; lia).
  destruct (Z.eqb_spec (Zpos m) (2 ^ 53)); [lia|].
  destruct (Z.leb_spec q 971); [reflexivity|lia].
Qed.

(** A binary64 value with a non-negative exponent, written as an integer,
    rounds to itself. *)
Lemma round_ratio_integer (neg : bool) (m : positive) (e : Z) :
  bounded prec emax m e = true -> 0 <= e ->
  round_ratio neg (Zpos m * 2 ^ e) 1 = S754_finite neg m e.
Proof.
  intros Hb He. destruct (bounded_spec m e Hb) as (Hq & He971 & Hm).
  unfold round_ratio. rewrite floor_log2_ratio_integer by exact He.
  rewrite Hq. destruct (Z.leb_spec 0 e); [|lia].
  apply round_exact_quotient; try assumption.
  - assert (0 < 2 ^ e) by (apply Z.pow_pos_nonneg; lia). lia.
  - lia.
Qed.

(** A binary64 value with a negative exponent, written as a decimal
    fraction, rounds to itself. *)
Lemma round_ratio_fraction (neg : bool) (m : positive) (e : Z) :
  bounded prec emax m e = true -> e < 0 ->
  round_ratio neg (Zpos m * 5 ^ (- e)) (10 ^ (- e)) = S754_finite neg m e.
Proof.
  intros Hb He. destruct (bounded_spec m e Hb) as (Hq & He971 & Hm).
  unfold round_ratio. rewrite floor_log2_ratio_fraction by lia.
  replace (Z.log2 (Zpos m) - - e - 52) with (Z.log2 (Zpos m) + e - 52) by lia.
  rewrite Hq. destruct (Z.leb_spec 0 e); [lia|].
  apply round_exact_quotient; try assumption.
  - apply Z.pow_pos_nonneg; lia.
  - change 10 with (2 * 5). rewrite Z.pow_mul_l. lia.
Qed.

(** The exact decimal expansion of a binary64 value reads back as it. *)
Lemma exact_decimal_reads_back (m : positive) (e : Z) :
  bounded prec emax m e = true ->
  JSString.reads_back m e (fst (JSString.exact_decimal m e))
    (snd (JSString.exact_decimal m e)
     - JSString.digits10 (fst (JSString.exact_decimal m e))) = true.
Proof.
  intros Hb. unfold JSString.exact_decimal, JSString.reads_back. cbn [fst snd].
  destruct (Z.leb_spec 0 e) as [He|He].
  - replace (_ + 0 - _) with 0 by lia.
    unfold decimal_to_spec.
    assert (0 < 2 ^ e) by (apply Z.pow_pos_nonneg; lia).
    destruct (Z.leb_spec (Zpos m * 2 ^ e) 0); [lia|].
    cbn [Z.leb Z.compare]. rewrite Z.pow_0_r, Z.mul_1_r.
    rewrite (round_ratio_integer false m e Hb He).
    rewrite Pos.eqb_refl, Z.eqb_refl. reflexivity.
  - match goal with |- context [decimal_to_spec false ?s ?x] =>
      replace x with e by lia end.
    unfold decimal_to_spec.
    assert (0 < 5 ^ (- e)) by (apply Z.pow_pos_nonneg; lia).
    destruct (Z.leb_spec (Zpos m * 5 ^ (- e)) 0); [lia|].
    destruct (Z.leb_spec 0 e); [lia|].
    rewrite (round_ratio_fraction false m e Hb He).
    rewrite Pos.eqb_refl, Z.eqb_refl. reflexivity.
Qed.

Import JSString.

(** ** Number to String and back *)

Lemma shortest_from_reads_back (fuel : nat) (m : positive) (e vn vd n0 : Z) :
  forall k s n,
    shortest_from fuel m e vn vd n0 k = Some (s, n) ->
    reads_back m e s (n - digits10 s) = true.
Proof.
  induction fuel as [|fuel IH]; intros k s n H; [discriminate H|].
  cbn [shortest_from] in H.
  destruct (filter (acceptable m e k) (candidates vn vd n0 k)) as [|c cs] eqn:E.
  - apply (IH _ _ _ H).
  - injection H as ->.
    assert (Hin : In (s, n) (filter (acceptable m e k) (candidates vn vd n0 k))).
    { rewrite E. left. reflexivity. }
    apply filter_In in Hin as [_ Hacc]. unfold acceptable in Hacc.
    apply andb_true_iff in Hacc as [Hk Hr]. apply Z.eqb_eq in Hk.
    rewrite Hk. exact Hr.
Qed.

(** The digits chosen for a binary64 value read back as it. *)
Lemma shortest_decimal_reads_back (m : positive) (e : Z) :
  bounded prec emax m e = true ->
  reads_back m e (fst (shortest_decimal m e))
    (snd (shortest_decimal m e) - digits10 (fst (shortest_decimal m e))) = true.
Proof.
  intros Hb. unfold shortest_decimal.
  destruct (shortest_from 17 m e _ _ _ 1) as [[s n]|] eqn:E.
  - cbn [fst snd]. apply (shortest_from_reads_back _ _ _ _ _ _ _ _ _ E).
  - apply exact_decimal_reads_back, Hb.
Qed.

Lemma reads_back_positive (m : positive) (e s x : Z) :
  reads_back m e s x = true -> 0 < s.
Proof.
  unfold reads_back, JSNumber.decimal_to_spec.
  destruct (Z.leb_spec s 0); [discriminate|lia].
Qed.

Lemma round_ratio_sign (neg : bool) (n d : Z) (b : bool) (m : positive) (e : Z) :
  JSNumber.round_ratio false n d = S754_finite b m e ->
  JSNumber.round_ratio neg n d = S754_finite neg m e.
Proof.
  unfold JSNumber.round_ratio. cbv zeta.
  set (m2 := if _ =? 2 ^ 53 then 2 ^ 52 else _).
  set (q2 := if _ =? 2 ^ 53 then _ else _).
  destruct m2; try discriminate.
  destruct (q2 <=? 971); try discriminate.
  intros H. injection H as _ -> ->. reflexivity.
Qed.

Lemma reads_back_signed (neg : bool) (m : positive) (e s x : Z) :
  reads_back m e s x = true ->
  JSNumber.decimal_to_spec neg s x = S754_finite neg m e.
Proof.
  unfold reads_back. intros H.
  destruct (JSNumber.decimal_to_spec false s x) as [| | |b m' e'] eqn:E;
    try discriminate.
  apply andb_true_iff in H as [Hm He]. apply Pos.eqb_eq in Hm. apply Z.eqb_eq in He.
  subst m' e'. unfold JSNumber.decimal_to_spec in *.
  destruct (s <=? 0); [discriminate|].
  destruct (0 <=? x); apply (round_ratio_sign neg _ _ _ _ _ E).
Qed.

Lemma parseFloat_digit_head (c : ascii) (rest : string) :
  is_digit c = true ->
  parseFloat (String c rest) = parse_unsigned false (String c rest).
Proof.
  intros Hc. unfold parseFloat. cbn [trimStart].
  rewrite (digit_not_space c Hc). cbn [split_sign].
  rewrite (digit_not c "-" Hc eq_refl), (digit_not c "+" Hc eq_refl). reflexivity.
Qed.

Lemma parseFloat_minus (body : string) :
  parseFloat ("-" ++ body) = parse_unsigned true body.
Proof. reflexivity. Qed.

Lemma take_head (n : nat) (s : string) :
  (0 < n)%nat -> is_empty s = false ->
  exists c rest rest', s = String c rest /\ take n s = String c rest'.
Proof.
  destruct n, s; cbn; intros; try lia; try discriminate. eauto.
Qed.

(** What [format_digits] writes starts with a digit. *)
Lemma format_digits_head (d n : Z) :
  exists c rest, format_digits d n = String c rest /\ is_digit c = true.
Proof.
  unfold format_digits.
  pose proof (all_digits_decimal_string d) as Hall.
  pose proof (decimal_string_not_empty d) as Hne.
  set (digits := decimal_string d) in *.
  set (k := Z.of_nat (String.length digits)).
  destruct digits as [|c digits'] eqn:E; [discriminate Hne|].
  cbn [all_digits] in Hall. apply andb_true_iff in Hall as [Hc _].
  destruct ((k <=? n) && (n <=? 21)).
  - exists c. eexists. split; [reflexivity|exact Hc].
  - destruct ((0 <? n) && (n <=? 21)) eqn:C2.
    + apply andb_true_iff in C2 as [H0 _]. apply Z.ltb_lt in H0.
      destruct (Z.to_nat n) as [|j] eqn:Ej; [lia|].
      exists c. eexists. split; [reflexivity|exact Hc].
    + destruct ((-6 <? n) && (n <=? 0)).
      * exists "0"%char. eexists. split; reflexivity.
      * destruct (k =? 1); exists c; eexists; (split; [reflexivity|exact Hc]).
Qed.

(** Writing a finite nonzero Number and reading the text gives it back. *)
Lemma parseFloat_NumberToString_finite (v : float) (s : bool) (m : positive) (e : Z) :
  Prim2SF v = S754_finite s m e -> parseFloat (NumberToString v) = v.
Proof.
  intros E. pose proof (FloatAxioms.Prim2SF_valid v) as Hv. rewrite E in Hv.
  cbn [valid_binary] in Hv. unfold NumberToString. rewrite E.
  pose proof (shortest_decimal_reads_back m e Hv) as Hr.
  destruct (shortest_decimal m e) as [d n]. cbn [fst snd] in Hr.
  pose proof (reads_back_positive _ _ _ _ Hr) as Hd.
  assert (Hp : forall neg, parse_unsigned neg (format_digits d n)
                           = SF2Prim (S754_finite neg m e)).
  { intros neg. rewrite (parse_unsigned_format neg d n Hd).
    unfold JSNumber.decimal_to_Number. rewrite (reads_back_signed neg _ _ _ _ Hr).
    reflexivity. }
  rewrite <- (FloatAxioms.SF2Prim_Prim2SF v), E.
  destruct s.
  - rewrite parseFloat_minus. apply Hp.
  - destruct (format_digits_head d n) as (c & rest & Ef & Hc).
    cbn [append]. rewrite <- (Hp false), Ef. apply parseFloat_digit_head, Hc.
Qed.

(** The classes of a finite Number. *)
Lemma finite_cases (v : float) :
  JSNumber.Number_isFinite v = true ->
  (exists s, Prim2SF v = S754_zero s) \/ (exists s m e, Prim2SF v = S754_finite s m e).
Proof.
  unfold JSNumber.Number_isFinite, PrimFloat.is_nan, PrimFloat.is_infinity.
  rewrite !FloatAxioms.eqb_spec, FloatAxioms.abs_spec.
  destruct (Prim2SF v) as [s|s| |s m e]; cbn; intros H.
  - left. exists s. reflexivity.
  - destruct s; discriminate H.
  - discriminate H.
  - right. exists s, m, e. reflexivity.
Qed.

Lemma is_zero_spec (v : float) :
  PrimFloat.is_zero v = match Prim2SF v with S754_zero _ => true | _ => false end.
Proof.
  unfold PrimFloat.is_zero. rewrite FloatAxioms.eqb_spec.
  change (Prim2SF 0) with (S754_zero false).
  destruct (Prim2SF v) as [s|s| |s m e]; try reflexivity; destruct s; reflexivity.
Qed.

(** Writing a finite Number and reading the text gives it back, but for
    the sign of zero. *)
Lemma parseFloat_NumberToString (v : float) :
  JSNumber.Number_isFinite v = true ->
  parseFloat (NumberToString v) = read_back v.
Proof.
  intros Hf. unfold read_back. rewrite is_zero_spec.
  destruct (finite_cases v Hf) as [[s E]|(s & m & e & E)]; rewrite E.
  - unfold NumberToString. rewrite E. reflexivity.
  - apply (parseFloat_NumberToString_finite v s m e E).
Qed.

Lemma read_back_finite (v : float) :
  JSNumber.Number_isFinite v = true -> JSNumber.Number_isFinite (read_back v) = true.
Proof.
  intros H. unfold read_back. destruct (PrimFloat.is_zero v); [reflexivity|exact H].
Qed.

Import JSString.

(** ** The lines and fields of an export *)

Lemma token_app (a b : string) : token (a ++ b) = token a && token b.
Proof.
  induction a as [|c a IH]; cbn; [reflexivity|]. rewrite IH, !andb_assoc. reflexivity.
Qed.

Lemma no_space_app (a b : string) : no_space (a ++ b) = no_space a && no_space b.
Proof.
  induction a as [|c a IH]; cbn; [reflexivity|]. rewrite IH, !andb_assoc. reflexivity.
Qed.

Lemma token_no_space (s : string) : token s = true -> no_space s = true.
Proof.
  induction s as [|c s IH]; cbn; [reflexivity|]. intros H.
  apply andb_true_iff in H as [H1 H2]. apply andb_true_iff in H1 as [H1 _].
  rewrite H1, (IH H2). reflexivity.
Qed.

Lemma all_digits_token (s : string) : all_digits s = true -> token s = true.
Proof.
  induction s as [|c s IH]; cbn; [reflexivity|]. intros H.
  apply andb_true_iff in H as [Hc H].
  rewrite (digit_not_space c Hc), (digit_not c "," Hc eq_refl), (IH H). reflexivity.
Qed.

Lemma token_format_digits (d n : Z) : token (format_digits d n) = true.
Proof.
  unfold format_digits.
  pose proof (all_digits_token _ (all_digits_decimal_string d)) as Hd.
  pose proof (all_digits_token _ (all_digits_decimal_string (Z.abs (n - 1)))) as He.
  pose proof (all_digits_token _ (all_digits_take (Z.to_nat n) _ (all_digits_decimal_string d))) as Ht.
  pose proof (all_digits_token _ (all_digits_drop (Z.to_nat n) _ (all_digits_decimal_string d))) as Hr.
  pose proof (all_digits_token _ (all_digits_take 1 _ (all_digits_decimal_string d))) as Ht1.
  pose proof (all_digits_token _ (all_digits_drop 1 _ (all_digits_decimal_string d))) as Hr1.
  set (digits := decimal_string d) in *.
  destruct (_ && _); [|destruct (_ && _); [|destruct (_ && _)]];
    rewrite ?token_app, ?Hd, ?He, ?Ht, ?Hr;
    rewrite ?(all_digits_token _ (all_digits_zeros _)); try reflexivity.
  destruct (_ =? 1); destruct (_ <? 0);
    rewrite ?token_app, ?Hd, ?He, ?Ht1, ?Hr1; reflexivity.
Qed.

Lemma token_NumberToString (v : float) : token (NumberToString v) = true.
Proof.
  unfold NumberToString. destruct (Prim2SF v) as [s|s| |s m e]; try reflexivity.
  - destruct s; reflexivity.
  - destruct (shortest_decimal m e) as [d n].
    rewrite token_app, token_format_digits. destruct s; reflexivity.
Qed.

Lemma token_ToString (v : JSValue) : token (ToString v) = true.
Proof. destruct v; [reflexivity|apply token_NumberToString]. Qed.

(** *** Splitting on commas *)

Lemma rev_append_spec (s : string) : forall acc,
  rev_append acc s = (rev_append "" s ++ acc)%string.
Proof.
  induction s as [|c s IH]; intros acc; cbn [rev_append]; [reflexivity|].
  rewrite IH, (IH (String c "")), string_app_assoc. reflexivity.
Qed.

Lemma piece_rev_append (a : string) : forall cur,
  piece (rev_append cur a) = (piece cur ++ a)%string.
Proof.
  induction a as [|c a IH]; intros cur; cbn [rev_append].
  - rewrite string_app_nil_r. reflexivity.
  - rewrite IH. unfold piece. cbn [rev_append].
    rewrite (rev_append_spec cur (String c "")), string_app_assoc. reflexivity.
Qed.

Lemma piece_of_token (a : string) : piece (rev_append "" a) = a.
Proof. rewrite piece_rev_append. reflexivity. Qed.

(** Scanning a token puts it on the current piece. *)
Lemma split_commas_token (t : string) : forall after cur rest,
  token t = true ->
  (rest = "" \/ exists rest', rest = String "," rest') ->
  split_commas_from after cur "" (t ++ rest)
  = match rest with
    | String _ rest' =>
        piece (rev_append cur t) :: split_commas_from true "" "" rest'
    | EmptyString => [piece (rev_append cur t)]
    end.
Proof.
  induction t as [|c t IH]; intros after cur rest Ht Hrest.
  - cbn [append rev_append].
    destruct Hrest as [->|[rest' ->]]; reflexivity.
  - cbn [token] in Ht. apply andb_true_iff in Ht as [Hc Ht].
    apply andb_true_iff in Hc as [Hws Hcomma].
    apply negb_true_iff in Hws, Hcomma.
    cbn [append split_commas_from]. rewrite Hcomma, Hws.
    cbn [append]. rewrite (IH false (String c cur) rest Ht Hrest). reflexivity.
Qed.

Lemma split_commas_three (a b c : string) :
  token a = true -> token b = true -> token c = true ->
  split_commas (a ++ "," ++ b ++ "," ++ c) = [a; b; c].
Proof.
  intros Ha Hb Hc. unfold split_commas.
  rewrite (split_commas_token a false "" _ Ha) by (right; eexists; reflexivity).
  cbn [append].
  rewrite (split_commas_token b true "" _ Hb) by (right; eexists; reflexivity).
  pose proof (split_commas_token c true "" "" Hc (or_introl eq_refl)) as H3.
  rewrite string_app_nil_r in H3. rewrite H3, !piece_of_token. reflexivity.
Qed.

(** The row that parsing reads from the text of an exported row. *)
Lemma spec_row_text (r : JSObject) :
  match spec_row (row_text r) with Some w => [w] | None => [] end
  = row_read_back r.
Proof.
  unfold spec_row, row_text, row_read_back.
  rewrite split_commas_three by apply token_ToString.
  cbn [w0 w1 w2]. unfold triple.
  destruct (all_finite _ _ _); reflexivity.
Qed.

(** *** Splitting into lines *)

Lemma no_space_head (c : ascii) (s : string) :
  no_space (String c s) = true ->
  isWhiteSpace c = false /\ Ascii.eqb c LF = false /\ Ascii.eqb c CR = false
  /\ no_space s = true.
Proof.
  cbn [no_space]. intros H. apply andb_true_iff in H as [Hc Hs].
  apply negb_true_iff in Hc. repeat split; try assumption.
  - destruct (Ascii.eqb_spec c LF) as [->|]; [discriminate Hc|reflexivity].
  - destruct (Ascii.eqb_spec c CR) as [->|]; [discriminate Hc|reflexivity].
Qed.

(** Scanning a line without white space up to its newline, or to the end. *)
Lemma split_newlines_line (a : string) : forall cur rest,
  no_space a = true ->
  split_newlines_from cur (a ++ newline ++ rest)
  = piece (rev_append cur a) :: split_newlines_from "" rest.
Proof.
  induction a as [|c a IH]; intros cur rest Ha.
  - reflexivity.
  - apply no_space_head in Ha as (_ & Hlf & Hcr & Ha).
    cbn [append split_newlines_from]. rewrite Hlf, Hcr.
    apply (IH (String c cur) rest Ha).
Qed.

Lemma split_newlines_last (a : string) : forall cur,
  no_space a = true ->
  split_newlines_from cur a = [piece (rev_append cur a)].
Proof.
  induction a as [|c a IH]; intros cur Ha.
  - reflexivity.
  - apply no_space_head in Ha as (_ & Hlf & Hcr & Ha).
    cbn [split_newlines_from]. rewrite Hlf, Hcr.
    apply (IH (String c cur) Ha).
Qed.

Lemma trimEnd_no_space (s : string) : no_space s = true -> trimEnd s = s.
Proof.
  induction s as [|c s IH]; [reflexivity|]. intros H.
  apply no_space_head in H as (Hc & _ & _ & Hs).
  cbn [trimEnd]. rewrite (IH Hs), Hc, andb_false_r. reflexivity.
Qed.

Lemma trim_no_space (s : string) : no_space s = true -> trim s = s.
Proof.
  intros H. unfold trim.
  replace (trimStart s) with s.
  - apply trimEnd_no_space, H.
  - destruct s as [|c s]; [reflexivity|].
    apply no_space_head in H as (Hc & _). cbn [trimStart]. rewrite Hc. reflexivity.
Qed.

(** The lines of newline-joined lines that have no white space and are not
    empty are these lines. *)
Lemma nonblank_lines_join (ls : list string) : forall l,
  Forall (fun l => no_space l = true /\ is_empty l = false) (l :: ls) ->
  spec_nonblank_lines (join newline (l :: ls)) = l :: ls.
Proof.
  unfold spec_nonblank_lines, split_newlines.
  induction ls as [|l' ls IH]; intros l H.
  - inversion H as [|? ? [Hl Hne] _]; subst.
    cbn [join String.concat]. rewrite (split_newlines_last l "" Hl).
    rewrite piece_of_token. cbn [map filter].
    rewrite (trim_no_space l Hl), Hne. reflexivity.
  - inversion H as [|? ? [Hl Hne] H']; subst.
    change (join newline (l :: l' :: ls))
      with (l ++ newline ++ join newline (l' :: ls))%string.
    rewrite (split_newlines_line l "" _ Hl), piece_of_token.
    cbn [map filter]. rewrite (trim_no_space l Hl), Hne. cbn [negb].
    rewrite (IH l' H'). reflexivity.
Qed.

Lemma row_text_line (r : JSObject) :
  no_space (row_text r) = true /\ is_empty (row_text r) = false.
Proof.
  split.
  - unfold row_text. rewrite !no_space_app.
    rewrite !(token_no_space _ (token_ToString _)). reflexivity.
  - unfold row_text. destruct (ToString (Get r "x1")); reflexivity.
Qed.

(** The lines of an export are the header line and the text of each row. *)
Lemma nonblank_lines_toCsv (rows : list JSObject) :
  spec_nonblank_lines (toCsv rows) = "x1,x2,y" :: map row_text rows.
Proof.
  unfold toCsv. rewrite toCsv_loop. cbn [app].
  apply nonblank_lines_join. constructor; [split; reflexivity|].
  apply Forall_forall. intros l Hl. apply in_map_iff in Hl as (r & <- & _).
  apply row_text_line.
Qed.

(** Parsing an export: the header line has no row, and each row gives what
    [parseFloat] reads back from its three fields. *)
Lemma parse_toCsv (rows : list JSObject) :
  parseWeightsCsv (toCsv rows) = flat_map row_read_back rows.
Proof.
  rewrite parseWeightsCsv_spec. unfold spec_parse.
  rewrite nonblank_lines_toCsv.
  change (spec_skip_header ("x1,x2,y" :: map row_text rows))
    with ("x1,x2,y" :: map row_text rows).
  unfold spec_rows. cbn [flat_map].
  change (spec_row "x1,x2,y") with (@None Weights). cbn [app].
  induction rows as [|r rows IH]; [reflexivity|].
  cbn [map flat_map]. rewrite spec_row_text, IH. reflexivity.
Qed.

(** ** Export and parse *)

Lemma row_read_back_point (p : Point) :
  finite_point p -> row_read_back (Point_object p) = [point_triple p].
Proof.
  unfold finite_point, all_finite. cbn [forallb]. intros H.
  apply andb_true_iff in H as [H1 H]. apply andb_true_iff in H as [H2 H].
  apply andb_true_iff in H as [H3 _].
  unfold row_read_back. cbn [Point_object Get String.eqb Ascii.eqb Bool.eqb ToString].
  rewrite !parseFloat_NumberToString by assumption.
  unfold all_finite. cbn [forallb].
  rewrite !read_back_finite by assumption. reflexivity.
Qed.

Lemma row_read_back_weights (w : Weights) : row_read_back (Weights_object w) = [].
Proof. reflexivity. Qed.

(** C7, as amended.  [toCsv] writes the header [x1,x2,y] and the properties
    x1, x2 and y of each row; parsing what it writes gives, row by row, the
    triple that [parseFloat] reads from the three fields, if all three are
    finite.  So the export of a data set with finite coordinates and
    labels parses to one triple per point, in order, with exactly the
    point's Numbers but 0 for -0; and the export of a sequence of weight
    triples, which have none of the three properties, parses to the empty
    sequence. *)
Theorem export_parses_back (data : list Point) (ws : list Weights)
    (rows : list JSObject) :
  Forall finite_point data ->
  parseWeightsCsv (toCsv (map Point_object data)) = map point_triple data
  /\ parseWeightsCsv (toCsv (map Weights_object ws)) = []
  /\ parseWeightsCsv (toCsv rows) = flat_map row_read_back rows.
Proof.
  intros Hfin. rewrite !parse_toCsv. split; [|split; [|reflexivity]].
  - induction Hfin as [|p data Hp _ IH]; [reflexivity|].
    cbn [map flat_map]. rewrite (row_read_back_point p Hp), IH. reflexivity.
  - induction ws as [|w ws IH]; [reflexivity|].
    cbn [map flat_map]. rewrite row_read_back_weights, IH. reflexivity.
Qed.

Lemma export_parses_back_witness :
  parseWeightsCsv (toCsv (map Point_object example_points))
  = map point_triple example_points.
Proof.
  apply (export_parses_back example_points [] []).
  repeat constructor.
Defined.

(** C7 as stated fails.  The export of the weight triple {1,2,3} reads
    "undefined,undefined,undefined" and parses to no row at all; and a
    triple fed through as a point comes back with 0 for its -0. *)
Lemma weights_do_not_round_trip :
  parseWeightsCsv (toCsv (map Weights_object [triple 1 2 3])) <> [triple 1 2 3]
  /\ parseWeightsCsv (toCsv [Point_object {| x1 := (-0)%float; x2 := 1; y := 2 |}])
     <> [triple (-0) 1 2].
Proof.
  split.
  - vm_compute. discriminate.
  - intros H.
    apply (f_equal (fun l => match l with
                             | w :: _ => (1 / w0 w <? 0)%float
                             | [] => false
                             end)) in H.
    vm_compute in H. discriminate H.
Qed.

(** * More of the code *)

(** ** The generator's draws *)

(** The Number of [k / 2^32] for a positive 32-bit [k]: a significand of
    53 bits with an exponent of at most -53. *)
Lemma unit_interval_exponent (k : Z) :
  0 < k < two32 ->
  exists m e, Prim2SF (Mulberry32.unit_interval k) = S754_finite false m e
              /\ e <= -53.
Proof.
  intros Hk. unfold Mulberry32.unit_interval, of_uint32, two32 in *.
  rewrite FloatAxioms.div_spec, FloatAxioms.of_uint63_spec, Uint63.of_Z_spec.
  rewrite Z.mod_small by (change wB with 9223372036854775808; lia).
  destruct k as [|p|p]; try lia.
  assert (Hd : Zpos (digits2_pos p) <= 32).
  { apply digits2_pos_bound; [lia|]. change (2 ^ 32) with 4294967296. lia. }
  destruct (binary_normalize_small p ltac:(lia)) as (m & -> & Hm).
  change (Prim2SF 4294967296) with (S754_finite false 4503599627370496 (-20)).
  unfold SF64div. rewrite SFdiv_two32 by (try exact Hm; lia).
  eexists _, _. split; [reflexivity|lia].
Qed.

Lemma unit_interval_range (k : Z) :
  0 <= k < two32 ->
  (0 <=? Mulberry32.unit_interval k)%float = true
  /\ (Mulberry32.unit_interval k <? 1)%float = true.
Proof.
  intros Hk. destruct (Z.eq_dec k 0) as [->|Hnz]; [split; reflexivity|].
  destruct (unit_interval_exponent k ltac:(lia)) as (m & e & H & He).
  rewrite FloatAxioms.leb_spec, FloatAxioms.ltb_spec, H.
  change (Prim2SF 0) with (S754_zero false).
  change (Prim2SF 1) with (S754_finite false 4503599627370496 (-52)).
  unfold SFleb, SFltb. cbn [SFcompare].
  destruct (Z.compare_spec e (-52)); try lia; split; reflexivity.
Qed.

(** X1.  Whatever the counter, a call of the function [mulberry32] returns
    gives a Number u with 0 <= u < 1. *)
Theorem rng_unit_interval (t : Z) :
  let u := fst (Mulberry32.next t) in
  (0 <=? u)%float = true /\ (u <? 1)%float = true.
Proof.
  intros u. unfold u. rewrite fst_next. apply unit_interval_range, mix_range.
Qed.



Lemma mulberry32_wrap (seed k : Z) :
  Mulberry32.mulberry32 (seed + k * two32) = Mulberry32.mulberry32 seed.
Proof.
  unfold Mulberry32.mulberry32. rewrite !ushr_0. unfold ToUint32.
  apply Z.mod_add. unfold two32. lia.
Qed.

(** X3.  The seed is taken modulo 2^32 ([seed >>> 0]): seeds that differ by
    a multiple of 2^32 give the same data set, a seed between 0 and 2^32
    is used as it is, and a negative seed -s stands for 2^32 - s. *)
Theorem generateData_seed_wraps (Math_log Math_cos : float -> float)
    (fuel : nat) (rev : Revision) (n seed k : Z) :
  generateData Math_log Math_cos fuel rev n (seed + k * two32)
  = generateData Math_log Math_cos fuel rev n seed
  /\ 0 <= Mulberry32.mulberry32 seed < two32
  /\ Mulberry32.mulberry32 seed = seed mod two32.
Proof.
  split; [|split].
  - unfold generateData. rewrite mulberry32_wrap. reflexivity.
  - unfold Mulberry32.mulberry32. apply ushr_range. lia.
  - unfold Mulberry32.mulberry32. rewrite ushr_0. reflexivity.
Qed.

(** ** The weights the parser returns *)

Lemma spec_rows_finite lines : Forall finite_weights (spec_rows lines).
Proof.
  unfold spec_rows. induction lines as [|l lines IH]; cbn [flat_map]; [constructor|].
  apply Forall_app. split; [|exact IH].
  unfold spec_row.
  destruct (JSString.split_commas l) as [|a [|b [|c parts]]]; try constructor.
  destruct (all_finite _ _ _) eqn:E; constructor; [exact E|constructor].
Qed.

Lemma parseWeightsCsv_finite text : Forall finite_weights (parseWeightsCsv text).
Proof. rewrite parseWeightsCsv_spec. apply spec_rows_finite. Qed.

(** X4.  Every triple the parser returns has three finite Numbers, so the
    line drawn for a parsed triple is never the empty line of the
    non-finite case: it is the sloped segment, the vertical segment, or
    empty only when both w1 and w2 are within 1e-12 of 0. *)
Theorem parsed_weights_finite (text : string) :
  Forall finite_weights (parseWeightsCsv text)
  /\ forall w c, In w (parseWeightsCsv text) ->
       Chart.line (setDecisionLineFromWeights w c)
       = if (1e-12 <? JSNumber.Math_abs (w2 w))%float
         then sloped_segment w (Chart.x_min c) (Chart.x_max c)
         else if (1e-12 <? JSNumber.Math_abs (w1 w))%float
              then vertical_segment w (Chart.y_min c) (Chart.y_max c)
              else [].
Proof.
  split; [apply parseWeightsCsv_finite|].
  intros w c Hin.
  pose proof (parseWeightsCsv_finite text) as F.
  rewrite Forall_forall in F. specialize (F w Hin).
  destruct w as [a b d]. unfold finite_weights in F. cbn [w0 w1 w2] in *.
  unfold setDecisionLineFromWeights, Chart.set_line, decision_line.
  cbn [Chart.line]. rewrite F. reflexivity.
Qed.

(** ** What the handlers keep *)

Lemma weights_at_steps s s' i :
  WEIGHT_STEPS s' = WEIGHT_STEPS s -> weights_at s' i = weights_at s i.
Proof. intros H. unfold weights_at. rewrite H. reflexivity. Qed.

Lemma loaded_steps s s' :
  WEIGHT_STEPS s' = WEIGHT_STEPS s -> loaded s' = loaded s.
Proof. intros H. unfold loaded. rewrite H. reflexivity. Qed.

Lemma Z_iter_succ {A : Type} (f : A -> A) (x : A) k :
  0 <= k -> Z.iter (Z.succ k) f x = f (Z.iter k f x).
Proof.
  intros Hk. destruct k as [|p|p]; try lia; [reflexivity|].
  change (Z.succ (Zpos p)) with (Zpos p + 1). cbn [Z.add Z.iter].
  rewrite Pos.add_1_r. apply Pos.iter_succ.
Qed.

Lemma Z_iter_succ_r {A : Type} (f : A -> A) (x : A) k :
  0 <= k -> Z.iter (Z.succ k) f x = Z.iter k f (f x).
Proof.
  intros Hk. destruct k as [|p|p]; try lia; [reflexivity|].
  change (Z.succ (Zpos p)) with (Zpos p + 1). cbn [Z.add Z.iter].
  rewrite Pos.add_1_r. apply Pos.iter_succ_r.
Qed.

Lemma line_for_cursor_state s s' c :
  WEIGHT_STEPS s' = WEIGHT_STEPS s -> stepIndex s' = stepIndex s ->
  line_for_cursor s' c = line_for_cursor s c.
Proof.
  intros Hw Hi. unfold line_for_cursor. rewrite Hi, (weights_at_steps s s' _ Hw).
  reflexivity.
Qed.

Lemma next_seed_range seed : 0 <= seed -> 0 <= next_seed seed < 233280.
Proof.
  intros H. unfold next_seed. rewrite Z.rem_mod_nonneg by lia.
  apply Z.mod_pos_bound. lia.
Qed.

Section Kept.

Variables Math_log Math_cos : float -> float.
Variable fuel : nat.
Variable rev : Revision.

Lemma consistent_advance s :
  consistent Math_log Math_cos fuel rev s -> stepIndex s < loaded s - 1 -> consistent Math_log Math_cos fuel rev (advance s).
Proof.
  intros [Hc Hl Hlab Hb Hbl Hr Hs Ht Hseed Hd] Hlt.
  destruct (weights_at_in_range s (stepIndex s + 1)
              ltac:(unfold cursor_in_range in Hc; lia)) as [w Hw].
  rewrite (advance_in_range s w Hw).
  constructor; cbn [DATA chart currentSeed WEIGHT_STEPS stepIndex animTimer];
    try assumption.
  - unfold cursor_in_range, loaded in *. cbn [stepIndex WEIGHT_STEPS]. lia.
  - unfold line_for_cursor. cbn [stepIndex].
    change (weights_at _ (stepIndex s + 1)) with (weights_at s (stepIndex s + 1)).
    rewrite Hw. reflexivity.
  - cbn. destruct (Z.ltb_spec (stepIndex s + 1) 0); [|reflexivity].
    unfold cursor_in_range in Hc. lia.
Qed.

Lemma consistent_stopAnimation s : consistent Math_log Math_cos fuel rev s -> consistent Math_log Math_cos fuel rev (stopAnimation s).
Proof.
  intros [Hc Hl Hlab Hb Hbl Hr Hs Ht Hseed Hd].
  constructor; cbn [stopAnimation with_animTimer DATA chart currentSeed
                    WEIGHT_STEPS stepIndex animTimer]; try assumption.
  intros H. congruence.
Qed.

Lemma consistent_step s : consistent Math_log Math_cos fuel rev s -> consistent Math_log Math_cos fuel rev (step s).
Proof.
  intros H. unfold step. destruct (loaded s =? 0); [exact H|].
  destruct (Z.ltb_spec (stepIndex s) (loaded s - 1)); [|exact H].
  apply consistent_advance; assumption.
Qed.

Lemma consistent_tick s : consistent Math_log Math_cos fuel rev s -> consistent Math_log Math_cos fuel rev (tick s).
Proof.
  intros H. unfold tick.
  destruct (Z.ltb_spec (stepIndex s) (loaded s - 1)).
  - apply consistent_advance; assumption.
  - apply consistent_stopAnimation, H.
Qed.

Lemma consistent_animate slider s : consistent Math_log Math_cos fuel rev s -> consistent Math_log Math_cos fuel rev (animate slider s).
Proof.
  intros H. unfold animate.
  destruct (Z.eqb_spec (loaded s) 0) as [|Hn]; [exact H|].
  destruct (animTimer s) eqn:E; [apply consistent_stopAnimation, H|].
  destruct H as [Hc Hl Hlab Hb Hbl Hr Hs Ht Hseed Hd].
  constructor; cbn [with_animTimer DATA chart currentSeed
                    WEIGHT_STEPS stepIndex animTimer]; try assumption.
  intros _. change (loaded (with_animTimer _ s)) with (loaded s).
  unfold loaded in *. lia.
Qed.

Lemma consistent_resetAnim s : consistent Math_log Math_cos fuel rev s -> consistent Math_log Math_cos fuel rev (resetAnim s).
Proof.
  intros [Hc Hl Hlab Hb Hbl Hr Hs Ht Hseed Hd].
  constructor; try assumption; try reflexivity.
  - apply cursor_in_range_resetAnim.
  - intros H. exfalso. apply H. reflexivity.
Qed.

Lemma consistent_loadWeights value s :
  consistent Math_log Math_cos fuel rev s -> consistent Math_log Math_cos fuel rev (loadWeights value s).
Proof.
  intros [Hc Hl Hlab Hb Hbl Hr Hs Ht Hseed Hd].
  constructor; try assumption; try reflexivity.
  - apply cursor_in_range_loadWeights.
  - apply parseWeightsCsv_finite.
  - intros H. exfalso. apply H. reflexivity.
Qed.

(** What the regenerate handler returns, whenever it returns. *)
Lemma consistent_regenerate s s' :
  consistent Math_log Math_cos fuel rev s ->
  regenerate Math_log Math_cos fuel rev s = Returns s' ->
  consistent Math_log Math_cos fuel rev s' /\ currentSeed s' = next_seed (currentSeed s).
Proof.
  intros [Hc Hl Hlab Hb Hbl Hr Hs Ht Hseed Hd]. unfold regenerate.
  set (s1 := match rev with
             | AppJs => with_stepIndex (-1) (stopAnimation s)
             | Part000 => s
             end).
  assert (Hseed1 : currentSeed s1 = currentSeed s) by (destruct rev; reflexivity).
  assert (Hsteps1 : WEIGHT_STEPS s1 = WEIGHT_STEPS s) by (destruct rev; reflexivity).
  rewrite Hseed1. fold (next_seed (currentSeed s)).
  fold (seed_used (next_seed (currentSeed s))).
  destruct (generateData Math_log Math_cos fuel rev 200
              (seed_used (next_seed (currentSeed s)))) as [data| |] eqn:E;
    try discriminate.
  pose proof (next_seed_range (currentSeed s) ltac:(lia)) as Hrange.
  destruct rev.
  - (* app.js *)
    cbn [redraw_line]. intros H. injection H as <-.
    split; [|reflexivity].
    constructor; try assumption; try reflexivity.
    + apply cursor_in_range_baseline. reflexivity.
    + repeat split.
    + intros H. exfalso. apply H. reflexivity.
  - (* part_000 *)
    subst s1. unfold redraw_line.
    set (s2 := {| DATA := data; chart := rescale data (chart s);
                  currentSeed := next_seed (currentSeed s);
                  WEIGHT_STEPS := WEIGHT_STEPS s; stepIndex := stepIndex s;
                  animTimer := animTimer s |}).
    change (loaded s2) with (loaded s). change (stepIndex s2) with (stepIndex s).
    change (weights_at s2 (stepIndex s)) with (weights_at s (stepIndex s)).
    unfold cursor_in_range in Hc.
    destruct (Z.ltb_spec 0 (loaded s)) as [Hpos|Hzero].
    + destruct (Z.leb_spec 0 (stepIndex s)) as [Hon|Hoff].
      * destruct (weights_at_in_range s (stepIndex s) ltac:(lia)) as [w Hw].
        rewrite Hw. intros H. injection H as <-. split; [|reflexivity].
        constructor; try assumption; try reflexivity.
        -- rewrite (line_for_cursor_state s) by reflexivity.
           unfold line_for_cursor. rewrite Hw. reflexivity.
        -- cbn. destruct (Z.ltb_spec (stepIndex s) 0); [lia|reflexivity].
        -- repeat split.
      * intros H. injection H as <-. split; [|reflexivity].
        constructor; try assumption; try reflexivity.
        -- rewrite (line_for_cursor_state s) by reflexivity.
           unfold line_for_cursor, weights_at.
           destruct (Z.ltb_spec (stepIndex s) 0); [|lia]. reflexivity.
        -- cbn. destruct (Z.ltb_spec (stepIndex s) 0); [reflexivity|lia].
        -- repeat split.
    + intros H. injection H as <-. split; [|reflexivity].
      assert (Hi : stepIndex s = -1) by lia.
      constructor; try assumption; try reflexivity.
      * rewrite (line_for_cursor_state s) by reflexivity.
        unfold line_for_cursor. rewrite Hi. reflexivity.
      * repeat split.
Qed.

Lemma consistent_start s :
  start Math_log Math_cos fuel rev = Returns s ->
  consistent Math_log Math_cos fuel rev s /\ currentSeed s = 123.
Proof.
  unfold start.
  destruct (generateData Math_log Math_cos fuel rev 200 123) as [data| |] eqn:E;
    try discriminate.
  intros H. injection H as <-. split; [|reflexivity].
  constructor; try reflexivity.
  - apply cursor_in_range_baseline. reflexivity.
  - repeat split.
  - constructor.
  - intros H. exfalso. apply H. reflexivity.
  - cbn. lia.
  - exact E.
Qed.

Hypothesis enough_fuel : (2 <= fuel)%nat.

Lemma consistent_handle ev s :
  consistent Math_log Math_cos fuel rev s ->
  exists s', handle Math_log Math_cos fuel rev ev s = Returns s'
    /\ consistent Math_log Math_cos fuel rev s'
    /\ currentSeed s'
       = match ev with
         | Regenerate => next_seed (currentSeed s)
         | _ => currentSeed s
         end.
Proof.
  intros H. destruct ev as [|value| |slider| |]; cbn [handle].
  - destruct (cursor_in_range_regenerate Math_log Math_cos fuel enough_fuel rev s
                (@cursor_ok _ _ _ _ _ H)) as (s' & E & _).
    exists s'. split; [exact E|]. apply consistent_regenerate; assumption.
  - eexists. split; [reflexivity|]. split; [apply consistent_loadWeights, H|reflexivity].
  - eexists. split; [reflexivity|]. split; [apply consistent_step, H|].
    unfold step. destruct (loaded s =? 0); [reflexivity|].
    destruct (stepIndex s <? loaded s - 1); [|reflexivity].
    unfold advance. destruct (weights_at _ _); reflexivity.
  - eexists. split; [reflexivity|]. split; [apply consistent_animate, H|].
    unfold animate. destruct (loaded s =? 0); [reflexivity|].
    destruct (animTimer s); reflexivity.
  - destruct (animTimer s) eqn:E; eexists; (split; [reflexivity|]).
    + split; [apply consistent_tick, H|].
      unfold tick. destruct (stepIndex s <? loaded s - 1); [|reflexivity].
      unfold advance. destruct (weights_at _ _); reflexivity.
    + split; [exact H|reflexivity].
  - eexists. split; [reflexivity|]. split; [apply consistent_resetAnim, H|reflexivity].
Qed.

Lemma consistent_run evs : forall s,
  consistent Math_log Math_cos fuel rev s ->
  exists s', run Math_log Math_cos fuel rev evs s = Returns s'
    /\ consistent Math_log Math_cos fuel rev s'
    /\ currentSeed s' = seed_after (regenerations evs) (currentSeed s).
Proof.
  induction evs as [|ev evs IH]; intros s H; cbn [run].
  - exists s. split; [reflexivity|]. split; [exact H|reflexivity].
  - destruct (consistent_handle ev s H) as (s1 & -> & H1 & Hseed).
    destruct (IH s1 H1) as (s' & E & H' & Hseed').
    exists s'. split; [exact E|]. split; [exact H'|].
    rewrite Hseed', Hseed. unfold regenerations, seed_after.
    destruct ev; cbn [filter List.length]; try reflexivity.
    rewrite Nat2Z.inj_succ, Z_iter_succ_r by lia. reflexivity.
Qed.

(** From the start of the page, every sequence of events is handled and
    leaves a consistent state. *)
Lemma consistent_reachable evs :
  exists s0 s,
    start Math_log Math_cos fuel rev = Returns s0
    /\ run Math_log Math_cos fuel rev evs s0 = Returns s
    /\ consistent Math_log Math_cos fuel rev s
    /\ currentSeed s = seed_after (regenerations evs) 123.
Proof.
  destruct (start_returns Math_log Math_cos fuel enough_fuel rev) as (s0 & E0 & _).
  destruct (consistent_start s0 E0) as (H0 & Hseed0).
  destruct (consistent_run evs s0 H0) as (s & E & H & Hseed).
  exists s0, s. rewrite Hseed0 in Hseed. auto.
Qed.

End Kept.

(** ** The seeds *)

Lemma next_seed_mod seed :
  0 <= seed -> next_seed seed = (seed * 9301 + 49297) mod 233280.
Proof. intros H. unfold next_seed. apply Z.rem_mod_nonneg; lia. Qed.

(** Below 233280 the seed step loses nothing: 9301 has an inverse modulo
    233280. *)
Lemma next_seed_injective a b :
  0 <= a < 233280 -> 0 <= b < 233280 -> next_seed a = next_seed b -> a = b.
Proof.
  intros Ha Hb H. rewrite !next_seed_mod in H by lia.
  assert (E : (123901 * (a * 9301 + 49297)) mod 233280
              = (123901 * (b * 9301 + 49297)) mod 233280).
  { rewrite <- (Z.mul_mod_idemp_r 123901 (a * 9301 + 49297)) by lia.
    rewrite <- (Z.mul_mod_idemp_r 123901 (b * 9301 + 49297)) by lia.
    rewrite H. reflexivity. }
  replace (123901 * (a * 9301 + 49297))
    with (a + 6107947597 + (4940 * a) * 233280) in E by lia.
  replace (123901 * (b * 9301 + 49297))
    with (b + 6107947597 + (4940 * b) * 233280) in E by lia.
  rewrite !Z.mod_add in E by lia.
  rewrite <- (Z.add_mod_idemp_r a), <- (Z.add_mod_idemp_r b) in E by lia.
  change (6107947597 mod 233280) with 210637 in E.
  assert (Hm : (a - b) mod 233280 = 0).
  { replace (a - b) with ((a + 210637) - (b + 210637)) by lia.
    rewrite Zminus_mod, E, Z.sub_diag. reflexivity. }
  apply Z.mod_divide in Hm; [|lia]. destruct Hm as [q Hq]. clear H E. lia.
Qed.

Lemma seed_after_succ k seed :
  0 <= k -> seed_after (Z.succ k) seed = next_seed (seed_after k seed).
Proof. intros H. unfold seed_after. apply Z_iter_succ, H. Qed.

Lemma seed_after_range k seed :
  0 <= seed < 233280 -> 0 <= seed_after k seed < 233280.
Proof.
  intros H. destruct (Z.le_gt_cases 0 k) as [Hk|Hk].
  - revert k Hk. apply natlike_ind; [exact H|].
    intros k Hk IH. rewrite seed_after_succ by exact Hk.
    apply next_seed_range. lia.
  - unfold seed_after. destruct k; try lia. exact H.
Qed.

Lemma visits_false target s k :
  0 <= k -> visits target k s = false ->
  forall j, 0 <= j < k -> seed_after j s <> target.
Proof.
  unfold visits, seed_after. intros Hk. revert k Hk.
  set (scan := fun '(s, hit) => (next_seed s, hit || (s =? target))).
  assert (Hfst : forall k, 0 <= k ->
            fst (Z.iter k scan (s, false)) = Z.iter k next_seed s).
  { apply natlike_ind; [reflexivity|]. intros k Hk IH.
    rewrite !Z_iter_succ by exact Hk. rewrite <- IH.
    destruct (Z.iter k scan (s, false)). reflexivity. }
  apply (natlike_ind (fun k => snd (Z.iter k scan (s, false)) = false ->
            forall j, 0 <= j < k -> Z.iter j next_seed s <> target)).
  - intros _ j Hj. lia.
  - intros k Hk IH H j Hj. rewrite Z_iter_succ in H by exact Hk.
    specialize (Hfst k Hk).
    destruct (Z.iter k scan (s, false)) as [sk hit]. cbn [fst snd scan] in *.
    apply orb_false_iff in H. destruct H as [Hhit Hne].
    destruct (Z.eq_dec j k) as [->|Hjk].
    + rewrite <- Hfst. apply Z.eqb_neq, Hne.
    + apply IH; [exact Hhit|lia].
Qed.

Lemma seed_after_succ_r k seed :
  0 <= k -> seed_after (Z.succ k) seed = seed_after k (next_seed seed).
Proof. intros H. unfold seed_after. apply Z_iter_succ_r, H. Qed.

Lemma scan_fst target s k :
  0 <= k ->
  fst (Z.iter k (fun '(s, hit) => (next_seed s, hit || (s =? target))) (s, false))
  = seed_after k s.
Proof.
  unfold seed_after. revert k. apply natlike_ind; [reflexivity|].
  intros k Hk IH. rewrite !Z_iter_succ by exact Hk. rewrite <- IH.
  destruct (Z.iter k _ (s, false)). reflexivity.
Qed.

Lemma next_seed63_spec (x : int) :
  0 <= Uint63.to_Z x < 233280 ->
  Uint63.to_Z (next_seed63 x) = next_seed (Uint63.to_Z x).
Proof.
  intros Hx. unfold next_seed63.
  rewrite Uint63.mod_spec, Uint63.add_spec, Uint63.mul_spec.
  change (Uint63.to_Z 9301) with 9301. change (Uint63.to_Z 49297) with 49297.
  change (Uint63.to_Z 233280) with 233280.
  change wB with 9223372036854775808.
  rewrite (Z.mod_small (Uint63.to_Z x * 9301)) by lia.
  rewrite (Z.mod_small (Uint63.to_Z x * 9301 + 49297)) by lia.
  symmetry. apply next_seed_mod. lia.
Qed.

(** The scan on machine integers computes the scan on seeds. *)
Lemma scan63_spec (target : int) (k : positive) (x : int) (tz xz : Z) :
  tz = Uint63.to_Z target -> xz = Uint63.to_Z x -> 0 <= xz < 233280 ->
  Pos.iter (fun '(s, hit) => (next_seed s, hit || (s =? tz))) (xz, false) k
  = (Uint63.to_Z (fst (scan63 target k x)), snd (scan63 target k x))
  /\ 0 <= Uint63.to_Z (fst (scan63 target k x)) < 233280.
Proof.
  intros -> -> Hx.
  assert (Hstep : forall x hit, 0 <= Uint63.to_Z x < 233280 ->
            (next_seed (Uint63.to_Z x), hit || (Uint63.to_Z x =? Uint63.to_Z target))
            = (Uint63.to_Z (next_seed63 x), hit || (x =? target)%uint63)
            /\ 0 <= Uint63.to_Z (next_seed63 x) < 233280).
  { intros y hit Hy. rewrite next_seed63_spec by exact Hy.
    split; [|apply next_seed_range; lia]. f_equal. f_equal.
    destruct (Uint63.eqbP y target) as [He|Hne].
    - rewrite He. apply Z.eqb_refl.
    - apply Z.eqb_neq, Hne. }
  unfold scan63. induction k as [|k IH] using Pos.peano_ind.
  - apply Hstep, Hx.
  - rewrite !Pos.iter_succ. destruct IH as [E R]. rewrite E.
    destruct (Pos.iter _ (x, false) k) as [x' hit']. cbn [fst snd] in *.
    apply Hstep, R.
Qed.

Lemma seed_first_return :
  visits 123 233279 (next_seed 123) = false
  /\ seed_after 233280 123 = 123.
Proof.
  assert (E63 : scan63 123 233279 26920 = (123%uint63, false))
    by (vm_compute; reflexivity).
  destruct (scan63_spec 123 233279 26920 123 (next_seed 123)) as [E _];
    [reflexivity|reflexivity|vm_compute; split; [discriminate|reflexivity]|].
  rewrite E63 in E. cbn [fst snd] in E.
  split.
  - unfold visits. cbn [Z.iter]. rewrite E. reflexivity.
  - change 233280 with (Z.succ 233279). rewrite seed_after_succ_r by lia.
    rewrite <- (scan_fst 123) by lia. cbn [Z.iter]. rewrite E. reflexivity.
Qed.

(** X5.  The seeds of the regenerate handler, 123 at the start, go through
    233280 different values before they repeat: they are all between 0 and
    233279, no two of the first 233280 are equal, and the 233280th
    regeneration is back at 123. *)
Theorem seed_cycle :
  (forall k, 0 <= seed_after k 123 < 233280)
  /\ (forall i j, 0 <= i < j -> j < 233280 ->
        seed_after i 123 <> seed_after j 123)
  /\ seed_after 233280 123 = 123.
Proof.
  destruct seed_first_return as [Hfirst Hback].
  split; [|split; [|exact Hback]].
  - intros k. apply seed_after_range. lia.
  - intros i j [Hi Hij]. revert j Hij.
    pattern i. apply natlike_ind; [| |exact Hi]; clear i Hi.
    + intros j Hij Hj H. change (seed_after 0 123) with 123 in H.
      replace j with (Z.succ (j - 1)) in H by lia.
      rewrite seed_after_succ_r in H by lia.
      apply (visits_false 123 (next_seed 123) 233279 ltac:(lia) Hfirst (j - 1)
               ltac:(lia)).
      symmetry. exact H.
    + intros i Hi IH j Hij Hj H.
      replace j with (Z.succ (j - 1)) in H by lia.
      rewrite !seed_after_succ in H by lia.
      apply next_seed_injective in H;
        [|apply seed_after_range; lia|apply seed_after_range; lia].
      apply (IH (j - 1)); [lia|lia|exact H].
Qed.

(** ** The page after any events *)

Lemma series_all l data :
  (l =? l)%float = true -> Forall (has_label l) data ->
  series l data = map plotted data.
Proof.
  intros Hl H. unfold series. induction H as [|p data Hp _ IH]; [reflexivity|].
  cbn [filter]. rewrite Hp, Hl. cbn [map]. rewrite IH. reflexivity.
Qed.

Lemma series_none l l' data :
  (l' =? l)%float = false -> Forall (has_label l') data -> series l data = [].
Proof.
  intros Hl H. unfold series. induction H as [|p data Hp _ IH]; [reflexivity|].
  cbn [filter]. rewrite Hp, Hl. exact IH.
Qed.

Lemma series_app l a b : series l (a ++ b) = series l a ++ series l b.
Proof. unfold series. rewrite filter_app, map_app. reflexivity. Qed.

(** The two series of a generated data set: the points of label 0, then
    the points of label 1, together all the points in their order. *)
Lemma series_generated Math_log Math_cos fuel rev n seed data :
  0 <= n ->
  generateData Math_log Math_cos fuel rev n seed = Returns data ->
  series 0%float data ++ series 1%float data = map plotted data
  /\ Z.of_nat (List.length (series 0%float data)) = (n + 1) / 2
  /\ Z.of_nat (List.length (series 1%float data)) = n / 2
  /\ Z.of_nat (List.length data) = n.
Proof.
  intros Hn E.
  destruct (generateData_split Math_log Math_cos fuel rev n seed data Hn E)
    as (zeros & ones & -> & Hz & Ho & Lz & Lo).
  rewrite !series_app.
  rewrite (series_all 0%float zeros eq_refl Hz),
    (series_none 0%float 1%float ones eq_refl Ho),
    (series_none 1%float 0%float zeros eq_refl Hz),
    (series_all 1%float ones eq_refl Ho).
  rewrite app_nil_r. cbn [app]. rewrite map_app.
  repeat split; rewrite ?length_app, ?length_map; cbn [List.length];
    try assumption.
  rewrite Nat2Z.inj_add, Lz, Lo. Z.to_euclidean_division_equations. lia.
Qed.

(** X6.  A chart made from a generated data set shows every point once:
    the blue series is the ceil(n/2) points of label 0, the red series the
    floor(n/2) points of label 1, and blue followed by red is the data set
    in its order. *)
Theorem chart_shows_generated (Math_log Math_cos : float -> float) (fuel : nat)
    (rev : Revision) (n seed : Z) (data : list Point) :
  0 <= n ->
  generateData Math_log Math_cos fuel rev n seed = Returns data ->
  let c := createScatterChart data in
  Chart.blue c ++ Chart.red c = map plotted data
  /\ Z.of_nat (List.length (Chart.blue c)) = (n + 1) / 2
  /\ Z.of_nat (List.length (Chart.red c)) = n / 2.
Proof.
  intros Hn E c.
  destruct (series_generated _ _ _ _ _ _ _ Hn E) as (H1 & H2 & H3 & _).
  auto.
Qed.

Lemma chart_shows_generated_witness :
  exists data,
    generateData (fun _ => (-1)%float) (fun _ => 1%float) 2 AppJs 5 42 = Returns data
    /\ Chart.blue (createScatterChart data) ++ Chart.red (createScatterChart data)
       = map plotted data
    /\ Z.of_nat (List.length (Chart.blue (createScatterChart data))) = (5 + 1) / 2
    /\ Z.of_nat (List.length (Chart.red (createScatterChart data))) = 5 / 2.
Proof.
  eexists. split; [vm_compute; reflexivity|].
  apply (chart_shows_generated (fun _ => (-1)%float) (fun _ => 1%float) 2 AppJs 5 42).
  - lia.
  - vm_compute. reflexivity.
Defined.

Section Reachable.

Variables Math_log Math_cos : float -> float.
Variable fuel : nat.
Variable rev : Revision.
Variable evs : list Event.
Hypothesis enough_fuel : (2 <= fuel)%nat.

(** X7.  The data on the page is always the data set of the current seed:
    after any events the seed is the start seed 123 moved on once for each
    regenerate click, and [DATA] is what [generateData] returns for 200
    points and that seed (1 when the seed is 0): 200 points, 100 of each
    label. *)
Theorem page_data_of_seed :
  exists s0 s,
    start Math_log Math_cos fuel rev = Returns s0
    /\ run Math_log Math_cos fuel rev evs s0 = Returns s
    /\ currentSeed s = seed_after (regenerations evs) 123
    /\ generateData Math_log Math_cos fuel rev 200 (seed_used (currentSeed s))
       = Returns (DATA s)
    /\ List.length (DATA s) = 200%nat
    /\ count_label 0%float (DATA s) = 100%nat
    /\ count_label 1%float (DATA s) = 100%nat.
Proof.
  destruct (consistent_reachable Math_log Math_cos fuel rev enough_fuel evs)
    as (s0 & s & E0 & E & H & Hseed).
  exists s0, s. split; [exact E0|]. split; [exact E|]. split; [exact Hseed|].
  pose proof (@data_ok _ _ _ _ _ H) as Hd. split; [exact Hd|].
  destruct (generateData_split Math_log Math_cos fuel rev 200 _ _ ltac:(lia) Hd)
    as (zeros & ones & -> & Hz & Ho & Lz & Lo).
  change ((200 + 1) / 2) with 100 in Lz. change (200 / 2) with 100 in Lo.
  rewrite !count_label_app, length_app.
  rewrite (count_label_all 0%float zeros eq_refl Hz),
    (count_label_none 0%float 1%float ones eq_refl Ho),
    (count_label_none 1%float 0%float zeros eq_refl Hz),
    (count_label_all 1%float ones eq_refl Ho).
  lia.
Qed.

(** X8.  The line on the chart is always the line of the cursor: after any
    events it is the baseline across the current bounds with the label
    "x2 = 0" when the cursor is at -1, and the decision line of the step
    the cursor is on, within the current bounds and with the label
    "Decision boundary", otherwise; the loaded triples are all finite. *)
Theorem line_follows_cursor :
  exists s0 s,
    start Math_log Math_cos fuel rev = Returns s0
    /\ run Math_log Math_cos fuel rev evs s0 = Returns s
    /\ Chart.line (chart s) = line_for_cursor s (chart s)
    /\ (stepIndex s = -1 ->
        Chart.line (chart s) = baseline (chart s)
        /\ Chart.line_label (chart s) = "x2 = 0")
    /\ (0 <= stepIndex s ->
        exists w, weights_at s (stepIndex s) = Some w
          /\ finite_weights w
          /\ Chart.line (chart s)
             = decision_line w (Chart.x_min (chart s)) (Chart.x_max (chart s))
                 (Chart.y_min (chart s)) (Chart.y_max (chart s))
          /\ Chart.line_label (chart s) = "Decision boundary")
    /\ Forall finite_weights (WEIGHT_STEPS s).
Proof.
  destruct (consistent_reachable Math_log Math_cos fuel rev enough_fuel evs)
    as (s0 & s & E0 & E & [Hc Hl Hlab Hb Hbl Hr Hs Ht Hseed Hd] & _).
  exists s0, s. split; [exact E0|]. split; [exact E|]. split; [exact Hl|].
  split; [|split; [|exact Hs]].
  - intros Hi. rewrite Hl, Hlab. unfold line_for_cursor. rewrite Hi. split; reflexivity.
  - intros Hi. unfold cursor_in_range in Hc.
    destruct (weights_at_in_range s (stepIndex s) ltac:(lia)) as [w Hw].
    exists w. split; [exact Hw|]. split; [|split].
    + rewrite Forall_forall in Hs. apply Hs.
      unfold weights_at in Hw. destruct (stepIndex s <? 0); [discriminate|].
      apply nth_error_In in Hw. exact Hw.
    + rewrite Hl. unfold line_for_cursor. rewrite Hw. reflexivity.
    + rewrite Hlab. destruct (Z.ltb_spec (stepIndex s) 0); [lia|reflexivity].
Qed.

(** X9.  The chart always shows the current data: after any events its
    axis bounds are the padded bounds of [DATA], its blue series is the
    100 points of label 0 and its red series the 100 points of label 1,
    together the 200 points of [DATA] in their order. *)
Theorem chart_follows_data :
  exists s0 s,
    start Math_log Math_cos fuel rev = Returns s0
    /\ run Math_log Math_cos fuel rev evs s0 = Returns s
    /\ bounds_of (DATA s) (chart s)
    /\ Chart.blue (chart s) = series 0%float (DATA s)
    /\ Chart.red (chart s) = series 1%float (DATA s)
    /\ Chart.blue (chart s) ++ Chart.red (chart s) = map plotted (DATA s)
    /\ List.length (Chart.blue (chart s)) = 100%nat
    /\ List.length (Chart.red (chart s)) = 100%nat.
Proof.
  destruct (consistent_reachable Math_log Math_cos fuel rev enough_fuel evs)
    as (s0 & s & E0 & E & [Hc Hl Hlab Hb Hbl Hr Hs Ht Hseed Hd] & _).
  exists s0, s. split; [exact E0|]. split; [exact E|]. split; [exact Hb|].
  split; [exact Hbl|]. split; [exact Hr|].
  destruct (series_generated Math_log Math_cos fuel rev 200 _ _ ltac:(lia) Hd) as (H1 & H2 & H3 & _).
  change ((200 + 1) / 2) with 100 in H2. change (200 / 2) with 100 in H3.
  rewrite Hbl, Hr. split; [exact H1|]. lia.
Qed.

(** X10.  A timer runs only over a loaded sequence: after any events,
    [animTimer] is null when no weights are loaded. *)
Theorem timer_needs_weights :
  exists s0 s,
    start Math_log Math_cos fuel rev = Returns s0
    /\ run Math_log Math_cos fuel rev evs s0 = Returns s
    /\ (WEIGHT_STEPS s = [] -> animTimer s = None).
Proof.
  destruct (consistent_reachable Math_log Math_cos fuel rev enough_fuel evs)
    as (s0 & s & E0 & E & [Hc Hl Hlab Hb Hbl Hr Hs Ht Hseed Hd] & _).
  exists s0, s. split; [exact E0|]. split; [exact E|].
  intros Hw. destruct (animTimer s) eqn:Et; [|reflexivity].
  unfold loaded in Ht. rewrite Hw in Ht. cbn in Ht.
  assert (0 < 0); [apply Ht; discriminate|lia].
Qed.

End Reachable.

Lemma page_data_of_seed_witness :
  exists s0 s,
    start (fun _ => (-1)%float) (fun _ => 1%float) 2 AppJs = Returns s0
    /\ run (fun _ => (-1)%float) (fun _ => 1%float) 2 AppJs
         [Regenerate; LoadWeights three_steps; Step; Regenerate] s0 = Returns s
    /\ currentSeed s
       = seed_after (regenerations [Regenerate; LoadWeights three_steps; Step; Regenerate]) 123
    /\ generateData (fun _ => (-1)%float) (fun _ => 1%float) 2 AppJs 200
         (seed_used (currentSeed s)) = Returns (DATA s)
    /\ List.length (DATA s) = 200%nat
    /\ count_label 0%float (DATA s) = 100%nat
    /\ count_label 1%float (DATA s) = 100%nat.
Proof.
  apply (page_data_of_seed (fun _ => (-1)%float) (fun _ => 1%float) 2 AppJs
           [Regenerate; LoadWeights three_steps; Step; Regenerate]).
  lia.
Defined.

Lemma line_follows_cursor_witness :
  exists s0 s,
    start (fun _ => (-1)%float) (fun _ => 1%float) 2 Part000 = Returns s0
    /\ run (fun _ => (-1)%float) (fun _ => 1%float) 2 Part000
         [LoadWeights three_steps; Step; Step; Regenerate] s0 = Returns s
    /\ Chart.line (chart s) = line_for_cursor s (chart s)
    /\ (stepIndex s = -1 ->
        Chart.line (chart s) = baseline (chart s)
        /\ Chart.line_label (chart s) = "x2 = 0")
    /\ (0 <= stepIndex s ->
        exists w, weights_at s (stepIndex s) = Some w
          /\ finite_weights w
          /\ Chart.line (chart s)
             = decision_line w (Chart.x_min (chart s)) (Chart.x_max (chart s))
                 (Chart.y_min (chart s)) (Chart.y_max (chart s))
          /\ Chart.line_label (chart s) = "Decision boundary")
    /\ Forall finite_weights (WEIGHT_STEPS s).
Proof.
  apply (line_follows_cursor (fun _ => (-1)%float) (fun _ => 1%float) 2 Part000
           [LoadWeights three_steps; Step; Step; Regenerate]).
  lia.
Defined.

Lemma chart_follows_data_witness :
  exists s0 s,
    start (fun _ => (-1)%float) (fun _ => 1%float) 2 AppJs = Returns s0
    /\ run (fun _ => (-1)%float) (fun _ => 1%float) 2 AppJs
         [Regenerate; Regenerate] s0 = Returns s
    /\ bounds_of (DATA s) (chart s)
    /\ Chart.blue (chart s) = series 0%float (DATA s)
    /\ Chart.red (chart s) = series 1%float (DATA s)
    /\ Chart.blue (chart s) ++ Chart.red (chart s) = map plotted (DATA s)
    /\ List.length (Chart.blue (chart s)) = 100%nat
    /\ List.length (Chart.red (chart s)) = 100%nat.
Proof.
  apply (chart_follows_data (fun _ => (-1)%float) (fun _ => 1%float) 2 AppJs
           [Regenerate; Regenerate]).
  lia.
Defined.

Lemma timer_needs_weights_witness :
  exists s0 s,
    start (fun _ => (-1)%float) (fun _ => 1%float) 2 AppJs = Returns s0
    /\ run (fun _ => (-1)%float) (fun _ => 1%float) 2 AppJs
         [LoadWeights three_steps; Animate None; LoadWeights ""; Tick] s0
       = Returns s
    /\ (WEIGHT_STEPS s = [] -> animTimer s = None).
Proof.
  apply (timer_needs_weights (fun _ => (-1)%float) (fun _ => 1%float) 2 AppJs
           [LoadWeights three_steps; Animate None; LoadWeights ""; Tick]).
  lia.
Defined.

(** ** The animation *)

Section Animation.

Variables Math_log Math_cos : float -> float.
Variable fuel : nat.
Variable rev : Revision.

Lemma run_app evs1 : forall evs2 s,
  run Math_log Math_cos fuel rev (evs1 ++ evs2) s
  = match run Math_log Math_cos fuel rev evs1 s with
    | Returns s' => run Math_log Math_cos fuel rev evs2 s'
    | Throws error => Throws error
    | Diverges => Diverges
    end.
Proof.
  induction evs1 as [|ev evs1 IH]; intros evs2 s; [reflexivity|].
  rewrite <- app_comm_cons. cbn [run].
  destruct (handle Math_log Math_cos fuel rev ev s); try reflexivity. apply IH.
Qed.

(** While steps are left, each firing of the timer moves the cursor up by
    one and leaves the timer set. *)
Lemma ticks_advance (h : Z) : forall (j : nat) (s : App),
  cursor_in_range s -> animTimer s = Some h ->
  stepIndex s + Z.of_nat j <= loaded s - 1 ->
  exists s', run Math_log Math_cos fuel rev (repeat Tick j) s = Returns s'
    /\ stepIndex s' = stepIndex s + Z.of_nat j
    /\ animTimer s' = Some h
    /\ WEIGHT_STEPS s' = WEIGHT_STEPS s.
Proof.
  induction j as [|j IH]; intros s Hc Ht Hj.
  - exists s. cbn [repeat run]. split; [reflexivity|]. split; [cbn; lia|]. split; [exact Ht|reflexivity].
  - cbn [repeat run handle]. rewrite Ht. unfold tick.
    destruct (Z.ltb_spec (stepIndex s) (loaded s - 1)); [|lia].
    unfold cursor_in_range in Hc.
    destruct (weights_at_in_range s (stepIndex s + 1) ltac:(lia)) as [w Hw].
    rewrite (advance_in_range s w Hw).
    set (s1 := {| DATA := DATA s; chart := _; currentSeed := currentSeed s;
                  WEIGHT_STEPS := WEIGHT_STEPS s; stepIndex := stepIndex s + 1;
                  animTimer := animTimer s |}).
    destruct (IH s1) as (s' & E & Hi & Ht' & Hw').
    + unfold cursor_in_range, loaded. cbn [s1 stepIndex WEIGHT_STEPS].
      unfold loaded in *. lia.
    + exact Ht.
    + unfold loaded in *. cbn [s1 stepIndex WEIGHT_STEPS]. lia.
    + exists s'. split; [exact E|]. cbn [s1 stepIndex WEIGHT_STEPS] in Hi, Hw'.
      repeat split; try assumption. lia.
Qed.

(** X11.  A running animation ends by itself: with the cursor at c of n
    loaded steps and the timer set, each of the next n - 1 - c firings of
    the timer moves the cursor up by one and keeps the timer, and the
    firing after those clears the timer with the cursor on the last step;
    the sequence is kept throughout. *)
Theorem animation_runs_to_end (s : App) (h : Z) :
  cursor_in_range s -> animTimer s = Some h ->
  let left := Z.to_nat (loaded s - 1 - stepIndex s) in
  (forall j, (j <= left)%nat ->
     exists s', run Math_log Math_cos fuel rev (repeat Tick j) s = Returns s'
       /\ stepIndex s' = stepIndex s + Z.of_nat j
       /\ animTimer s' = Some h
       /\ WEIGHT_STEPS s' = WEIGHT_STEPS s)
  /\ exists s', run Math_log Math_cos fuel rev (repeat Tick (S left)) s = Returns s'
       /\ stepIndex s' = loaded s - 1
       /\ animTimer s' = None
       /\ WEIGHT_STEPS s' = WEIGHT_STEPS s.
Proof.
  intros Hc Ht left. pose proof Hc as Hc'. unfold cursor_in_range in Hc'. split.
  - intros j Hj. apply ticks_advance; [exact Hc|exact Ht|lia].
  - destruct (ticks_advance h left s Hc Ht ltac:(lia)) as (s1 & E & Hi & Ht1 & Hw).
    replace (S left) with (left + 1)%nat by lia.
    rewrite repeat_app, run_app, E. cbn [repeat run handle]. rewrite Ht1.
    unfold tick. rewrite (loaded_steps s s1 Hw).
    destruct (Z.ltb_spec (stepIndex s1) (loaded s - 1)); [lia|].
    eexists. split; [reflexivity|].
    cbn [stopAnimation with_animTimer stepIndex animTimer WEIGHT_STEPS].
    repeat split; [lia|exact Hw].
Qed.

End Animation.

Lemma animation_runs_to_end_witness :
  let s := animate (Some 50) (step (loadWeights three_steps example_page)) in
  exists s',
    run (fun _ => (-1)%float) (fun _ => 1%float) 2 AppJs (repeat Tick 3) s
      = Returns s'
    /\ stepIndex s' = loaded s - 1
    /\ animTimer s' = None
    /\ WEIGHT_STEPS s' = WEIGHT_STEPS s.
Proof.
  apply (animation_runs_to_end (fun _ => (-1)%float) (fun _ => 1%float) 2 AppJs
           (animate (Some 50) (step (loadWeights three_steps example_page))) 50).
  - vm_compute. split; discriminate.
  - vm_compute. reflexivity.
Defined.

(** ** The status line and the buttons *)

Lemma stepIndex_advance s : stepIndex (advance s) = stepIndex s + 1.
Proof. unfold advance. destruct (weights_at _ _); reflexivity. Qed.

(** X12.  [updateAnimStatus] disables a button exactly when a click on it
    would change nothing: the step button when [step] leaves the state as
    it is (nothing loaded, or the cursor on the last step), the animate
    button when [animate] does (nothing loaded); the reset button is
    disabled exactly when nothing is loaded. *)
Theorem disabled_buttons_do_nothing (s : App) :
  (stepBtn_disabled (updateAnimStatus s) = true <-> step s = s)
  /\ (animateBtn_disabled (updateAnimStatus s) = true
      <-> forall slider, animate slider s = s)
  /\ (resetBtn_disabled (updateAnimStatus s) = true <-> WEIGHT_STEPS s = []).
Proof.
  unfold updateAnimStatus, step, animate.
  destruct (Z.eqb_spec (loaded s) 0) as [H0|Hn];
    cbn [stepBtn_disabled animateBtn_disabled resetBtn_disabled].
  - repeat split; try reflexivity.
    intros _. unfold loaded in H0. destruct (WEIGHT_STEPS s); [reflexivity|].
    cbn [List.length] in H0. lia.
  - split; [|split].
    + destruct (Z.leb_spec (loaded s - 1) (stepIndex s)) as [Hl|Hl].
      * destruct (Z.ltb_spec (stepIndex s) (loaded s - 1)) as [Hlt|Hge]; [lia|].
        split; reflexivity.
      * destruct (Z.ltb_spec (stepIndex s) (loaded s - 1)) as [Hlt|Hge]; [|lia].
        split; [discriminate|]. intros H.
        pose proof (stepIndex_advance s) as Hi. rewrite H in Hi. lia.
    + split; [discriminate|]. intros H. specialize (H None).
      destruct (animTimer s) eqn:Et.
      * apply (f_equal animTimer) in H. cbn in H. congruence.
      * apply (f_equal animTimer) in H. cbn in H. congruence.
    + split; [discriminate|]. intros H. unfold loaded in Hn. rewrite H in Hn.
      cbn in Hn. lia.
Qed.

(** ** What the page shows *)

(** The status depends on the loaded sequence and the cursor only. *)
Lemma updateAnimStatus_state s s' :
  WEIGHT_STEPS s' = WEIGHT_STEPS s -> stepIndex s' = stepIndex s ->
  updateAnimStatus s' = updateAnimStatus s.
Proof.
  intros Hw Hi. unfold updateAnimStatus. rewrite (loaded_steps s s' Hw), Hi.
  reflexivity.
Qed.

Section Shown.

Variables Math_log Math_cos : float -> float.
Variable fuel : nat.
Variable rev : Revision.

Lemma data_200 s :
  consistent Math_log Math_cos fuel rev s ->
  count_text (Z.of_nat (List.length (DATA s))) = "200".
Proof.
  intros H. pose proof (@data_ok _ _ _ _ _ H) as Hd.
  apply generateData_generated in Hd. destruct Hd as [_ ->]. reflexivity.
Qed.

Lemma regenerate_timer s s' :
  regenerate Math_log Math_cos fuel rev s = Returns s' ->
  animTimer s' = match rev with AppJs => None | Part000 => animTimer s end.
Proof.
  unfold regenerate.
  destruct (generateData _ _ _ _ _ _) as [data| |]; try discriminate.
  destruct rev; cbn [redraw_line].
  - intros H. injection H as <-. reflexivity.
  - repeat match goal with
           | |- context [if ?b then _ else _] => destruct b
           | |- context [match weights_at ?a ?i with _ => _ end] =>
               destruct (weights_at a i)
           end;
      intros H; injection H as <-; reflexivity.
Qed.

Lemma redraw_line_goes_on s :
  cursor_in_range s -> snd (redraw_line rev s) = true.
Proof.
  intros Hc. unfold redraw_line, cursor_in_range in *. destruct rev; [reflexivity|].
  destruct (Z.ltb_spec 0 (loaded s)); [|reflexivity].
  destruct (Z.leb_spec 0 (stepIndex s)); [|reflexivity].
  destruct (weights_at_in_range s (stepIndex s) ltac:(lia)) as [w ->]. reflexivity.
Qed.

Lemma page_consistent_stop_update p :
  page_consistent Math_log Math_cos fuel rev p ->
  page_consistent Math_log Math_cos fuel rev
    (page_updateAnimStatus (page_stopAnimation p)).
Proof.
  intros [Ha Hs Hb Hn]. constructor; cbn.
  - apply consistent_stopAnimation, Ha.
  - intros st H. injection H as <-. reflexivity.
  - split; [discriminate|]. intros H. exfalso. apply H. reflexivity.
  - exact Hn.
Qed.

Lemma page_consistent_advance p :
  page_consistent Math_log Math_cos fuel rev p ->
  stepIndex (globals p) < loaded (globals p) - 1 ->
  page_consistent Math_log Math_cos fuel rev (page_advance p).
Proof.
  intros [Ha Hs Hb Hn] Hlt. unfold page_advance.
  pose proof (@cursor_ok _ _ _ _ _ Ha) as Hc. unfold cursor_in_range in Hc.
  destruct (weights_at_in_range (globals p) (stepIndex (globals p) + 1) ltac:(lia))
    as [w Hw].
  rewrite Hw. constructor; cbn [page_updateAnimStatus with_globals globals animStatus
                                animateBtn_textContent nPoints_textContent].
  - apply consistent_advance; assumption.
  - intros st H. injection H as <-. reflexivity.
  - rewrite (advance_in_range _ w Hw). exact Hb.
  - exact Hn.
Qed.

Lemma page_consistent_step p :
  page_consistent Math_log Math_cos fuel rev p ->
  page_consistent Math_log Math_cos fuel rev (page_step p).
Proof.
  intros H. unfold page_step. destruct (loaded (globals p) =? 0); [exact H|].
  destruct (Z.ltb_spec (stepIndex (globals p)) (loaded (globals p) - 1)); [|exact H].
  apply page_consistent_advance; assumption.
Qed.

Lemma page_consistent_tick p :
  page_consistent Math_log Math_cos fuel rev p ->
  page_consistent Math_log Math_cos fuel rev (page_tick p).
Proof.
  intros H. unfold page_tick.
  destruct (Z.ltb_spec (stepIndex (globals p)) (loaded (globals p) - 1)).
  - apply page_consistent_advance; assumption.
  - apply page_consistent_stop_update, H.
Qed.

Lemma page_consistent_animate slider p :
  page_consistent Math_log Math_cos fuel rev p ->
  page_consistent Math_log Math_cos fuel rev (page_animate slider p).
Proof.
  intros H. unfold page_animate.
  destruct (Z.eqb_spec (loaded (globals p)) 0) as [|Hl]; [exact H|].
  destruct (animTimer (globals p)) eqn:Et; [apply page_consistent_stop_update, H|].
  destruct H as [Ha Hs Hb Hn].
  constructor; cbn [globals animStatus animateBtn_textContent nPoints_textContent].
  - apply consistent_animate, Ha.
  - intros st H. rewrite (Hs st H). symmetry. apply updateAnimStatus_state.
    + unfold animate. destruct (loaded (globals p) =? 0); [reflexivity|].
      rewrite Et. reflexivity.
    + unfold animate. destruct (loaded (globals p) =? 0); [reflexivity|].
      rewrite Et. reflexivity.
  - split; [|reflexivity]. intros _. unfold animate.
    destruct (Z.eqb_spec (loaded (globals p)) 0); [contradiction|].
    rewrite Et. discriminate.
  - exact Hn.
Qed.

Lemma page_consistent_resetAnim p :
  page_consistent Math_log Math_cos fuel rev p ->
  page_consistent Math_log Math_cos fuel rev (page_resetAnim p).
Proof.
  intros [Ha Hs Hb Hn]. constructor; cbn.
  - apply consistent_resetAnim, Ha.
  - intros st H. injection H as <-. reflexivity.
  - split; [discriminate|]. intros H. exfalso. apply H. reflexivity.
  - exact Hn.
Qed.

Lemma page_consistent_loadWeights value p :
  page_consistent Math_log Math_cos fuel rev p ->
  page_consistent Math_log Math_cos fuel rev (page_loadWeights value p).
Proof.
  intros [Ha Hs Hb Hn]. constructor; cbn.
  - apply consistent_loadWeights, Ha.
  - intros st H. injection H as <-. reflexivity.
  - split; [discriminate|]. intros H. exfalso. apply H. reflexivity.
  - exact Hn.
Qed.

Lemma page_consistent_regenerate p p' :
  page_consistent Math_log Math_cos fuel rev p ->
  page_regenerate Math_log Math_cos fuel rev p = Returns p' ->
  page_consistent Math_log Math_cos fuel rev p'
  /\ regenerate Math_log Math_cos fuel rev (globals p) = Returns (globals p').
Proof.
  intros [Ha Hs Hb Hn]. unfold page_regenerate.
  destruct (regenerate Math_log Math_cos fuel rev (globals p)) as [s'| |] eqn:E;
    try discriminate.
  rewrite (redraw_line_goes_on (globals p) (@cursor_ok _ _ _ _ _ Ha)).
  intros H. injection H as <-.
  destruct (consistent_regenerate _ _ _ _ _ _ Ha E) as [Ha' _].
  pose proof (regenerate_timer _ _ E) as Ht.
  split; [|reflexivity].
  constructor; cbn [page_updateAnimStatus globals animStatus animateBtn_textContent
                    nPoints_textContent].
  - exact Ha'.
  - intros st H. injection H as <-. reflexivity.
  - rewrite Ht. destruct rev; cbn [page_stopAnimation animateBtn_textContent].
    + split; [discriminate|]. intros H. exfalso. apply H. reflexivity.
    + exact Hb.
  - rewrite (data_200 _ Ha'). reflexivity.
Qed.

Lemma page_consistent_start p :
  page_start Math_log Math_cos fuel rev = Returns p ->
  page_consistent Math_log Math_cos fuel rev p
  /\ start Math_log Math_cos fuel rev = Returns (globals p).
Proof.
  unfold page_start.
  destruct (start Math_log Math_cos fuel rev) as [s| |] eqn:E; try discriminate.
  intros H. injection H as <-. split; [|reflexivity].
  destruct (consistent_start _ _ _ _ _ E) as [Ha _].
  constructor; cbn [globals animStatus animateBtn_textContent nPoints_textContent].
  - exact Ha.
  - discriminate.
  - split; [discriminate|]. intros H. exfalso. apply H.
    unfold start in E. destruct (generateData _ _ _ _ _ _); try discriminate.
    injection E as <-. reflexivity.
  - rewrite (data_200 _ Ha). reflexivity.
Qed.

Hypothesis enough_fuel : (2 <= fuel)%nat.

Lemma page_consistent_handle ev p :
  page_consistent Math_log Math_cos fuel rev p ->
  exists p', page_handle Math_log Math_cos fuel rev ev p = Returns p'
    /\ page_consistent Math_log Math_cos fuel rev p'
    /\ handle Math_log Math_cos fuel rev ev (globals p) = Returns (globals p').
Proof.
  intros H. destruct ev as [|value| |slider| |]; cbn [page_handle handle].
  - destruct (cursor_in_range_regenerate Math_log Math_cos fuel enough_fuel rev
                (globals p) (@cursor_ok _ _ _ _ _ (@globals_ok _ _ _ _ _ H)))
      as (s' & E & _).
    assert (Hp : exists p', page_regenerate Math_log Math_cos fuel rev p = Returns p').
    { unfold page_regenerate. rewrite E. eauto. }
    destruct Hp as [p' Hp]. exists p'. split; [exact Hp|].
    apply page_consistent_regenerate; assumption.
  - eexists. split; [reflexivity|].
    split; [apply page_consistent_loadWeights, H|reflexivity].
  - eexists. split; [reflexivity|]. split; [apply page_consistent_step, H|].
    unfold page_step, step. destruct (loaded (globals p) =? 0); [reflexivity|].
    destruct (stepIndex (globals p) <? loaded (globals p) - 1); [|reflexivity].
    unfold page_advance. destruct (weights_at _ _); reflexivity.
  - eexists. split; [reflexivity|]. split; [apply page_consistent_animate, H|].
    unfold page_animate, animate. destruct (loaded (globals p) =? 0); [reflexivity|].
    destruct (animTimer (globals p)); reflexivity.
  - destruct (animTimer (globals p)) eqn:Et; eexists; (split; [reflexivity|]).
    + split; [apply page_consistent_tick, H|].
      unfold page_tick, tick.
      destruct (stepIndex (globals p) <? loaded (globals p) - 1); [|reflexivity].
      unfold page_advance. destruct (weights_at _ _); reflexivity.
    + split; [exact H|reflexivity].
  - eexists. split; [reflexivity|].
    split; [apply page_consistent_resetAnim, H|reflexivity].
Qed.

Lemma page_consistent_run evs : forall p,
  page_consistent Math_log Math_cos fuel rev p ->
  exists p', page_run Math_log Math_cos fuel rev evs p = Returns p'
    /\ page_consistent Math_log Math_cos fuel rev p'
    /\ run Math_log Math_cos fuel rev evs (globals p) = Returns (globals p').
Proof.
  induction evs as [|ev evs IH]; intros p H; cbn [page_run run].
  - exists p. split; [reflexivity|]. split; [exact H|reflexivity].
  - destruct (page_consistent_handle ev p H) as (p1 & -> & H1 & ->).
    apply IH, H1.
Qed.

Lemma page_consistent_reachable evs :
  exists p0 p,
    page_start Math_log Math_cos fuel rev = Returns p0
    /\ page_run Math_log Math_cos fuel rev evs p0 = Returns p
    /\ start Math_log Math_cos fuel rev = Returns (globals p0)
    /\ run Math_log Math_cos fuel rev evs (globals p0) = Returns (globals p)
    /\ page_consistent Math_log Math_cos fuel rev p.
Proof.
  destruct (start_returns Math_log Math_cos fuel enough_fuel rev) as (s0 & E0 & _).
  assert (Hp : exists p0, page_start Math_log Math_cos fuel rev = Returns p0).
  { unfold page_start. rewrite E0. eauto. }
  destruct Hp as [p0 Hp]. destruct (page_consistent_start p0 Hp) as [H0 Hs0].
  destruct (page_consistent_run evs p0 H0) as (p & E & H & Er).
  exists p0, p. auto.
Qed.

(** X13.  The status on the page is never stale: once the script has
    written it, after any events the status line and the three disabled
    flags are those [updateAnimStatus] computes from the current sequence
    and cursor; the globals are those the handlers leave. *)
Theorem status_is_current (evs : list Event) :
  exists p0 p,
    page_start Math_log Math_cos fuel rev = Returns p0
    /\ page_run Math_log Math_cos fuel rev evs p0 = Returns p
    /\ run Math_log Math_cos fuel rev evs (globals p0) = Returns (globals p)
    /\ forall st, animStatus p = Some st -> st = updateAnimStatus (globals p).
Proof.
  destruct (page_consistent_reachable evs) as (p0 & p & E0 & E & _ & Er & H).
  exists p0, p. split; [exact E0|]. split; [exact E|]. split; [exact Er|].
  apply (@status_ok _ _ _ _ _ H).
Qed.

(** X14.  After any events the animate button reads "Pause" exactly while
    a timer is set, and the counter of points reads 200. *)
Theorem button_tells_timer (evs : list Event) :
  exists p0 p,
    page_start Math_log Math_cos fuel rev = Returns p0
    /\ page_run Math_log Math_cos fuel rev evs p0 = Returns p
    /\ (animateBtn_textContent p = Some "Pause" <-> animTimer (globals p) <> None)
    /\ nPoints_textContent p = Some "200".
Proof.
  destruct (page_consistent_reachable evs) as (p0 & p & E0 & E & _ & _ & H).
  exists p0, p. split; [exact E0|]. split; [exact E|].
  split; [apply (@button_ok _ _ _ _ _ H)|apply (@counter_ok _ _ _ _ _ H)].
Qed.

End Shown.

Lemma status_is_current_witness :
  exists p0 p,
    page_start (fun _ => (-1)%float) (fun _ => 1%float) 2 AppJs = Returns p0
    /\ page_run (fun _ => (-1)%float) (fun _ => 1%float) 2 AppJs
         [LoadWeights three_steps; Step; Animate (Some 50); Tick; Regenerate] p0
       = Returns p
    /\ run (fun _ => (-1)%float) (fun _ => 1%float) 2 AppJs
         [LoadWeights three_steps; Step; Animate (Some 50); Tick; Regenerate] (globals p0)
       = Returns (globals p)
    /\ forall st, animStatus p = Some st -> st = updateAnimStatus (globals p).
Proof.
  apply (status_is_current (fun _ => (-1)%float) (fun _ => 1%float) 2 AppJs).
  lia.
Defined.

Lemma button_tells_timer_witness :
  exists p0 p,
    page_start (fun _ => (-1)%float) (fun _ => 1%float) 2 Part000 = Returns p0
    /\ page_run (fun _ => (-1)%float) (fun _ => 1%float) 2 Part000
         [LoadWeights three_steps; Animate None; Regenerate; Tick] p0
       = Returns p
    /\ (animateBtn_textContent p = Some "Pause" <-> animTimer (globals p) <> None)
    /\ nPoints_textContent p = Some "200".
Proof.
  apply (button_tells_timer (fun _ => (-1)%float) (fun _ => 1%float) 2 Part000).
  lia.
Defined.

Import JSString.

(** ** Line endings *)

Lemma trimEnd_CR (s : string) : trimEnd (s ++ String CR "") = trimEnd s.
Proof.
  induction s as [|c s IH]; [reflexivity|].
  cbn [append trimEnd]. rewrite IH. reflexivity.
Qed.

Lemma trim_CR (s : string) : trim (s ++ String CR "") = trim s.
Proof.
  unfold trim. induction s as [|c s IH]; [reflexivity|].
  cbn [append trimStart]. destruct (isWhiteSpace c); [exact IH|].
  apply (trimEnd_CR (String c s)).
Qed.

Lemma one_line_head (c : ascii) (s : string) :
  one_line (String c s) = true -> Ascii.eqb c LF = false /\ one_line s = true.
Proof.
  cbn [one_line]. intros H. apply andb_true_iff in H as [Hc Hs].
  apply negb_true_iff in Hc. split; assumption.
Qed.

Lemma one_line_app (a b : string) :
  one_line (a ++ b) = one_line a && one_line b.
Proof.
  induction a as [|c a IH]; cbn; [reflexivity|]. rewrite IH, andb_assoc. reflexivity.
Qed.

(** Scanning a line up to its line feed: the piece is the line, less a
    carriage return at its end. *)
Lemma split_newlines_one_line (a : string) : forall cur rest,
  one_line a = true ->
  exists a',
    split_newlines_from cur (a ++ newline ++ rest)
    = (piece cur ++ a')%string :: split_newlines_from "" rest
    /\ (a' = a \/ a = (a' ++ String CR "")%string).
Proof.
  induction a as [|c a IH]; intros cur rest Ha.
  - exists "". rewrite string_app_nil_r. split; [reflexivity|left; reflexivity].
  - apply one_line_head in Ha as (Hlf & Ha).
    cbn [append split_newlines_from]. rewrite Hlf.
    destruct (Ascii.eqb_spec c CR) as [->|Hcr].
    + destruct a as [|c' a].
      * exists "". cbn [append newline]. change (Ascii.eqb LF LF) with true.
        cbv iota. rewrite string_app_nil_r.
        split; [reflexivity|right; reflexivity].
      * pose proof Ha as Ha'. apply one_line_head in Ha' as (Hlf' & _).
        cbn [append]. rewrite Hlf'.
        destruct (IH (String CR cur) rest Ha) as (a' & E & H).
        cbn [append] in E. rewrite E.
        exists (String CR a'). split.
        -- f_equal. unfold piece. cbn [rev_append].
           rewrite (rev_append_spec cur (String CR "")), string_app_assoc.
           reflexivity.
        -- destruct H as [->|H]; [left; reflexivity|right].
           rewrite H. reflexivity.
    + destruct (IH (String c cur) rest Ha) as (a' & E & H).
      rewrite E. exists (String c a'). split.
      * f_equal. unfold piece. cbn [rev_append].
        rewrite (rev_append_spec cur (String c "")), string_app_assoc.
        reflexivity.
      * destruct H as [->|H]; [left; reflexivity|right].
        rewrite H. reflexivity.
Qed.

(** Scanning the last line. *)
Lemma split_newlines_end (a : string) : forall cur,
  one_line a = true ->
  split_newlines_from cur a = [(piece cur ++ a)%string].
Proof.
  induction a as [|c a IH]; intros cur Ha.
  - cbn [split_newlines_from]. rewrite string_app_nil_r. reflexivity.
  - apply one_line_head in Ha as (Hlf & Ha).
    cbn [split_newlines_from]. rewrite Hlf.
    assert (E : split_newlines_from (String c cur) a
                = [(piece cur ++ String c a)%string]).
    { rewrite (IH (String c cur) Ha). unfold piece. cbn [rev_append].
      rewrite (rev_append_spec cur (String c "")), string_app_assoc. reflexivity. }
    destruct (Ascii.eqb c CR); [|exact E].
    destruct a as [|c' a]; [exact E|].
    apply one_line_head in Ha as (Hlf' & _). rewrite Hlf'. exact E.
Qed.

Lemma trim_line (a a' : string) :
  a' = a \/ a = (a' ++ String CR "")%string -> trim a' = trim a.
Proof. intros [->| ->]; [reflexivity|symmetry; apply trim_CR]. Qed.

(** The trimmed lines of a text whose lines are joined by line feeds. *)
Lemma trimmed_lines_LF (ls : list string) : forall l,
  Forall (fun l => one_line l = true) (l :: ls) ->
  map trim (split_newlines (join newline (l :: ls))) = map trim (l :: ls).
Proof.
  unfold split_newlines. induction ls as [|l' ls IH]; intros l H.
  - inversion H as [|? ? Hl _]; subst. cbn [join String.concat].
    rewrite (split_newlines_end l "" Hl). reflexivity.
  - inversion H as [|? ? Hl H']; subst.
    change (join newline (l :: l' :: ls))
      with (l ++ newline ++ join newline (l' :: ls))%string.
    destruct (split_newlines_one_line l "" (join newline (l' :: ls)) Hl)
      as (a' & -> & Ha').
    cbn [map piece rev_append append]. rewrite (trim_line l a' Ha'), (IH l' H').
    reflexivity.
Qed.

(** The same when they are joined by carriage return and line feed. *)
Lemma trimmed_lines_CRLF (ls : list string) : forall l,
  Forall (fun l => one_line l = true) (l :: ls) ->
  map trim (split_newlines (join CRLF (l :: ls))) = map trim (l :: ls).
Proof.
  unfold split_newlines. induction ls as [|l' ls IH]; intros l H.
  - inversion H as [|? ? Hl _]; subst. cbn [join String.concat].
    rewrite (split_newlines_end l "" Hl). reflexivity.
  - inversion H as [|? ? Hl H']; subst.
    assert (E : join CRLF (l :: l' :: ls)
                = ((l ++ String CR "") ++ newline ++ join CRLF (l' :: ls))%string).
    { change (join CRLF (l :: l' :: ls))
        with (l ++ CRLF ++ join CRLF (l' :: ls))%string.
      rewrite string_app_assoc. reflexivity. }
    rewrite E.
    assert (Hl' : one_line (l ++ String CR "") = true).
    { rewrite one_line_app, Hl. reflexivity. }
    destruct (split_newlines_one_line _ "" (join CRLF (l' :: ls)) Hl')
      as (a' & -> & Ha').
    cbn [map piece rev_append append].
    rewrite (trim_line _ a' Ha'), trim_CR, (IH l' H'). reflexivity.
Qed.

Lemma nonblank_lines_of (sep : string) (ls : list string) :
  sep = newline \/ sep = CRLF ->
  Forall (fun l => one_line l = true) ls ->
  spec_nonblank_lines (join sep ls)
  = filter (fun l => negb (is_empty l)) (map trim ls).
Proof.
  intros Hsep H. unfold spec_nonblank_lines.
  destruct ls as [|l ls]; [destruct Hsep as [->| ->]; reflexivity|].
  destruct Hsep as [->| ->].
  - rewrite (trimmed_lines_LF ls l H). reflexivity.
  - rewrite (trimmed_lines_CRLF ls l H). reflexivity.
Qed.

(** X15.  Line endings and blank lines do not matter to the parser: a
    text made of lines joined by line feeds, or by carriage return and
    line feed, parses to the rows of its trimmed non-blank lines, less a
    header in the first of them; so the two texts parse alike. *)
Theorem line_endings_do_not_matter (ls : list string) :
  Forall (fun l => one_line l = true) ls ->
  parseWeightsCsv (join newline ls) = rows_of_lines ls
  /\ parseWeightsCsv (join CRLF ls) = rows_of_lines ls.
Proof.
  intros H. rewrite !parseWeightsCsv_spec. unfold spec_parse, rows_of_lines.
  rewrite (nonblank_lines_of newline ls (or_introl eq_refl) H),
    (nonblank_lines_of CRLF ls (or_intror eq_refl) H).
  split; reflexivity.
Qed.

Lemma line_endings_do_not_matter_witness :
  parseWeightsCsv (join newline ["w0, w1, w2"; ""; " 1,2,3 "; "bad"; "4 , 5 , 6,7"])
  = rows_of_lines ["w0, w1, w2"; ""; " 1,2,3 "; "bad"; "4 , 5 , 6,7"]
  /\ parseWeightsCsv (join CRLF ["w0, w1, w2"; ""; " 1,2,3 "; "bad"; "4 , 5 , 6,7"])
     = rows_of_lines ["w0, w1, w2"; ""; " 1,2,3 "; "bad"; "4 , 5 , 6,7"].
Proof.
  apply line_endings_do_not_matter. repeat constructor.
Defined.

(** ** The bounds of the chart *)

Lemma finite_not_nan (v : float) :
  Number_isFinite v = true -> PrimFloat.is_nan v = false.
Proof.
  unfold Number_isFinite. intros H. apply negb_true_iff, orb_false_iff in H.
  apply H.
Qed.

Lemma finite_ltb_infinity (v : float) :
  Number_isFinite v = true -> (v <? infinity)%float = true.
Proof.
  intros H. rewrite FloatAxioms.ltb_spec.
  change (Prim2SF infinity) with (S754_infinity false).
  destruct (finite_cases v H) as [[s ->]|(s & m & e & ->)]; reflexivity.
Qed.

Lemma finite_neg_infinity_ltb (v : float) :
  Number_isFinite v = true -> (neg_infinity <? v)%float = true.
Proof.
  intros H. rewrite FloatAxioms.ltb_spec.
  change (Prim2SF neg_infinity) with (S754_infinity true).
  destruct (finite_cases v H) as [[s ->]|(s & m & e & ->)]; reflexivity.
Qed.

Lemma ltb_irrefl (v : float) : (v <? v)%float = false.
Proof.
  rewrite FloatAxioms.ltb_spec. unfold SFltb.
  destruct (Prim2SF v) as [s|s| |s m e] eqn:E; try reflexivity.
  - destruct s; reflexivity.
  - rewrite (SFcompare_refl (S754_finite s m e)) by discriminate. reflexivity.
Qed.

Lemma not_both_zeros (v : float) : is_neg_zero v && is_pos_zero v = false.
Proof.
  unfold is_neg_zero, is_pos_zero.
  destruct (PrimFloat.is_zero v), (PrimFloat.get_sign v); reflexivity.
Qed.

Lemma min_step_same (v : float) :
  PrimFloat.is_nan v = false -> min_step v v = v.
Proof.
  intros H. unfold min_step. rewrite H, not_both_zeros, ltb_irrefl. reflexivity.
Qed.

Lemma max_step_same (v : float) :
  PrimFloat.is_nan v = false -> max_step v v = v.
Proof.
  intros H. unfold max_step. rewrite H, andb_comm, not_both_zeros, ltb_irrefl.
  reflexivity.
Qed.

Lemma min_step_infinity (v : float) :
  Number_isFinite v = true -> min_step infinity v = v.
Proof.
  intros H. unfold min_step. rewrite (finite_not_nan v H), (finite_ltb_infinity v H).
  change (PrimFloat.is_nan infinity) with false.
  change (is_pos_zero infinity) with false. rewrite andb_false_r. reflexivity.
Qed.

Lemma max_step_neg_infinity (v : float) :
  Number_isFinite v = true -> max_step neg_infinity v = v.
Proof.
  intros H. unfold max_step.
  rewrite (finite_not_nan v H), (finite_neg_infinity_ltb v H).
  change (PrimFloat.is_nan neg_infinity) with false.
  change (is_neg_zero neg_infinity) with false. rewrite andb_false_r. reflexivity.
Qed.

Lemma fold_min_same (v : float) (vs : list float) :
  PrimFloat.is_nan v = false -> Forall (eq v) vs -> fold_left min_step vs v = v.
Proof.
  intros Hv H. induction H as [|x vs <- _ IH]; [reflexivity|].
  cbn [fold_left]. rewrite (min_step_same v Hv). exact IH.
Qed.

Lemma fold_max_same (v : float) (vs : list float) :
  PrimFloat.is_nan v = false -> Forall (eq v) vs -> fold_left max_step vs v = v.
Proof.
  intros Hv H. induction H as [|x vs <- _ IH]; [reflexivity|].
  cbn [fold_left]. rewrite (max_step_same v Hv). exact IH.
Qed.

(** A finite Number less itself is +0. *)
Lemma sub_same (v : float) :
  Number_isFinite v = true -> Prim2SF (v - v) = S754_zero false.
Proof.
  intros H. rewrite FloatAxioms.sub_spec. unfold SF64sub.
  destruct (finite_cases v H) as [[s ->]|(s & m & e & ->)].
  - destruct s; reflexivity.
  - cbn [SFsub]. rewrite Z.min_id. unfold shl_align.
    replace (IntDef.Z.sub e e) with 0 by (symmetry; apply Z.sub_diag).
    cbn [fst].
    replace (IntDef.Z.sub _ _) with 0 by (symmetry; apply Z.sub_diag).
    reflexivity.
Qed.

Lemma padded_same (v : float) (vs : list float) :
  Number_isFinite v = true -> vs <> [] -> Forall (eq v) vs ->
  padded vs = ((v - 0.15)%float, (v + 0.15)%float).
Proof.
  intros Hv Hne H. destruct H as [|x vs <- H]; [contradiction|].
  unfold padded, Math_min_of, Math_max_of. cbn [fold_left].
  rewrite (min_step_infinity v Hv), (max_step_neg_infinity v Hv).
  rewrite (fold_min_same v vs (finite_not_nan v Hv) H),
    (fold_max_same v vs (finite_not_nan v Hv) H).
  assert (Hz : or_else (v - v) 1 = 1%float).
  { unfold or_else. rewrite is_zero_spec, (sub_same v Hv). reflexivity. }
  rewrite Hz. reflexivity.
Qed.

(** X16.  When all points have the same finite x1 (a single point, say),
    the difference of the largest and the smallest is 0 and the script
    pads by 0.15 * 1: the x axis goes from x1 - 0.15 to x1 + 0.15, and
    likewise the y axis for x2.  With no point at all the bounds are
    Math.min() = Infinity and Math.max() = -Infinity as they are. *)
Theorem chart_bounds_of_equal_values (points : list Point) (v : float) :
  points <> [] -> Number_isFinite v = true ->
  (Forall (fun p => v = x1 p) points ->
   Chart.x_min (createScatterChart points) = (v - 0.15)%float
   /\ Chart.x_max (createScatterChart points) = (v + 0.15)%float)
  /\ (Forall (fun p => v = x2 p) points ->
      Chart.y_min (createScatterChart points) = (v - 0.15)%float
      /\ Chart.y_max (createScatterChart points) = (v + 0.15)%float)
  /\ Chart.x_min (createScatterChart []) = infinity
  /\ Chart.x_max (createScatterChart []) = neg_infinity.
Proof.
  intros Hne Hv.
  assert (Hmap : forall f : Point -> float, map f points <> []).
  { intros f. destruct points; [contradiction|discriminate]. }
  split; [|split; [|split; reflexivity]].
  - intros H. unfold createScatterChart. cbn [Chart.x_min Chart.x_max].
    rewrite (padded_same v (map x1 points) Hv (Hmap x1)).
    + split; reflexivity.
    + apply Forall_map. exact H.
  - intros H. unfold createScatterChart. cbn [Chart.y_min Chart.y_max].
    rewrite (padded_same v (map x2 points) Hv (Hmap x2)).
    + split; reflexivity.
    + apply Forall_map. exact H.
Qed.

Lemma chart_bounds_of_equal_values_witness :
  Chart.x_min (createScatterChart [ {| x1 := 2; x2 := 3; y := 0 |} ]) = (2 - 0.15)%float
  /\ Chart.x_max (createScatterChart [ {| x1 := 2; x2 := 3; y := 0 |} ]) = (2 + 0.15)%float.
Proof.
  apply (chart_bounds_of_equal_values [ {| x1 := 2; x2 := 3; y := 0 |} ] 2).
  - discriminate.
  - reflexivity.
  - repeat constructor.
Defined.

Import JSString.

(** ** The generator as a function of its counter *)

Lemma ToUint32_wrap t j : ToUint32 (t + j * two32) = ToUint32 t.
Proof. unfold ToUint32. apply Z.mod_add. unfold two32. lia. Qed.

Lemma ToInt32_wrap t j : ToInt32 (t + j * two32) = ToInt32 t.
Proof.
  unfold ToInt32. replace (t + j * two32 + 2147483648)
    with (t + 2147483648 + j * two32) by lia.
  rewrite Z.mod_add by (unfold two32; lia). reflexivity.
Qed.

Lemma mix_wrap t j : Mulberry32.mix (t + j * two32) = Mulberry32.mix t.
Proof.
  unfold Mulberry32.mix, bxor, bor, ushr.
  rewrite ToInt32_wrap, ToUint32_wrap. reflexivity.
Qed.

Lemma next_exact t :
  0 <= t -> t + Mulberry32.increment < 2 ^ 53 ->
  Mulberry32.next t
  = (Mulberry32.unit_interval (Mulberry32.mix (t + Mulberry32.increment)),
     t + Mulberry32.increment).
Proof.
  intros H0 H. unfold Mulberry32.next, add_int.
  rewrite roundNumber_small; [reflexivity|].
  unfold Mulberry32.increment in *. lia.
Qed.

(** X17.  The generator is a function of its counter: while the counter is
    below 2^53, the i-th call returns [mix (t + i * 0x6D2B79F5) / 2^32],
    where [mix] depends on the counter modulo 2^32 only. *)
Theorem draws_by_counter (k : nat) (t : Z) :
  0 <= t -> t + Z.of_nat k * Mulberry32.increment < 2 ^ 53 ->
  draws k t
  = map (fun i => Mulberry32.unit_interval
                    (Mulberry32.mix (t + Z.of_nat (S i) * Mulberry32.increment)))
      (seq 0 k)
  /\ forall c j, Mulberry32.mix (c + j * two32) = Mulberry32.mix c.
Proof.
  intros H0 H. split; [|intros c j; apply mix_wrap].
  revert t H0 H. induction k as [|k IH]; intros t H0 H; [reflexivity|].
  cbn [draws].
  assert (H1 : t + Mulberry32.increment < 2 ^ 53).
  { unfold Mulberry32.increment in *. change (2 ^ 53) with 9007199254740992 in *. lia. }
  rewrite (next_exact t H0 H1).
  cbn [seq map]. f_equal.
  rewrite IH.
  - rewrite <- seq_shift, map_map.
    apply map_ext. intros i. f_equal. f_equal. unfold Mulberry32.increment. lia.
  - unfold Mulberry32.increment. lia.
  - unfold Mulberry32.increment in *. change (2 ^ 53) with 9007199254740992 in *. lia.
Qed.

Lemma draws_by_counter_witness :
  draws 3 (Mulberry32.mulberry32 42)
  = map (fun i => Mulberry32.unit_interval
                    (Mulberry32.mix (Mulberry32.mulberry32 42
                                     + Z.of_nat (S i) * Mulberry32.increment)))
      (seq 0 3).
Proof.
  apply (draws_by_counter 3 (Mulberry32.mulberry32 42)).
  - vm_compute. discriminate.
  - vm_compute. reflexivity.
Defined.

(** ** The export as lines and fields *)



(** ** White space and further columns in a row *)







(** ** Comparing Numbers by their values *)

Lemma pow2_pos k : 0 <= k -> 0 < 2 ^ k.
Proof. intros H. apply Z.pow_pos_nonneg; lia. Qed.

Lemma units_pos m e : -1074 <= e -> 0 < units m e.
Proof.
  intros H. unfold units. pose proof (pow2_pos (e + 1074) ltac:(lia)). nia.
Qed.

Lemma valid_finite s m e :
  valid_binary (S754_finite s m e) = true ->
  -1074 <= e <= 971 /\ Zpos m < 2 ^ 53
  /\ e = Z.max (Z.log2 (Zpos m) + e - 52) (-1074).
Proof.
  cbn [SpecFloat.valid_binary]. intros H. apply bounded_spec in H as (H1 & H2 & H3).
  repeat split; lia.
Qed.

Lemma units_lt_exponent m1 e1 m2 e2 :
  bounded prec emax m1 e1 = true -> bounded prec emax m2 e2 = true ->
  e1 < e2 -> units m1 e1 < units m2 e2.
Proof.
  intros H1 H2 He.
  apply bounded_spec in H1 as (C1 & _ & B1). apply bounded_spec in H2 as (C2 & _ & _).
  assert (L2 : Z.log2 (Zpos m2) = 52) by lia.
  assert (M2 : 2 ^ 52 <= Zpos m2).
  { pose proof (Z.log2_spec (Zpos m2) ltac:(lia)) as S. rewrite L2 in S. lia. }
  unfold units.
  pose proof (pow2_pos (e1 + 1074) ltac:(lia)) as P1.
  pose proof (pow2_pos (e2 + 1074) ltac:(lia)) as P2.
  assert (Hp : 2 * 2 ^ (e1 + 1074) <= 2 ^ (e2 + 1074)).
  { replace (e2 + 1074) with (Z.succ (e1 + 1074) + (e2 - e1 - 1)) by lia.
    rewrite (Z.pow_add_r 2 (Z.succ (e1 + 1074)) (e2 - e1 - 1)) by lia.
    rewrite (Z.pow_succ_r 2 (e1 + 1074)) by lia.
    pose proof (pow2_pos (e2 - e1 - 1) ltac:(lia)). nia. }
  change (2 ^ 53) with (2 * 2 ^ 52) in B1. nia.
Qed.

(** Finite Numbers compare as their values do. *)
Lemma SFcompare_units x y :
  valid_binary x = true -> valid_binary y = true ->
  sf_finite x = true -> sf_finite y = true ->
  SFcompare x y = Some (sf_units x ?= sf_units y).
Proof.
  intros Vx Vy Fx Fy.
  destruct x as [sx|sx| |sx mx ex]; try discriminate Fx;
    destruct y as [sy|sy| |sy my ey]; try discriminate Fy; cbn [SFcompare sf_units].
  - reflexivity.
  - pose proof (units_pos my ey ltac:(apply valid_finite in Vy; lia)) as P.
    destruct sy; cbn [cond_Zopp]; f_equal; symmetry.
    + apply Z.compare_gt_iff. lia.
    + apply Z.compare_lt_iff. lia.
  - pose proof (units_pos mx ex ltac:(apply valid_finite in Vx; lia)) as P.
    destruct sx; cbn [cond_Zopp]; f_equal; symmetry.
    + apply Z.compare_lt_iff. lia.
    + apply Z.compare_gt_iff. lia.
  - pose proof (units_pos mx ex ltac:(apply valid_finite in Vx; lia)) as Px.
    pose proof (units_pos my ey ltac:(apply valid_finite in Vy; lia)) as Py.
    cbn [SpecFloat.valid_binary] in Vx, Vy.
    assert (Hcmp : (match IntDef.Z.compare ex ey with
                    | Eq => PosDef.Pos.compare_cont Eq mx my
                    | Lt => Lt
                    | Gt => Gt
                    end) = (units mx ex ?= units my ey)).
    { change (IntDef.Z.compare ex ey) with (ex ?= ey).
      destruct (Z.compare_spec ex ey) as [->|Hlt|Hgt].
      - unfold units. change (PosDef.Pos.compare_cont Eq mx my) with (Zpos mx ?= Zpos my).
        pose proof (pow2_pos (ey + 1074) ltac:(apply bounded_spec in Vy; lia)) as P.
        destruct (Z.compare_spec (Zpos mx) (Zpos my)) as [E|L|G]; symmetry.
        + apply Z.compare_eq_iff. rewrite E. reflexivity.
        + apply Z.compare_lt_iff. nia.
        + apply Z.compare_gt_iff. nia.
      - symmetry. apply Z.compare_lt_iff. apply units_lt_exponent; assumption.
      - symmetry. apply Z.compare_gt_iff. apply units_lt_exponent; assumption. }
    assert (Hopp : (match IntDef.Z.compare ex ey with
                    | Eq => CompOpp (PosDef.Pos.compare_cont Eq mx my)
                    | Lt => Gt
                    | Gt => Lt
                    end) = CompOpp (units mx ex ?= units my ey)).
    { rewrite <- Hcmp. destruct (IntDef.Z.compare ex ey); reflexivity. }
    f_equal. destruct sx, sy; cbn [cond_Zopp].
    + rewrite Hopp, Z.compare_opp, (Z.compare_antisym (units mx ex) (units my ey)).
      reflexivity.
    + symmetry. apply Z.compare_lt_iff. lia.
    + symmetry. apply Z.compare_gt_iff. lia.
    + exact Hcmp.
Qed.

(** ** Rounding, as far as the bounds of the chart need it *)

Lemma shr_1_m r : 0 <= shr_m r -> shr_m (shr_1 r) = shr_m r / 2.
Proof.
  destruct r as [m rb sb]. cbn [shr_m]. intros H.
  destruct m as [|[p|p|]|p]; cbn [shr_1 shr_m]; try lia;
    Z.to_euclidean_division_equations; lia.
Qed.

Lemma iter_pos_shr_m p : forall r,
  0 <= shr_m r -> shr_m (iter_pos shr_1 p r) = shr_m r / 2 ^ Zpos p.
Proof.
  induction p as [p IH|p IH|]; intros r Hr; cbn [iter_pos].
  - pose proof (shr_1_nonneg r Hr) as H1.
    pose proof (iter_pos_invariant (fun r => 0 <= shr_m r) shr_1 shr_1_nonneg p _ H1) as H2.
    rewrite IH, IH, shr_1_m by assumption.
    pose proof (pow2_pos (Zpos p) ltac:(lia)) as P.
    rewrite !Z.div_div by lia.
    f_equal. replace (Zpos p~1) with (1 + Zpos p + Zpos p) by lia.
    rewrite !Z.pow_add_r by lia. lia.
  - pose proof (iter_pos_invariant (fun r => 0 <= shr_m r) shr_1 shr_1_nonneg p _ Hr) as H2.
    rewrite IH, IH by assumption.
    pose proof (pow2_pos (Zpos p) ltac:(lia)) as P.
    rewrite !Z.div_div by lia.
    f_equal. replace (Zpos p~0) with (Zpos p + Zpos p) by lia.
    rewrite !Z.pow_add_r by lia. lia.
  - rewrite shr_1_m by assumption. reflexivity.
Qed.

Lemma round_nearest_even_bounds m l :
  m <= round_nearest_even m l <= m + 1.
Proof. destruct l as [|[]]; cbn; try lia. destruct (Z.even m); lia. Qed.

Lemma Zdigits2_log2 z : 0 < z -> Zdigits2 z = Z.log2 z + 1.
Proof. intros H. destruct z as [|p|p]; try lia. apply digits2_pos_log2. Qed.

Lemma log2_bounds z : 0 < z -> 2 ^ Z.log2 z <= z < 2 ^ (Z.log2 z + 1).
Proof.
  intros H. pose proof (Z.log2_spec z H) as S.
  replace (Z.log2 z + 1) with (Z.succ (Z.log2 z)) by lia. exact S.
Qed.

(** A canonical significand is rounded to itself, or to an infinity when
    its exponent is too large. *)
Lemma binary_round_aux_exact (s : bool) (m : positive) (e : Z) :
  canonical_mantissa prec emax m e = true ->
  binary_round_aux prec emax s (Zpos m) e loc_Exact
  = if e <=? 971 then S754_finite s m e else S754_infinity s.
Proof.
  unfold canonical_mantissa. intros Hc. apply Z.eqb_eq in Hc.
  unfold binary_round_aux, shr_fexp. cbn [Zdigits2 shr_record_of_loc].
  rewrite Hc, Z.sub_diag. cbn [shr shr_m loc_of_shr_record round_nearest_even].
  cbn [Zdigits2 shr_record_of_loc]. rewrite Hc, Z.sub_diag. cbn [shr shr_m].
  reflexivity.
Qed.

Lemma units_shift m e k :
  -1074 <= e -> 0 <= k -> units m (e + k) = units m e * 2 ^ k.
Proof.
  intros He Hk. unfold units.
  replace (e + k + 1074) with (e + 1074 + k) by lia.
  rewrite Z.pow_add_r by lia. lia.
Qed.

(** Rounding a significand whose exponent is below the canonical one: the
    significand is shifted right to 53 bits and rounded. *)
Lemma binary_round_aux_shift (s : bool) (m : positive) (e : Z) :
  -1074 <= e ->
  e < fexp prec emax (Zpos (digits2_pos m) + e) ->
  let c := fexp prec emax (Zpos (digits2_pos m) + e) in
  exists m2 : Z,
    Zpos m / 2 ^ (c - e) <= m2 <= Zpos m / 2 ^ (c - e) + 1
    /\ 2 ^ 52 <= m2 <= 2 ^ 53
    /\ binary_round_aux prec emax s (Zpos m) e loc_Exact
       = if m2 <? 2 ^ 53
         then if c <=? 971 then S754_finite s (Z.to_pos m2) c else S754_infinity s
         else if c + 1 <=? 971 then S754_finite s 4503599627370496 (c + 1)
              else S754_infinity s.
Proof.
  intros He Hlt c. rewrite fexp_eq, digits2_pos_log2 in Hlt.
  assert (Hc : c = Z.log2 (Zpos m) + 1 + e - 53).
  { unfold c. rewrite fexp_eq, digits2_pos_log2. lia. }
  assert (Hp : 0 < c - e) by lia.
  unfold binary_round_aux, shr_fexp. cbn [Zdigits2]. fold c.
  destruct (c - e) as [|p|p] eqn:Ep; try lia. cbn [shr].
  set (r1 := iter_pos shr_1 p (shr_record_of_loc (Zpos m) loc_Exact)).
  assert (Hm1 : shr_m r1 = Zpos m / 2 ^ Zpos p).
  { unfold r1. rewrite iter_pos_shr_m; cbn [shr_record_of_loc shr_m]; [reflexivity|lia]. }
  pose proof (log2_bounds (Zpos m) ltac:(lia)) as [Lm Um].
  assert (Hp' : Zpos p = Z.log2 (Zpos m) - 52) by lia.
  assert (B1 : 2 ^ 52 <= shr_m r1 < 2 ^ 53).
  { rewrite Hm1. pose proof (pow2_pos (Zpos p) ltac:(lia)) as P.
    assert (E1 : 2 ^ Z.log2 (Zpos m) = 2 ^ 52 * 2 ^ Zpos p).
    { rewrite Hp'. rewrite <- Z.pow_add_r by lia. f_equal. lia. }
    assert (E2 : 2 ^ (Z.log2 (Zpos m) + 1) = 2 ^ 53 * 2 ^ Zpos p).
    { rewrite Hp'. rewrite <- Z.pow_add_r by lia. f_equal. lia. }
    split.
    - apply Z.div_le_lower_bound; [lia|]. lia.
    - apply Z.div_lt_upper_bound; [lia|]. lia. }
  pose proof (round_nearest_even_bounds (shr_m r1) (loc_of_shr_record r1)) as B2.
  set (m2 := round_nearest_even (shr_m r1) (loc_of_shr_record r1)) in *.
  exists m2. rewrite <- Hm1. split; [exact B2|]. split; [lia|].
  replace (e + Zpos p) with c by lia.
  assert (Hm2 : 0 < m2) by (pose proof (pow2_pos 52); lia).
  destruct (Z.ltb_spec m2 (2 ^ 53)) as [Hlt53|Hge53].
  - (* no carry *)
    assert (Hd : Zdigits2 m2 = 53).
    { rewrite Zdigits2_log2 by exact Hm2.
      assert (Z.log2 m2 = 52); [|lia].
      apply Z.log2_unique; [lia|]. change (Z.succ 52) with 53. lia. }
    rewrite Hd, fexp_eq.
    replace (Z.max (53 + c - 53) (-1074) - c) with 0 by lia.
    cbn [shr shr_m shr_record_of_loc].
    destruct m2 as [|q|q]; try lia. reflexivity.
  - (* the carry to 2^53 *)
    assert (E : m2 = 2 ^ 53) by lia. rewrite E.
    change (Zdigits2 (2 ^ 53)) with 54. rewrite fexp_eq.
    replace (Z.max (54 + c - 53) (-1074) - c) with 1 by lia.
    cbn [shr]. reflexivity.
Qed.

Lemma canonical_small m e :
  fexp prec emax (Zpos (digits2_pos m) + e) = e -> Zpos m < 2 ^ 53.
Proof.
  rewrite fexp_eq, digits2_pos_log2. intros H.
  assert (Hl : Z.log2 (Zpos m) < 53) by lia.
  apply Z.log2_lt_pow2 in Hl; lia.
Qed.

(** What [binary_round] returns for the significand [m] at the exponent
    [e]: with [c] the canonical exponent, the value is cut to a multiple
    [m2] of 2^c, at most one above the quotient, and [m2 * 2^c] is the
    result, unless its exponent is too large. *)
Lemma binary_round_spec (s : bool) (m : positive) (e : Z) :
  -1074 <= e ->
  let c := fexp prec emax (Zpos (digits2_pos m) + e) in
  exists (m2 : Z) (mr : positive) (er : Z),
    units m e / 2 ^ (c + 1074) <= m2 <= units m e / 2 ^ (c + 1074) + 1
    /\ 0 < m2 <= 2 ^ 53
    /\ c <= er <= c + 1
    /\ (er = c + 1 -> m2 = 2 ^ 53)
    /\ units mr er = m2 * 2 ^ (c + 1074)
    /\ binary_round prec emax s m e
       = if er <=? 971 then S754_finite s mr er else S754_infinity s.
Proof.
  intros He c.
  assert (Hc : -1074 <= c) by (unfold c; rewrite fexp_eq; lia).
  pose proof (pow2_pos (e + 1074) ltac:(lia)) as Pe.
  pose proof (pow2_pos (c + 1074) ltac:(lia)) as Pc.
  unfold binary_round, shl_align. fold c.
  change (IntDef.Z.sub c e) with (c - e).
  destruct (c - e) as [|p|p] eqn:Ep.
  - (* the exponent is the canonical one *)
    assert (E : e = c) by lia.
    assert (Hcan : fexp prec emax (Zpos (digits2_pos m) + e) = e) by (fold c; lia).
    rewrite binary_round_aux_exact by (unfold canonical_mantissa; apply Z.eqb_eq, Hcan).
    exists (Zpos m), m, e. rewrite <- E.
    assert (Q : units m e / 2 ^ (e + 1074) = Zpos m).
    { unfold units. apply Z.div_mul. lia. }
    rewrite Q. pose proof (canonical_small m e Hcan).
    repeat split; try lia.
  - (* it is above: shift right and round *)
    destruct (binary_round_aux_shift s m e He ltac:(fold c; lia))
      as (m2 & B & R & ->). fold c in B |- *.
    assert (Q : units m e / 2 ^ (c + 1074) = Zpos m / 2 ^ (c - e)).
    { unfold units. replace (c + 1074) with ((c - e) + (e + 1074)) by lia.
      rewrite (Z.pow_add_r 2 (c - e) (e + 1074)) by lia.
      apply Z.div_mul_cancel_r; [|lia].
      pose proof (pow2_pos (c - e) ltac:(lia)). lia. }
    rewrite Q.
    destruct (Z.ltb_spec m2 (2 ^ 53)) as [Hlt|Hge].
    + exists m2, (Z.to_pos m2), c.
      pose proof (pow2_pos 52 ltac:(lia)).
      repeat split; try lia.
      unfold units. rewrite Z2Pos.id by lia. reflexivity.
    + exists m2, 4503599627370496%positive, (c + 1).
      assert (E : m2 = 2 ^ 53) by lia.
      repeat split; try lia.
      rewrite E. unfold units.
      replace (c + 1 + 1074) with (1 + (c + 1074)) by lia.
      rewrite (Z.pow_add_r 2 1 (c + 1074)) by lia.
      change (2 ^ 1) with 2. change (2 ^ 53) with 9007199254740992. lia.
  - (* it is below: shift left *)
    assert (Hm' : Zpos (Pos.iter xO m p) = Zpos m * 2 ^ Zpos p) by apply Zpos_iter_xO.
    assert (Hcan : fexp prec emax (Zpos (digits2_pos (Pos.iter xO m p)) + c) = c).
    { rewrite digits2_pos_iter_xO, Pos2Z.inj_add.
      replace (Zpos (digits2_pos m) + Zpos p + c) with (Zpos (digits2_pos m) + e) by lia.
      reflexivity. }
    change (PosDef.Pos.iter xO m p) with (Pos.iter xO m p).
    rewrite binary_round_aux_exact by (unfold canonical_mantissa; apply Z.eqb_eq, Hcan).
    exists (Zpos (Pos.iter xO m p)), (Pos.iter xO m p), c.
    assert (Q : units m e / 2 ^ (c + 1074) = Zpos (Pos.iter xO m p)).
    { rewrite Hm'. unfold units.
      replace (e + 1074) with (Zpos p + (c + 1074)) by lia.
      rewrite (Z.pow_add_r 2 (Zpos p) (c + 1074)), Z.mul_assoc by lia.
      apply Z.div_mul. lia. }
    rewrite Q. pose proof (canonical_small _ c Hcan).
    repeat split; try lia.
Qed.

(** ** A Number less a Number that is not negative *)

Lemma shl_align_units m e ez :
  ez <= e -> -1074 <= ez ->
  Zpos (fst (shl_align m e ez)) * 2 ^ (ez + 1074) = units m e.
Proof.
  intros Hle Hez. unfold shl_align, units.
  change (IntDef.Z.sub ez e) with (ez - e).
  destruct (ez - e) as [|d|d] eqn:Ed; try lia; cbn [fst].
  - replace ez with e by lia. reflexivity.
  - change (PosDef.Pos.iter xO m d) with (Pos.iter xO m d).
    rewrite Zpos_iter_xO. replace (e + 1074) with (Zpos d + (ez + 1074)) by lia.
    rewrite (Z.pow_add_r 2 (Zpos d) (ez + 1074)) by lia. lia.
Qed.

Lemma log2_units m e :
  -1074 <= e -> Z.log2 (units m e) = Z.log2 (Zpos m) + e + 1074.
Proof.
  intros He. unfold units. rewrite Z.log2_mul_pow2 by lia. lia.
Qed.

Lemma units_lt_log2 m1 e1 m2 e2 :
  -1074 <= e1 -> -1074 <= e2 -> units m1 e1 <= units m2 e2 ->
  Z.log2 (Zpos m1) + e1 <= Z.log2 (Zpos m2) + e2.
Proof.
  intros H1 H2 H. apply Z.log2_le_mono in H.
  rewrite !log2_units in H by assumption. lia.
Qed.

(** The difference of the aligned significands, in units. *)
Lemma aligned_difference sx mx ex sp mp ep :
  -1074 <= ex -> -1074 <= ep ->
  let ez := Z.min ex ep in
  (cond_Zopp sx (Zpos (fst (shl_align mx ex ez)))
   - cond_Zopp sp (Zpos (fst (shl_align mp ep ez)))) * 2 ^ (ez + 1074)
  = cond_Zopp sx (units mx ex) - cond_Zopp sp (units mp ep).
Proof.
  intros Hx Hp ez.
  pose proof (shl_align_units mx ex ez ltac:(lia) ltac:(lia)) as Ex.
  pose proof (shl_align_units mp ep ez ltac:(lia) ltac:(lia)) as Ep.
  destruct sx, sp; cbn [cond_Zopp]; lia.
Qed.

(** Rounding a value below a positive Number gives a Number that is not
    above it. *)
Lemma binary_round_below (s : bool) (q : positive) (ez : Z) (mx : positive) (ex : Z) :
  -1074 <= ez ->
  bounded prec emax mx ex = true ->
  units q ez < units mx ex ->
  exists mr er,
    binary_round prec emax s q ez = S754_finite s mr er
    /\ units mr er <= units mx ex.
Proof.
  intros Hez Vx Hlt.
  pose proof (bounded_spec mx ex Vx) as (Cx & Ex & Bx).
  destruct (binary_round_spec s q ez Hez) as (m2 & mr & er & B & M & R & Rc & U & ->).
  set (c := fexp prec emax (Zpos (digits2_pos q) + ez)) in *.
  assert (Hc : -1074 <= c) by (unfold c; rewrite fexp_eq; lia).
  assert (Hcx : c <= ex).
  { pose proof (units_lt_log2 q ez mx ex Hez ltac:(lia) ltac:(lia)) as L.
    unfold c. rewrite fexp_eq, digits2_pos_log2. lia. }
  pose proof (pow2_pos (c + 1074) ltac:(lia)) as Pc.
  pose proof (pow2_pos (ex - c) ltac:(lia)) as Pd.
  assert (EX : units mx ex = (Zpos mx * 2 ^ (ex - c)) * 2 ^ (c + 1074)).
  { unfold units. replace (ex + 1074) with ((ex - c) + (c + 1074)) by lia.
    rewrite (Z.pow_add_r 2 (ex - c) (c + 1074)) by lia. lia. }
  assert (Hm2 : m2 <= Zpos mx * 2 ^ (ex - c)).
  { assert (units q ez / 2 ^ (c + 1074) < Zpos mx * 2 ^ (ex - c)); [|lia].
    apply Z.div_lt_upper_bound; [lia|]. lia. }
  assert (Her : er <= 971).
  { destruct (Z.eq_dec er (c + 1)) as [E1|N1]; [|lia].
    specialize (Rc E1).
    destruct (Z.eq_dec ex c) as [->|]; [|lia].
    rewrite Z.sub_diag in Hm2. change (2 ^ 0) with 1 in Hm2. lia. }
  destruct (Z.leb_spec er 971); [|lia].
  exists mr, er. split; [reflexivity|]. rewrite U, EX. nia.
Qed.

(** Rounding a value above a positive Number gives a Number that is not
    below it, or an infinity. *)
Lemma binary_round_above (s : bool) (q : positive) (ez : Z) (mx : positive) (ex : Z) :
  -1074 <= ez ->
  bounded prec emax mx ex = true ->
  units mx ex <= units q ez ->
  binary_round prec emax s q ez = S754_infinity s
  \/ exists mr er,
       binary_round prec emax s q ez = S754_finite s mr er
       /\ units mx ex <= units mr er.
Proof.
  intros Hez Vx Hle.
  pose proof (bounded_spec mx ex Vx) as (Cx & Ex & Bx).
  destruct (binary_round_spec s q ez Hez) as (m2 & mr & er & B & M & R & Rc & U & ->).
  set (c := fexp prec emax (Zpos (digits2_pos q) + ez)) in *.
  assert (Hc : -1074 <= c) by (unfold c; rewrite fexp_eq; lia).
  destruct (Z.leb_spec er 971); [right|left; reflexivity].
  exists mr, er. split; [reflexivity|]. rewrite U.
  pose proof (units_lt_log2 mx ex q ez ltac:(lia) Hez Hle) as L.
  assert (Hcx : ex <= c) by (unfold c; rewrite fexp_eq, digits2_pos_log2; lia).
  pose proof (pow2_pos (c + 1074) ltac:(lia)) as Pc.
  assert (Hfloor : forall G, 0 <= G -> G * 2 ^ (c + 1074) <= units q ez ->
                             G * 2 ^ (c + 1074) <= m2 * 2 ^ (c + 1074)).
  { intros G HG Hq.
    assert (G <= units q ez / 2 ^ (c + 1074)); [|nia].
    apply Z.div_le_lower_bound; lia. }
  destruct (Z.eq_dec ex c) as [Ec|Nc].
  - (* the same grid *)
    specialize (Hfloor (Zpos mx) ltac:(lia)).
    unfold units in Hfloor at 1. unfold units at 1. rewrite Ec in *. apply Hfloor.
    unfold units in Hle at 1. exact Hle.
  - (* a coarser grid: a power of two lies between *)
    assert (Hq : c = Z.log2 (Zpos q) + ez - 52).
    { assert (Hcdef : c = Z.max (Z.log2 (Zpos q) + 1 + ez - 53) (-1074))
        by (unfold c; rewrite fexp_eq, digits2_pos_log2; reflexivity).
      lia. }
    pose proof (log2_bounds (Zpos q) ltac:(lia)) as [Lq _].
    pose proof (log2_bounds (Zpos mx) ltac:(lia)) as [_ Ux].
    pose proof (Z.log2_nonneg (Zpos q)) as Nq.
    pose proof (Z.log2_nonneg (Zpos mx)) as Nx.
    specialize (Hfloor (2 ^ 52) ltac:(lia)).
    assert (E52 : 2 ^ 52 * 2 ^ (c + 1074) = 2 ^ (Z.log2 (Zpos q)) * 2 ^ (ez + 1074)).
    { rewrite <- !Z.pow_add_r by lia. f_equal. lia. }
    pose proof (pow2_pos (ez + 1074) ltac:(lia)) as Pz.
    assert (Hup : units mx ex <= 2 ^ 52 * 2 ^ (c + 1074)).
    { rewrite E52. rewrite <- Z.pow_add_r by lia.
      unfold units. pose proof (pow2_pos (ex + 1074) ltac:(lia)) as Px.
      assert (Zpos mx * 2 ^ (ex + 1074) < 2 ^ (Z.log2 (Zpos mx) + 1) * 2 ^ (ex + 1074)) by nia.
      rewrite <- Z.pow_add_r in H0 by lia.
      assert (2 ^ (Z.log2 (Zpos mx) + 1 + (ex + 1074))
              <= 2 ^ (Z.log2 (Zpos q) + (ez + 1074))).
      { apply Z.pow_le_mono_r; lia. }
      lia. }
    assert (units q ez >= 2 ^ 52 * 2 ^ (c + 1074)).
    { rewrite E52. unfold units. nia. }
    lia.
Qed.

Lemma binary_round_signed (s : bool) (q : positive) (ez : Z) :
  -1074 <= ez ->
  binary_round prec emax s q ez = S754_infinity s
  \/ exists mr er, binary_round prec emax s q ez = S754_finite s mr er.
Proof.
  intros Hez.
  destruct (binary_round_spec s q ez Hez) as (m2 & mr & er & _ & _ & _ & _ & _ & ->).
  destruct (er <=? 971); [right; eauto|left; reflexivity].
Qed.

Lemma SFleb_units x y :
  valid_binary x = true -> valid_binary y = true ->
  sf_finite x = true -> sf_finite y = true ->
  sf_units x <= sf_units y -> SFleb x y = true.
Proof.
  intros Vx Vy Fx Fy H. unfold SFleb. rewrite (SFcompare_units x y Vx Vy Fx Fy).
  destruct (Z.compare_spec (sf_units x) (sf_units y)); try reflexivity. lia.
Qed.

Lemma SFleb_refl x : x <> S754_nan -> SFleb x x = true.
Proof. intros H. unfold SFleb. rewrite (SFcompare_refl x H). reflexivity. Qed.

(** Subtracting a Number that is not negative from a finite one does not
    give more. *)
Lemma SFsub_le (x p : spec_float) :
  valid_binary x = true -> valid_binary p = true ->
  valid_binary (SFsub prec emax x p) = true ->
  sf_finite x = true -> sf_nonneg p = true ->
  SFleb (SFsub prec emax x p) x = true.
Proof.
  intros Vx Vp Vr Fx Np.
  destruct p as [sp|sp| |sp mp ep]; try discriminate Np.
  - (* x - 0 *)
    destruct x as [sx|sx| |sx mx ex]; try discriminate Fx.
    + destruct sx, sp; reflexivity.
    + cbn [SFsub]. apply SFleb_refl. discriminate.
  - (* x - Infinity *)
    cbn [sf_nonneg] in Np. apply negb_true_iff in Np. subst sp.
    destruct x as [sx|sx| |sx mx ex]; try discriminate Fx; try reflexivity.
  - cbn [sf_nonneg] in Np. apply negb_true_iff in Np. subst sp.
    destruct x as [sx|sx| |sx mx ex]; try discriminate Fx.
    + reflexivity.
    + pose proof (valid_finite _ _ _ Vx) as (Ex & _).
      pose proof (valid_finite _ _ _ Vp) as (Ep & _).
      pose proof (units_pos mx ex ltac:(lia)) as PX.
      pose proof (units_pos mp ep ltac:(lia)) as PP.
      pose proof (aligned_difference sx mx ex false mp ep ltac:(lia) ltac:(lia)) as Hz.
      cbv zeta in Hz.
      cbn [SFsub] in Vr |- *.
      change (cond_Zopp false ?a) with a in *.
      change (IntDef.Z.min ex ep) with (Z.min ex ep) in *.
      set (ez := Z.min ex ep) in *.
      change (IntDef.Z.sub ?a ?b) with (a - b) in *.
      set (z := cond_Zopp sx (Zpos (fst (shl_align mx ex ez)))
                - Zpos (fst (shl_align mp ep ez))) in *.
      assert (Hez : -1074 <= ez) by (unfold ez; lia).
      pose proof (pow2_pos (ez + 1074) ltac:(lia)) as Pz.
      cbn [SpecFloat.valid_binary] in Vx.
      destruct z as [|q|q]; cbn [binary_normalize] in Vr |- *.
      * (* the difference is 0 *)
        destruct sx; [change (cond_Zopp true ?a) with (- a) in Hz; lia|reflexivity].
      * (* it is positive *)
        assert (Hq : units q ez = cond_Zopp sx (units mx ex) - units mp ep)
          by (unfold units at 1; exact Hz).
        pose proof (units_pos q ez Hez) as PQ.
        destruct sx;
          [change (cond_Zopp true ?a) with (- a) in Hq; lia
          |change (cond_Zopp false ?a) with a in Hq].
        destruct (binary_round_below false q ez mx ex Hez Vx ltac:(lia))
          as (mr & er & E & Hle).
        rewrite E in Vr |- *.
        apply SFleb_units; try assumption; reflexivity.
      * (* it is negative *)
        assert (Hq : units q ez = units mp ep - cond_Zopp sx (units mx ex)).
        { unfold units at 1. change (Zneg q) with (- Zpos q) in Hz. lia. }
        pose proof (units_pos q ez Hez) as PQ.
        destruct sx;
          [change (cond_Zopp true ?a) with (- a) in Hq
          |change (cond_Zopp false ?a) with a in Hq].
        -- destruct (binary_round_above true q ez mx ex Hez Vx ltac:(lia))
             as [E|(mr & er & E & Hge)]; rewrite E in Vr |- *; [reflexivity|].
           apply SFleb_units; try assumption; try reflexivity.
           cbn [sf_units cond_Zopp]. lia.
        -- destruct (binary_round_signed true q ez Hez) as [E|(mr & er & E)];
             rewrite E; reflexivity.
Qed.

(** Adding a Number that is not negative to a finite one does not give
    less. *)
Lemma SFadd_ge (x p : spec_float) :
  valid_binary x = true -> valid_binary p = true ->
  valid_binary (SFadd prec emax x p) = true ->
  sf_finite x = true -> sf_nonneg p = true ->
  SFleb x (SFadd prec emax x p) = true.
Proof.
  intros Vx Vp Vr Fx Np.
  destruct p as [sp|sp| |sp mp ep]; try discriminate Np.
  - (* x + 0 *)
    destruct x as [sx|sx| |sx mx ex]; try discriminate Fx.
    + destruct sx, sp; reflexivity.
    + cbn [SFadd]. apply SFleb_refl. discriminate.
  - (* x + Infinity *)
    cbn [sf_nonneg] in Np. apply negb_true_iff in Np. subst sp.
    destruct x as [sx|sx| |sx mx ex]; try discriminate Fx; try reflexivity.
  - cbn [sf_nonneg] in Np. apply negb_true_iff in Np. subst sp.
    destruct x as [sx|sx| |sx mx ex]; try discriminate Fx.
    + reflexivity.
    + pose proof (valid_finite _ _ _ Vx) as (Ex & _).
      pose proof (valid_finite _ _ _ Vp) as (Ep & _).
      pose proof (units_pos mx ex ltac:(lia)) as PX.
      pose proof (units_pos mp ep ltac:(lia)) as PP.
      pose proof (aligned_difference sx mx ex true mp ep ltac:(lia) ltac:(lia)) as Hz.
      cbv zeta in Hz.
      cbn [SFadd] in Vr |- *.
      change (cond_Zopp false ?a) with a in *.
      change (cond_Zopp true ?a) with (- a) in Hz.
      change (IntDef.Z.min ex ep) with (Z.min ex ep) in *.
      set (ez := Z.min ex ep) in *.
      change (IntDef.Z.add ?a ?b) with (a + b) in *.
      set (z := cond_Zopp sx (Zpos (fst (shl_align mx ex ez)))
                + Zpos (fst (shl_align mp ep ez))) in *.
      assert (Hz' : z * 2 ^ (ez + 1074) = cond_Zopp sx (units mx ex) + units mp ep).
      { transitivity (cond_Zopp sx (units mx ex) - - units mp ep); [|lia].
        rewrite <- Hz. unfold z. f_equal. }
      clear Hz.
      assert (Hez : -1074 <= ez) by (unfold ez; lia).
      pose proof (pow2_pos (ez + 1074) ltac:(lia)) as Pz.
      cbn [SpecFloat.valid_binary] in Vx.
      destruct z as [|q|q]; cbn [binary_normalize] in Vr |- *.
      * (* the sum is 0 *)
        destruct sx; [reflexivity|change (cond_Zopp false ?a) with a in Hz'; lia].
      * (* it is positive *)
        assert (Hq : units q ez = cond_Zopp sx (units mx ex) + units mp ep)
          by (unfold units at 1; exact Hz').
        pose proof (units_pos q ez Hez) as PQ.
        destruct sx;
          [change (cond_Zopp true ?a) with (- a) in Hq
          |change (cond_Zopp false ?a) with a in Hq].
        -- destruct (binary_round_signed false q ez Hez) as [E|(mr & er & E)];
             rewrite E; reflexivity.
        -- destruct (binary_round_above false q ez mx ex Hez Vx ltac:(lia))
             as [E|(mr & er & E & Hge)]; rewrite E in Vr |- *; [reflexivity|].
           apply SFleb_units; try assumption; reflexivity.
      * (* it is negative *)
        assert (Hq : units q ez = - (cond_Zopp sx (units mx ex) + units mp ep)).
        { unfold units at 1. change (Zneg q) with (- Zpos q) in Hz'. lia. }
        pose proof (units_pos q ez Hez) as PQ.
        destruct sx;
          [change (cond_Zopp true ?a) with (- a) in Hq
          |change (cond_Zopp false ?a) with a in Hq; lia].
        destruct (binary_round_below true q ez mx ex Hez Vx ltac:(lia))
          as (mr & er & E & Hle).
        rewrite E in Vr |- *.
        apply SFleb_units; try assumption; try reflexivity.
        cbn [sf_units cond_Zopp]. lia.
Qed.

(** *** The order of the Numbers *)

Lemma units_bound m e : bounded prec emax m e = true -> units m e < 2 ^ 2100.
Proof.
  intros B.
  assert (V : valid_binary (S754_finite false m e) = true) by exact B.
  destruct (valid_finite _ _ _ V) as (He & Hm & _).
  unfold units.
  pose proof (Z.pow_le_mono_r 2 (e + 1074) 2045 ltac:(lia) ltac:(lia)) as Hp.
  pose proof (pow2_pos (e + 1074) ltac:(lia)) as Pp.
  change (2 ^ 2100) with (2 ^ 53 * 2 ^ 2045 * 4).
  assert (Zpos m * 2 ^ (e + 1074) < 2 ^ 53 * 2 ^ 2045); [|lia].
  apply Z.le_lt_trans with (Zpos m * 2 ^ 2045).
  - apply Z.mul_le_mono_nonneg_l; lia.
  - apply Z.mul_lt_mono_pos_r; [reflexivity|exact Hm].
Qed.

Lemma finite_rank (x : spec_float) :
  valid_binary x = true -> sf_finite x = true ->
  sf_rank x = sf_units x /\ - 2 ^ 2100 < sf_units x < 2 ^ 2100.
Proof.
  intros V F. destruct x as [s|s| |s m e]; try discriminate F.
  - split; [reflexivity|]. cbn [sf_units]. split; reflexivity.
  - split; [reflexivity|]. cbn [sf_units].
    pose proof (units_bound m e V) as B.
    destruct (valid_finite _ _ _ V) as (He & _).
    pose proof (units_pos m e ltac:(lia)) as P.
    destruct s; cbn [cond_Zopp]; lia.
Qed.

(** [SFcompare] compares the ranks. *)
Lemma SFcompare_rank (x y : spec_float) :
  valid_binary x = true -> valid_binary y = true ->
  x <> S754_nan -> y <> S754_nan ->
  SFcompare x y = Some (sf_rank x ?= sf_rank y).
Proof.
  intros Vx Vy Nx Ny.
  destruct (sf_finite x) eqn:Fx, (sf_finite y) eqn:Fy.
  - destruct (finite_rank x Vx Fx) as (-> & _), (finite_rank y Vy Fy) as (-> & _).
    apply SFcompare_units; assumption.
  - destruct (finite_rank x Vx Fx) as (-> & Bx).
    destruct y as [sy|sy| |sy my ey]; try discriminate Fy; [|congruence].
    cbn [sf_rank].
    destruct x as [sx|sx| |sx mx ex]; try discriminate Fx;
      destruct sy; cbn [SFcompare cond_Zopp]; f_equal; symmetry;
      try (apply Z.compare_gt_iff; lia); try (apply Z.compare_lt_iff; lia).
  - destruct (finite_rank y Vy Fy) as (-> & By).
    destruct x as [sx|sx| |sx mx ex]; try discriminate Fx; [|congruence].
    cbn [sf_rank].
    destruct y as [sy|sy| |sy my ey]; try discriminate Fy;
      destruct sx; cbn [SFcompare cond_Zopp]; f_equal; symmetry;
      try (apply Z.compare_gt_iff; lia); try (apply Z.compare_lt_iff; lia).
  - destruct x as [sx|sx| |sx mx ex]; try discriminate Fx; [|congruence].
    destruct y as [sy|sy| |sy my ey]; try discriminate Fy; [|congruence].
    destruct sx, sy; reflexivity.
Qed.

Lemma SFleb_rank (x y : spec_float) :
  valid_binary x = true -> valid_binary y = true ->
  x <> S754_nan -> y <> S754_nan ->
  SFleb x y = true <-> sf_rank x <= sf_rank y.
Proof.
  intros Vx Vy Nx Ny. unfold SFleb. rewrite (SFcompare_rank x y Vx Vy Nx Ny).
  destruct (Z.compare_spec (sf_rank x) (sf_rank y)); split; intros; 
    try reflexivity; try discriminate; lia.
Qed.

Lemma SFltb_rank (x y : spec_float) :
  valid_binary x = true -> valid_binary y = true ->
  x <> S754_nan -> y <> S754_nan ->
  SFltb x y = true <-> sf_rank x < sf_rank y.
Proof.
  intros Vx Vy Nx Ny. unfold SFltb. rewrite (SFcompare_rank x y Vx Vy Nx Ny).
  destruct (Z.compare_spec (sf_rank x) (sf_rank y)); split; intros; 
    try reflexivity; try discriminate; lia.
Qed.

Lemma SFleb_not_nan (x y : spec_float) :
  SFleb x y = true -> x <> S754_nan /\ y <> S754_nan.
Proof.
  destruct x as [sx|sx| |sx mx ex], y as [sy|sy| |sy my ey];
    try discriminate; intros _; split; discriminate.
Qed.

Lemma SFleb_trans (x y z : spec_float) :
  valid_binary x = true -> valid_binary y = true -> valid_binary z = true ->
  SFleb x y = true -> SFleb y z = true -> SFleb x z = true.
Proof.
  intros Vx Vy Vz Hxy Hyz.
  destruct (SFleb_not_nan x y Hxy) as (Nx & Ny).
  destruct (SFleb_not_nan y z Hyz) as (_ & Nz).
  apply SFleb_rank in Hxy, Hyz; try assumption.
  apply SFleb_rank; try assumption. lia.
Qed.

Lemma leb_rank (a b : float) :
  PrimFloat.is_nan a = false -> PrimFloat.is_nan b = false ->
  (a <=? b)%float = true <-> sf_rank (Prim2SF a) <= sf_rank (Prim2SF b).
Proof.
  intros Na Nb. rewrite FloatAxioms.leb_spec.
  apply SFleb_rank; try apply Prim2SF_valid; apply is_nan_spec; assumption.
Qed.

Lemma ltb_rank (a b : float) :
  PrimFloat.is_nan a = false -> PrimFloat.is_nan b = false ->
  (a <? b)%float = true <-> sf_rank (Prim2SF a) < sf_rank (Prim2SF b).
Proof.
  intros Na Nb. rewrite FloatAxioms.ltb_spec.
  apply SFltb_rank; try apply Prim2SF_valid; apply is_nan_spec; assumption.
Qed.

Lemma zero_rank (v : float) : PrimFloat.is_zero v = true -> sf_rank (Prim2SF v) = 0.
Proof.
  rewrite is_zero_spec. destruct (Prim2SF v); try discriminate. reflexivity.
Qed.

(** One round of [Math.min] on Numbers that are not NaN gives one of the
    two, the one of the smaller rank. *)
Lemma min_step_rank (a n : float) :
  PrimFloat.is_nan a = false -> PrimFloat.is_nan n = false ->
  (min_step a n = a \/ min_step a n = n)
  /\ sf_rank (Prim2SF (min_step a n))
     = Z.min (sf_rank (Prim2SF a)) (sf_rank (Prim2SF n)).
Proof.
  intros Na Nn. unfold min_step. rewrite Na, Nn. cbn [orb].
  destruct (is_neg_zero n && is_pos_zero a) eqn:Ez.
  - split; [right; reflexivity|].
    apply andb_true_iff in Ez as (En & Ea).
    apply andb_true_iff in En as (En & _). apply andb_true_iff in Ea as (Ea & _).
    rewrite (zero_rank n En), (zero_rank a Ea). reflexivity.
  - destruct (n <? a)%float eqn:El.
    + split; [right; reflexivity|]. apply (ltb_rank n a Nn Na) in El. lia.
    + split; [left; reflexivity|].
      assert (~ sf_rank (Prim2SF n) < sf_rank (Prim2SF a)); [|lia].
      intros H. apply (ltb_rank n a Nn Na) in H. congruence.
Qed.

Lemma max_step_rank (a n : float) :
  PrimFloat.is_nan a = false -> PrimFloat.is_nan n = false ->
  (max_step a n = a \/ max_step a n = n)
  /\ sf_rank (Prim2SF (max_step a n))
     = Z.max (sf_rank (Prim2SF a)) (sf_rank (Prim2SF n)).
Proof.
  intros Na Nn. unfold max_step. rewrite Na, Nn. cbn [orb].
  destruct (is_pos_zero n && is_neg_zero a) eqn:Ez.
  - split; [right; reflexivity|].
    apply andb_true_iff in Ez as (En & Ea).
    apply andb_true_iff in En as (En & _). apply andb_true_iff in Ea as (Ea & _).
    rewrite (zero_rank n En), (zero_rank a Ea). reflexivity.
  - destruct (a <? n)%float eqn:El.
    + split; [right; reflexivity|]. apply (ltb_rank a n Na Nn) in El. lia.
    + split; [left; reflexivity|].
      assert (~ sf_rank (Prim2SF a) < sf_rank (Prim2SF n)); [|lia].
      intros H. apply (ltb_rank a n Na Nn) in H. congruence.
Qed.

Lemma fold_min_rank (vs : list float) : forall acc : float,
  PrimFloat.is_nan acc = false -> Forall (fun v => PrimFloat.is_nan v = false) vs ->
  let r := fold_left min_step vs acc in
  (r = acc \/ In r vs)
  /\ sf_rank (Prim2SF r) <= sf_rank (Prim2SF acc)
  /\ Forall (fun v => sf_rank (Prim2SF r) <= sf_rank (Prim2SF v)) vs.
Proof.
  induction vs as [|v vs IH]; intros acc Na Hvs; cbn [fold_left].
  - split; [left; reflexivity|]. split; [lia|constructor].
  - inversion Hvs as [|? ? Nv Hvs']; subst.
    destruct (min_step_rank acc v Na Nv) as (Hin & Hr).
    assert (Nm : PrimFloat.is_nan (min_step acc v) = false)
      by (destruct Hin as [-> | ->]; assumption).
    destruct (IH (min_step acc v) Nm Hvs') as (Hin' & Hle & Hall).
    cbv zeta. split; [|split].
    + destruct Hin' as [-> |Hin']; [|right; right; exact Hin'].
      destruct Hin as [-> | ->]; [left; reflexivity|right; left; reflexivity].
    + lia.
    + constructor; [lia|exact Hall].
Qed.

Lemma fold_max_rank (vs : list float) : forall acc : float,
  PrimFloat.is_nan acc = false -> Forall (fun v => PrimFloat.is_nan v = false) vs ->
  let r := fold_left max_step vs acc in
  (r = acc \/ In r vs)
  /\ sf_rank (Prim2SF acc) <= sf_rank (Prim2SF r)
  /\ Forall (fun v => sf_rank (Prim2SF v) <= sf_rank (Prim2SF r)) vs.
Proof.
  induction vs as [|v vs IH]; intros acc Na Hvs; cbn [fold_left].
  - split; [left; reflexivity|]. split; [lia|constructor].
  - inversion Hvs as [|? ? Nv Hvs']; subst.
    destruct (max_step_rank acc v Na Nv) as (Hin & Hr).
    assert (Nm : PrimFloat.is_nan (max_step acc v) = false)
      by (destruct Hin as [-> | ->]; assumption).
    destruct (IH (max_step acc v) Nm Hvs') as (Hin' & Hle & Hall).
    cbv zeta. split; [|split].
    + destruct Hin' as [-> |Hin']; [|right; right; exact Hin'].
      destruct Hin as [-> | ->]; [left; reflexivity|right; left; reflexivity].
    + lia.
    + constructor; [lia|exact Hall].
Qed.

Lemma isFinite_spec (v : float) :
  Number_isFinite v = true ->
  sf_finite (Prim2SF v) = true /\ PrimFloat.is_nan v = false.
Proof.
  intros H. split; [|exact (finite_not_nan v H)].
  destruct (finite_cases v H) as [[s ->]|(s & m & e & ->)]; reflexivity.
Qed.

Lemma isFinite_rank (v : float) :
  Number_isFinite v = true ->
  sf_rank (Prim2SF v) = sf_units (Prim2SF v)
  /\ - 2 ^ 2100 < sf_units (Prim2SF v) < 2 ^ 2100.
Proof.
  intros H. apply finite_rank; [apply Prim2SF_valid|apply isFinite_spec, H].
Qed.

(** The least of finite Numbers, at least one, is one of them and none is
    smaller. *)
Lemma Math_min_of_least (vs : list float) :
  vs <> [] -> Forall (fun v => Number_isFinite v = true) vs ->
  In (Math_min_of vs) vs
  /\ Forall (fun v => sf_rank (Prim2SF (Math_min_of vs)) <= sf_rank (Prim2SF v)) vs.
Proof.
  intros Hne Hf. unfold Math_min_of.
  assert (Hn : Forall (fun v => PrimFloat.is_nan v = false) vs).
  { eapply Forall_impl; [|exact Hf]. intros v Hv. exact (finite_not_nan v Hv). }
  destruct (fold_min_rank vs infinity eq_refl Hn) as (Hin & _ & Hall).
  split; [|exact Hall].
  destruct Hin as [E|Hin]; [|exact Hin]. exfalso.
  destruct vs as [|v vs]; [contradiction|].
  inversion Hall as [|? ? Hle _]; inversion Hf as [|? ? Hv _]; subst.
  rewrite E in Hle. destruct (isFinite_rank v Hv) as (Er & B).
  change (sf_rank (Prim2SF infinity)) with (2 ^ 2100) in Hle. lia.
Qed.

Lemma Math_max_of_greatest (vs : list float) :
  vs <> [] -> Forall (fun v => Number_isFinite v = true) vs ->
  In (Math_max_of vs) vs
  /\ Forall (fun v => sf_rank (Prim2SF v) <= sf_rank (Prim2SF (Math_max_of vs))) vs.
Proof.
  intros Hne Hf. unfold Math_max_of.
  assert (Hn : Forall (fun v => PrimFloat.is_nan v = false) vs).
  { eapply Forall_impl; [|exact Hf]. intros v Hv. exact (finite_not_nan v Hv). }
  destruct (fold_max_rank vs neg_infinity eq_refl Hn) as (Hin & _ & Hall).
  split; [|exact Hall].
  destruct Hin as [E|Hin]; [|exact Hin]. exfalso.
  destruct vs as [|v vs]; [contradiction|].
  inversion Hall as [|? ? Hle _]; inversion Hf as [|? ? Hv _]; subst.
  rewrite E in Hle. destruct (isFinite_rank v Hv) as (Er & B).
  change (sf_rank (Prim2SF neg_infinity)) with (- 2 ^ 2100) in Hle. lia.
Qed.

(** *** The sign of a difference and of a product *)

(** Rounding keeps the sign. *)
Lemma binary_round_aux_sign (s : bool) (m : positive) (e : Z) (l : location) :
  match binary_round_aux prec emax s (Zpos m) e l with
  | S754_zero s' | S754_infinity s' | S754_finite s' _ _ => s' = s
  | S754_nan => False
  end.
Proof.
  unfold binary_round_aux.
  pose proof (shr_fexp_nonneg (Zpos m) e l ltac:(lia)) as H1.
  destruct (shr_fexp prec emax (Zpos m) e l) as [mrs' e'].
  cbn [fst] in H1.
  pose proof (round_nearest_even_bounds (shr_m mrs') (loc_of_shr_record mrs')) as Hr.
  pose proof (shr_fexp_nonneg (round_nearest_even (shr_m mrs') (loc_of_shr_record mrs'))
                e' loc_Exact ltac:(lia)) as H2.
  destruct (shr_fexp prec emax _ e' loc_Exact) as [mrs'' e''].
  cbn [fst] in H2.
  destruct (shr_m mrs'') as [|q|q]; [reflexivity| |lia].
  destruct (_ <=? _); reflexivity.
Qed.

Lemma SFmul_nonneg (mx : positive) (ex : Z) (y : spec_float) :
  sf_nonneg y = true ->
  sf_nonneg (SFmul prec emax (S754_finite false mx ex) y) = true.
Proof.
  intros Hy.
  destruct y as [sy|sy| |sy my ey];
    try discriminate; cbn [sf_nonneg] in Hy;
    try (apply negb_true_iff in Hy; subst sy);
    try reflexivity.
  cbn [SFmul xorb].
  pose proof (binary_round_aux_sign false (mx * my) (ex + ey) loc_Exact) as H.
  change (PosDef.Pos.mul mx my) with (mx * my)%positive.
  change (IntDef.Z.add ex ey) with (ex + ey).
  destruct (binary_round_aux _ _ _ _ _ _); try (rewrite H; reflexivity);
    try reflexivity. contradiction.
Qed.

Lemma SFsub_nonneg (x y : spec_float) :
  valid_binary x = true -> valid_binary y = true ->
  sf_finite x = true -> sf_finite y = true ->
  sf_units y <= sf_units x ->
  sf_nonneg (SFsub prec emax x y) = true.
Proof.
  intros Vx Vy Fx Fy Hle.
  destruct x as [sx|sx| |sx mx ex]; try discriminate Fx;
    destruct y as [sy|sy| |sy my ey]; try discriminate Fy.
  - destruct sx, sy; reflexivity.
  - cbn [SFsub sf_nonneg]. cbn [sf_units] in Hle.
    destruct (valid_finite _ _ _ Vy) as (Ey & _).
    pose proof (units_pos my ey ltac:(lia)) as P.
    destruct sy; [reflexivity|cbn [cond_Zopp] in Hle; lia].
  - cbn [SFsub sf_nonneg]. cbn [sf_units] in Hle.
    destruct (valid_finite _ _ _ Vx) as (Ex & _).
    pose proof (units_pos mx ex ltac:(lia)) as P.
    destruct sx; [change (cond_Zopp true ?a) with (- a) in Hle; lia|reflexivity].
  - pose proof (valid_finite _ _ _ Vx) as (Ex & _).
    pose proof (valid_finite _ _ _ Vy) as (Ey & _).
    pose proof (aligned_difference sx mx ex sy my ey ltac:(lia) ltac:(lia)) as Hz.
    cbv zeta in Hz. cbn [sf_units] in Hle.
    cbn [SFsub].
    change (IntDef.Z.min ex ey) with (Z.min ex ey) in *.
    set (ez := Z.min ex ey) in *.
    change (IntDef.Z.sub ?a ?b) with (a - b).
    set (z := cond_Zopp sx (Zpos (fst (shl_align mx ex ez)))
              - cond_Zopp sy (Zpos (fst (shl_align my ey ez)))) in *.
    assert (Hez : -1074 <= ez) by (unfold ez; lia).
    pose proof (pow2_pos (ez + 1074) ltac:(lia)) as Pz.
    destruct z as [|q|q]; cbn [binary_normalize].
    + reflexivity.
    + destruct (binary_round_signed false q ez Hez) as [E|(mr & er & E)];
        rewrite E; reflexivity.
    + change (Zneg q) with (- Zpos q) in Hz. nia.
Qed.

(** *** The padded bounds *)

Lemma padding_nonneg (lo hi : float) :
  Number_isFinite lo = true -> Number_isFinite hi = true ->
  sf_rank (Prim2SF lo) <= sf_rank (Prim2SF hi) ->
  sf_nonneg (Prim2SF (0.15 * or_else (hi - lo) 1)%float) = true.
Proof.
  intros Fl Fh Hle.
  destruct (isFinite_rank lo Fl) as (El & _), (isFinite_rank hi Fh) as (Eh & _).
  rewrite El, Eh in Hle.
  assert (Hd : sf_nonneg (Prim2SF (hi - lo)%float) = true).
  { rewrite FloatAxioms.sub_spec. unfold SF64sub.
    apply SFsub_nonneg; try apply Prim2SF_valid; try apply isFinite_spec;
      assumption. }
  assert (Ho : sf_nonneg (Prim2SF (or_else (hi - lo) 1)) = true).
  { unfold or_else. destruct (_ || _); [reflexivity|exact Hd]. }
  rewrite FloatAxioms.mul_spec. unfold SF64mul.
  change (Prim2SF 0.15) with (S754_finite false 5404319552844595 (-55)).
  apply SFmul_nonneg. exact Ho.
Qed.

(** Every one of the finite values [vs] lies within their padded bounds. *)
Lemma padded_contains (vs : list float) (v : float) :
  Forall (fun v => Number_isFinite v = true) vs -> In v vs ->
  (fst (padded vs) <=? v)%float = true /\ (v <=? snd (padded vs))%float = true.
Proof.
  intros Hf Hin.
  assert (Hne : vs <> []) by (intros ->; contradiction).
  destruct (Math_min_of_least vs Hne Hf) as (Ilo & Hlo).
  destruct (Math_max_of_greatest vs Hne Hf) as (Ihi & Hhi).
  rewrite Forall_forall in Hf, Hlo, Hhi.
  pose proof (Hf _ Ilo) as Flo. pose proof (Hf _ Ihi) as Fhi.
  pose proof (Hf _ Hin) as Fv.
  pose proof (Hlo _ Hin) as Lv. pose proof (Hhi _ Hin) as Uv.
  unfold padded. cbv zeta. cbn [fst snd].
  set (lo := Math_min_of vs) in *. set (hi := Math_max_of vs) in *.
  pose proof (padding_nonneg lo hi Flo Fhi ltac:(lia)) as Hp.
  set (pad := (0.15 * or_else (hi - lo) 1)%float) in *.
  destruct (isFinite_spec lo Flo) as (Slo & Nlo).
  destruct (isFinite_spec hi Fhi) as (Shi & Nhi).
  destruct (isFinite_spec v Fv) as (Sv & Nv).
  rewrite !FloatAxioms.leb_spec. split.
  - apply SFleb_trans with (Prim2SF lo); try apply Prim2SF_valid.
    + rewrite FloatAxioms.sub_spec. unfold SF64sub.
      apply SFsub_le; try apply Prim2SF_valid; try assumption.
      change (SFsub prec emax) with SF64sub. rewrite <- FloatAxioms.sub_spec.
      apply Prim2SF_valid.
    + apply SFleb_rank; try apply Prim2SF_valid; try (apply is_nan_spec; assumption).
      exact Lv.
  - apply SFleb_trans with (Prim2SF hi); try apply Prim2SF_valid.
    + apply SFleb_rank; try apply Prim2SF_valid; try (apply is_nan_spec; assumption).
      exact Uv.
    + rewrite FloatAxioms.add_spec. unfold SF64add.
      apply SFadd_ge; try apply Prim2SF_valid; try assumption.
      change (SFadd prec emax) with SF64add. rewrite <- FloatAxioms.add_spec.
      apply Prim2SF_valid.
Qed.

(** X20.  The chart shows every point it is given: when the coordinates of
    all points are finite Numbers, each point lies within the axis bounds
    [createScatterChart] computes, x_min <= x1 <= x_max and
    y_min <= x2 <= y_max, whatever the rounding of the padding
    0.15 * (max - min || 1) and of the two bounds min - pad and max + pad
    (a bound may be an infinity when they overflow). *)
Theorem points_in_view (points : list Point) (p : Point) :
  Forall (fun q => Number_isFinite (x1 q) = true
                   /\ Number_isFinite (x2 q) = true) points ->
  In p points ->
  in_view (createScatterChart points) p = true.
Proof.
  intros Hf Hin.
  assert (H1 : Forall (fun v => Number_isFinite v = true) (map x1 points)).
  { apply Forall_map. eapply Forall_impl; [|exact Hf]. intros q Hq. apply Hq. }
  assert (H2 : Forall (fun v => Number_isFinite v = true) (map x2 points)).
  { apply Forall_map. eapply Forall_impl; [|exact Hf]. intros q Hq. apply Hq. }
  destruct (padded_contains (map x1 points) (x1 p) H1 (in_map x1 points p Hin))
    as (Hxl & Hxh).
  destruct (padded_contains (map x2 points) (x2 p) H2 (in_map x2 points p Hin))
    as (Hyl & Hyh).
  unfold in_view, createScatterChart.
  cbn [Chart.x_min Chart.x_max Chart.y_min Chart.y_max].
  rewrite Hxl, Hxh, Hyl, Hyh. reflexivity.
Qed.

Lemma points_in_view_witness :
  in_view (createScatterChart example_points) {| x1 := 8; x2 := 6; y := 1 |} = true.
Proof.
  apply (points_in_view example_points {| x1 := 8; x2 := 6; y := 1 |}).
  - repeat constructor.
  - right. left. reflexivity.
Defined.
